(** * USB-RECUPERATION: drive discovery, tree listing and recursive copy

    A shallow embedding of [src/app.py] ([list_removable_drives] and the
    methods [_populate_tree], [copy_all], [_copy_paths_thread] and
    [_copy_tree] of [USBRecoveryAppAdvanced], then [refresh_drives],
    [open_selected_drive], [choose_destination] and the callbacks bound in
    [__init__]) together with the library functions they call ([os.path],
    [os.walk], [os.makedirs], [shutil.copy2] and the [ttk.Treeview]
    insertions).

    Modelling conventions:
    - a path is a Python [str]; the file system resolves it through its
      normalised list of components ([comps]), the current directory being
      the root, so that a relative path and the absolute path with the same
      components name the same node;
    - the normalisation is lexical: [a/b/..] names [a] whether or not [b]
      exists.  The operating system agrees where [b] is a directory; where
      [b] is missing or a regular file it does not ([os.path.exists] is
      false, and [os.makedirs] creates [b] on its way).  On path strings
      without a [..] component ([has_dotdot]) the two agree;
    - the file system is a tree of directories and regular files (no
      symbolic links, no permissions, no devices); a directory keeps its
      entries in listing order, new entries are appended;
    - the data of a file stands for its content together with the metadata
      that [shutil.copy2] preserves;
    - a worker thread is modelled by the call of its target function;
    - [os.walk] reads each directory when it reaches it, so the walk is a
      loop over a stack of pending directories, bounded by a fuel. *)

From Stdlib Require Import String Ascii List Bool Arith Lia.
Import ListNotations.
Open Scope string_scope.
Close Scope list_scope.
Open Scope list_scope.

Notation "a +++ b" := (String.append a b) (at level 60, right associativity).

(** ** Python exceptions and results *)

Inductive exn : Type :=
| FileNotFoundError
| FileExistsError
| NotADirectoryError
| IsADirectoryError
| PermissionError
| SameFileError
| OtherOSError
| TypeError
| TclError
| RuntimeError.

Inductive result (A : Type) : Type :=
| Ok (a : A)
| Raise (e : exn).
Arguments Ok {A} a.
Arguments Raise {A} e.

Definition bind {A B : Type} (r : result A) (k : A -> result B) : result B :=
  match r with
  | Ok a => k a
  | Raise e => Raise e
  end.

Notation "x <- c ;; k" := (bind c (fun x => k))
  (at level 61, c at next level, right associativity).

(** ** [posixpath] *)

Module PosixPath.

Definition is_sep (c : ascii) : bool := Ascii.eqb c "/".
Definition is_dot (c : ascii) : bool := Ascii.eqb c ".".

Fixpoint has_sep (s : string) : bool :=
  match s with
  | EmptyString => false
  | String c r => is_sep c || has_sep r
  end.

Fixpoint has_dot (s : string) : bool :=
  match s with
  | EmptyString => false
  | String c r => is_dot c || has_dot r
  end.

(** [s.split('/')] *)
Fixpoint split_sep (s : string) : list string :=
  match s with
  | EmptyString => [EmptyString]
  | String c r =>
      if is_sep c then EmptyString :: split_sep r
      else match split_sep r with
           | [] => [String c EmptyString]
           | w :: ws => String c w :: ws
           end
  end.

(** One step of [normpath] on an absolute path; the components kept so far
    are in reverse order.  [..] at the root is dropped. *)
Definition norm_step (acc : list string) (c : string) : list string :=
  if (c =? "") || (c =? ".") then acc
  else if c =? ".." then tl acc
  else c :: acc.

(** The components of [abspath(p)], the current directory being [/]. *)
Definition comps (p : string) : list string :=
  rev (fold_left norm_step (split_sep p) []).

Definition starts_with_sep (s : string) : bool :=
  match s with
  | String c _ => is_sep c
  | EmptyString => false
  end.

Fixpoint ends_with_sep (s : string) : bool :=
  match s with
  | EmptyString => false
  | String c EmptyString => is_sep c
  | String _ r => ends_with_sep r
  end.

(** [os.path.join(a, b)] *)
Definition join (a b : string) : string :=
  if starts_with_sep b then b
  else if (a =? "") || ends_with_sep a then a +++ b
  else a +++ "/" +++ b.

(** [p[:i], p[i:]] for [i = p.rfind('/') + 1] *)
Fixpoint rsplit_sep (s : string) : string * string :=
  match s with
  | EmptyString => (EmptyString, EmptyString)
  | String c r =>
      let (h, t) := rsplit_sep r in
      if is_sep c then (String c h, t)
      else if h =? "" then (EmptyString, String c t)
      else (String c h, t)
  end.

(** [os.path.basename(p)] *)
Definition basename (p : string) : string := snd (rsplit_sep p).

(** [s.rstrip(os.sep)] *)
Fixpoint rstrip_sep (s : string) : string :=
  match s with
  | EmptyString => EmptyString
  | String c r =>
      let r' := rstrip_sep r in
      if is_sep c && (r' =? "") then EmptyString else String c r'
  end.

(** [t[:i], t[i:]] for [i = t.rfind('.')], or [(t, "")] without a dot. *)
Fixpoint rsplit_dot (t : string) : string * string :=
  match t with
  | EmptyString => (EmptyString, EmptyString)
  | String c r =>
      if has_dot r then let (b, e) := rsplit_dot r in (String c b, e)
      else if is_dot c then (EmptyString, t)
      else (t, EmptyString)
  end.

(** [splitext] on a file name: the leading dots are skipped, the extension
    starts at the last dot of what follows them. *)
Fixpoint splitext_name (t : string) : string * string :=
  match t with
  | String c r =>
      if is_dot c then let (b, e) := splitext_name r in (String c b, e)
      else rsplit_dot t
  | EmptyString => (EmptyString, EmptyString)
  end.

(** [os.path.splitext(p)] *)
Definition splitext (p : string) : string * string :=
  let (h, t) := rsplit_sep p in
  let (b, e) := splitext_name t in
  (h +++ b, e).

Fixpoint strip_common (a b : list string) : list string * list string :=
  match a, b with
  | x :: a', y :: b' => if x =? y then strip_common a' b' else (a, b)
  | _, _ => (a, b)
  end.

(** [os.path.relpath(path, start)] *)
Definition relpath (path start : string) : string :=
  let (s, p) := strip_common (comps start) (comps path) in
  match (repeat ".." (List.length s) ++ p)%list with
  | [] => "."
  | rel_list => String.concat "/" rel_list
  end.

(** A name that a directory entry can have. *)
Definition valid_name (n : string) : bool :=
  negb (n =? "") && negb (n =? ".") && negb (n =? "..") && negb (has_sep n).

End PosixPath.

Import PosixPath.

(** ** The file system *)

Definition data : Type := string.

#[warnings="-register-all"]
Inductive node : Type :=
| File (d : data)
| Dir (es : list (string * node)).

Module FS.

Fixpoint alist_find (k : string) (es : list (string * node)) : option node :=
  match es with
  | [] => None
  | (k', v) :: r => if k =? k' then Some v else alist_find k r
  end.

(** Replaces the entry [k] where it is, or appends it. *)
Fixpoint alist_set (k : string) (v : node) (es : list (string * node))
  : list (string * node) :=
  match es with
  | [] => [(k, v)]
  | (k', v') :: r => if k =? k' then (k, v) :: r else (k', v') :: alist_set k v r
  end.

Fixpoint lookup (n : node) (p : list string) : option node :=
  match p with
  | [] => Some n
  | c :: p' =>
      match n with
      | File _ => None
      | Dir es =>
          match alist_find c es with
          | Some ch => lookup ch p'
          | None => None
          end
      end
  end.

(** [os.makedirs(p, exist_ok=True)] from the node [n] down: the missing
    directories are created, an existing directory is accepted, a regular
    file on the way makes [mkdir] fail. *)
Fixpoint makedirs_at (n : node) (p : list string) : result node :=
  match p with
  | [] =>
      match n with
      | Dir _ => Ok n
      | File _ => Raise FileExistsError
      end
  | c :: p' =>
      match n with
      | File _ => Raise NotADirectoryError
      | Dir es =>
          match alist_find c es with
          | Some ch => ch' <- makedirs_at ch p' ;; Ok (Dir (alist_set c ch' es))
          | None => ch' <- makedirs_at (Dir []) p' ;; Ok (Dir (alist_set c ch' es))
          end
      end
  end.

(** [open(p, 'wb')] followed by the write of [d]: the parent must be an
    existing directory and [p] must not be a directory. *)
Fixpoint write_at (n : node) (p : list string) (d : data) : result node :=
  match p with
  | [] =>
      match n with
      | File _ => Ok (File d)
      | Dir _ => Raise IsADirectoryError
      end
  | c :: p' =>
      match n with
      | File _ => Raise NotADirectoryError
      | Dir es =>
          match alist_find c es with
          | Some ch => ch' <- write_at ch p' d ;; Ok (Dir (alist_set c ch' es))
          | None =>
              match p' with
              | [] => Ok (Dir (alist_set c (File d) es))
              | _ :: _ => Raise FileNotFoundError
              end
          end
      end
  end.

(** The node a path string names; the empty string names nothing. *)
Definition resolve (fs : node) (p : string) : option node :=
  if p =? "" then None else lookup fs (comps p).

(** [os.path.exists] *)
Definition exists_ (fs : node) (p : string) : bool :=
  match resolve fs p with
  | Some _ => true
  | None => false
  end.

(** [os.path.isdir] *)
Definition isdir (fs : node) (p : string) : bool :=
  match resolve fs p with
  | Some (Dir _) => true
  | _ => false
  end.

(** [os.makedirs(p, exist_ok=True)] *)
Definition makedirs (fs : node) (p : string) : result node :=
  if p =? "" then Raise FileNotFoundError else makedirs_at fs (comps p).

Definition is_dir_entry (e : string * node) : bool :=
  match snd e with
  | Dir _ => true
  | File _ => false
  end.

Definition dirnames (es : list (string * node)) : list string :=
  map fst (filter is_dir_entry es).

Definition filenames (es : list (string * node)) : list string :=
  map fst (filter (fun e => negb (is_dir_entry e)) es).

(** What [os.walk] gets from [os.scandir(top)]: the names of the
    directories and of the other entries, in listing order. *)
Definition scandir (fs : node) (top : string) : result (list string * list string) :=
  match resolve fs top with
  | Some (Dir es) => Ok (dirnames es, filenames es)
  | Some (File _) => Raise NotADirectoryError
  | None => Raise FileNotFoundError
  end.

Definition same_comps (a b : list string) : bool :=
  if list_eq_dec string_dec a b then true else false.

(** What [open] raises on components that do not resolve: a regular file
    is on the way, or an entry is missing. *)
Fixpoint missing_at (n : node) (p : list string) : exn :=
  match p with
  | [] => FileNotFoundError
  | c :: p' =>
      match n with
      | File _ => NotADirectoryError
      | Dir es =>
          match alist_find c es with
          | Some ch => missing_at ch p'
          | None => FileNotFoundError
          end
      end
  end.

(** The exception of [open(p, 'rb')] on a path that names nothing. *)
Definition open_error (fs : node) (p : string) : exn :=
  if p =? "" then FileNotFoundError else missing_at fs (comps p).

(** [shutil.copy2(src, dst)] *)
Definition copy2 (fs : node) (src dst : string) : result node :=
  let dst := if isdir fs dst then join dst (basename src) else dst in
  if exists_ fs src && exists_ fs dst && same_comps (comps src) (comps dst)
  then Raise SameFileError
  else
    match resolve fs src with
    | None => Raise (open_error fs src)
    | Some (Dir _) => Raise IsADirectoryError
    | Some (File d) =>
        if dst =? "" then Raise FileNotFoundError else write_at fs (comps dst) d
    end.

End FS.

Import FS.

(** ** [ttk.Treeview] *)

Record item : Type := mkItem {
  iid : nat;
  parent : nat;
  text : string;
  values : list string
}.

(** The item ids are [1, 2, ...]; [0] stands for [''], the invisible root. *)
Record treeview : Type := mkTreeview {
  items : list item;
  last_iid : nat
}.

Definition tv_has (tv : treeview) (i : nat) : bool :=
  Nat.eqb i 0 || existsb (fun it => Nat.eqb (iid it) i) (items tv).

(** [tree.insert(parent, 'end', text=..., values=...)] *)
Definition tv_insert (tv : treeview) (par : nat) (txt : string) (vals : list string)
  : result (nat * treeview) :=
  if tv_has tv par then
    let i := S (last_iid tv) in
    Ok (i, mkTreeview (items tv ++ [mkItem i par txt vals]) i)
  else Raise TclError.

(** [tree.get_children(parent)] *)
Definition tv_get_children (tv : treeview) (par : nat) : list item :=
  filter (fun it => Nat.eqb (parent it) par) (items tv).

(** [tree.delete( *tree.get_children())]: the top-level items go, and their
    descendants with them. *)
Definition tv_delete_all (tv : treeview) : treeview :=
  mkTreeview [] (last_iid tv).

(** ** The application state *)

Inductive box : Type :=
| ShowWarning (title message : string)
| ShowInfo (title message : string)
| ShowError (title message : string) (e : exn).

(** A line printed on the standard output. *)
Inductive logline : Type :=
| ErreurCopieFichier (p : string) (e : exn)
| ErreurCopie (sp : string) (e : exn).

Record appstate : Type := mkApp {
  fs : node;
  tree : treeview;
  status_label : string;
  boxes : list box;
  stdout : list logline;
  drive_var : string;
  destination : option string
}.

Definition with_fs (f : node) (a : appstate) : appstate :=
  mkApp f (tree a) (status_label a) (boxes a) (stdout a) (drive_var a) (destination a).

Definition with_tree (t : treeview) (a : appstate) : appstate :=
  mkApp (fs a) t (status_label a) (boxes a) (stdout a) (drive_var a) (destination a).

Definition set_status (txt : string) (a : appstate) : appstate :=
  mkApp (fs a) (tree a) ("Statut: " +++ txt) (boxes a) (stdout a) (drive_var a)
        (destination a).

Definition messagebox (b : box) (a : appstate) : appstate :=
  mkApp (fs a) (tree a) (status_label a) (boxes a ++ [b]) (stdout a) (drive_var a)
        (destination a).

Definition print (l : logline) (a : appstate) : appstate :=
  mkApp (fs a) (tree a) (status_label a) (boxes a) (stdout a ++ [l]) (drive_var a)
        (destination a).

(** How a call ends: it returns, an exception leaves it, or the fuel of the
    model is used up before either; each time with the state reached. *)
Inductive outcome (S : Type) : Type :=
| Done (s : S)
| Raised (e : exn) (s : S)
| OutOfFuel (s : S).
Arguments Done {S} s.
Arguments Raised {S} e s.
Arguments OutOfFuel {S} s.

Definition andthen {S : Type} (o : outcome S) (k : S -> outcome S) (h : exn -> S -> outcome S)
  : outcome S :=
  match o with
  | Done s => k s
  | Raised e s => h e s
  | OutOfFuel s => OutOfFuel s
  end.

(** ** [os.walk(top)], top-down, with the body of the [for] loop

    The directory on top of the stack is scanned when it is reached; a
    directory that cannot be scanned is skipped; the body runs on what was
    read, then the subdirectories are pushed. *)
Fixpoint os_walk (body : string -> list string -> list string -> appstate -> outcome appstate)
         (fuel : nat) (stack : list string) (st : appstate) : outcome appstate :=
  match fuel with
  | O => OutOfFuel st
  | S fuel' =>
      match stack with
      | [] => Done st
      | top :: rest =>
          match scandir (fs st) top with
          | Raise _ => os_walk body fuel' rest st
          | Ok (dirs, nondirs) =>
              match body top dirs nondirs st with
              | Done st' => os_walk body fuel' (map (join top) dirs ++ rest) st'
              | Raised e st' => Raised e st'
              | OutOfFuel st' => OutOfFuel st'
              end
          end
      end
  end.

(** ** [list_removable_drives] *)

(** What the operating system answers to the queries of the enumeration. *)
Record os_state : Type := mkOs {
  platform : string;                          (* sys.platform *)
  GetLogicalDrives : result nat;              (* kernel32.GetLogicalDrives() *)
  GetDriveTypeW : string -> result nat;       (* kernel32.GetDriveTypeW(letter) *)
  Path_home : result string;                  (* Path.home() *)
  path_exists : string -> bool;               (* os.path.exists *)
  listdir : string -> result (list string);   (* os.listdir *)
  ismount : string -> bool;                   (* os.path.ismount *)
  realpath : string -> string                 (* the resolved path of a path *)
}.

Definition DRIVE_REMOVABLE : nat := 2.

(** [f"{chr(65 + i)}:\\"] *)
Definition drive_letter (i : nat) : string :=
  String (ascii_of_nat (65 + i)) (String ":" (String (ascii_of_nat 92) EmptyString)).

(** The body of [for i in range(26)]. *)
Definition scan_letter (os : os_state) (bitmask : nat) (drives : list string) (i : nat)
  : list string :=
  if Nat.testbit bitmask i then
    match GetDriveTypeW os (drive_letter i) with
    | Ok t => if Nat.eqb t DRIVE_REMOVABLE then drives ++ [drive_letter i] else drives
    | Raise _ => drives
    end
  else drives.

Definition scan_letters (os : os_state) : list string :=
  match GetLogicalDrives os with
  | Ok bitmask => fold_left (scan_letter os bitmask) (seq 0 26) []
  | Raise _ => []
  end.

Definition mem (x : string) (s : list string) : bool := existsb (String.eqb x) s.

(** The body of [for entry in os.listdir(base)], on [(drives, seen)]. *)
Definition scan_entry (os : os_state) (base : string) (acc : list string * list string)
           (entry : string) : list string * list string :=
  let path := join base entry in
  if ismount os path && negb (mem path (snd acc))
  then (fst acc ++ [path], path :: snd acc)
  else acc.

(** [for base in candidates]: only [PermissionError] is handled. *)
Fixpoint scan_bases (os : os_state) (candidates : list string)
         (acc : list string * list string) : result (list string) :=
  match candidates with
  | [] => Ok (fst acc)
  | base :: rest =>
      if path_exists os base then
        match listdir os base with
        | Ok entries => scan_bases os rest (fold_left (scan_entry os base) entries acc)
        | Raise PermissionError => scan_bases os rest acc
        | Raise e => Raise e
        end
      else scan_bases os rest acc
  end.

(** The home directory, where [Path.home()] returns one. *)
Definition home (os : os_state) : string :=
  match Path_home os with
  | Ok h => h
  | Raise _ => ""
  end.

Definition candidates (os : os_state) : list string :=
  ["/media"; "/mnt"; "/run/media"; join (home os) "Volumes"; "/Volumes"].

Definition startswith (pre s : string) : bool := String.prefix pre s.

(** On the other platforms [Path.home()] is called when the list of the
    candidates is built, outside any [try]: its exception leaves the
    function. *)
Definition list_removable_drives (os : os_state) : result (list string) :=
  if startswith "win" (platform os) then Ok (scan_letters os)
  else
    match Path_home os with
    | Raise e => Raise e
    | Ok _ => scan_bases os (candidates os) ([], [])
    end.

(** ** [USBRecoveryAppAdvanced] *)

(** [a or b] on strings *)
Definition str_or (a b : string) : string := if a =? "" then b else a.

(** [override_dst or self.destination] *)
Definition dst_or (override_dst dest : option string) : option string :=
  match override_dst with
  | Some d => if d =? "" then dest else Some d
  | None => dest
  end.

(** [insert_node(parent, fullpath)] of [_populate_tree] *)
Definition insert_node (par : nat) (fullpath : string) (tv : treeview)
  : result (nat * treeview) :=
  tv_insert tv par (str_or (basename fullpath) fullpath) [fullpath].

(** [try: self.tree.insert(parent_node, 'end', text=name) except Exception: pass] *)
Definition try_insert (parent_node : nat) (st : appstate) (name : string) : appstate :=
  match tv_insert (tree st) parent_node name [] with
  | Ok (_, tv) => with_tree tv st
  | Raise _ => st
  end.

(** The body of the [os.walk] loop of [_populate_tree]. *)
Definition populate_dir (root_path : string) (root_node : nat)
           (dirpath : string) (dirnames filenames : list string) (st : appstate) : outcome appstate :=
  let rel := relpath dirpath root_path in
  let parent_node := if rel =? "." then root_node else root_node in
  let st := fold_left (try_insert parent_node) dirnames st in
  Done (fold_left (try_insert parent_node) filenames st).

Definition _populate_tree (fuel : nat) (root_path : string) (st : appstate) : outcome appstate :=
  let st := set_status ("Lecture de " +++ root_path +++ " ...") st in
  let st := with_tree (tv_delete_all (tree st)) st in
  match insert_node 0 root_path (tree st) with
  | Raise e => Raised e st
  | Ok (root_node, tv) =>
      andthen (os_walk (populate_dir root_path root_node) fuel [root_path] (with_tree tv st))
              (fun st => Done (set_status "Arborescence chargée" st))
              Raised
  end.

(** The body of [for f in files] of [_copy_tree]. *)
Definition copy_file (root target_root : string) (st : appstate) (f : string) : appstate :=
  let sp := join root f in
  let dp := join target_root f in
  let dp := if exists_ (fs st) dp
            then let (base, ext) := splitext dp in base +++ "_copy" +++ ext
            else dp in
  match copy2 (fs st) sp dp with
  | Ok fs' => with_fs fs' st
  | Raise e => print (ErreurCopie sp e) st
  end.

(** The body of the [os.walk] loop of [_copy_tree]. *)
Definition copy_dir (src dst : string)
           (root : string) (dirs files : list string) (st : appstate) : outcome appstate :=
  let rel := relpath root src in
  let target_root := if negb (rel =? ".") then join dst rel else dst in
  match makedirs (fs st) target_root with
  | Raise e => Raised e st
  | Ok fs' => Done (fold_left (copy_file root target_root) files (with_fs fs' st))
  end.

Definition _copy_tree (fuel : nat) (src dst : string) (st : appstate) : outcome appstate :=
  if negb (exists_ (fs st) src) then Done st
  else os_walk (copy_dir src dst) fuel [src] st.

(** The body of [for p in paths] of [_copy_paths_thread]. *)
Definition copy_path (fuel : nat) (override_dst : option string) (p : string) (st : appstate)
  : outcome appstate :=
  match dst_or override_dst (destination st) with
  | None => Raised TypeError st
  | Some dst =>
      if isdir (fs st) p then
        let name := str_or (basename (rstrip_sep p)) "root" in
        let target := join dst name in
        _copy_tree fuel p target st
      else
        match makedirs (fs st) dst with
        | Raise e => Raised e st
        | Ok fs' =>
            match copy2 fs' p dst with
            | Ok fs'' => Done (with_fs fs'' st)
            | Raise e => Done (print (ErreurCopieFichier p e) (with_fs fs' st))
            end
        end
  end.

Fixpoint copy_paths (fuel : nat) (override_dst : option string) (paths : list string)
         (st : appstate) : outcome appstate :=
  match paths with
  | [] => Done st
  | p :: rest =>
      andthen (copy_path fuel override_dst p st) (copy_paths fuel override_dst rest) Raised
  end.

Definition _copy_paths_thread (fuel : nat) (paths : list string)
           (override_dst : option string) (st : appstate) : outcome appstate :=
  andthen (copy_paths fuel override_dst paths (set_status "Copie en cours..." st))
          (fun st =>
             Done (messagebox (ShowInfo "Terminé" "Copie terminée.")
                              (set_status "Copie terminée" st)))
          (fun e st =>
             Done (messagebox (ShowError "Erreur" "Une erreur est survenue pendant la copie: " e)
                              (set_status "Erreur lors de la copie" st))).

Definition is_empty (o : option string) : bool :=
  match o with
  | Some d => d =? ""
  | None => true
  end.

Definition copy_all (fuel : nat) (st : appstate) : outcome appstate :=
  let src := drive_var st in
  if src =? "" then
    Done (messagebox (ShowWarning "Aucun lecteur" "Aucun lecteur amovible sélectionné.") st)
  else
    match destination st with
    | None =>
        Done (messagebox (ShowWarning "Destination manquante"
                                      "Choisissez d'abord un dossier de destination.") st)
    | Some d =>
        if d =? "" then
          Done (messagebox (ShowWarning "Destination manquante"
                                        "Choisissez d'abord un dossier de destination.") st)
        else
          let here := rstrip_sep src in
          let basename := str_or (basename here) "usb_copy" in
          let dst_folder := join d (basename +++ "_copy") in
          _copy_paths_thread fuel [src] (Some dst_folder) st
    end.

(** ** Vocabulary of the statements *)

(** The name a file gets on a collision: [_copy] before the extension. *)
Definition copy_name (f : string) : string :=
  let (b, e) := splitext_name f in b +++ "_copy" +++ e.

(** [a] is an ancestor of [b], or [b] itself. *)
Fixpoint is_prefix (a b : list string) : bool :=
  match a, b with
  | [], _ => true
  | x :: a', y :: b' => (x =? y) && is_prefix a' b'
  | _ :: _, [] => false
  end.

(** Neither path is an ancestor of the other. *)
Definition disjoint (a b : list string) : bool :=
  negb (is_prefix a b) && negb (is_prefix b a).

(** What [os.stat] tells of a node: a directory, or a file and its data. *)
Inductive kind : Type :=
| KDir
| KFile (d : data).

Definition kind_of (n : node) : kind :=
  match n with
  | Dir _ => KDir
  | File d => KFile d
  end.

Definition stat (fs : node) (q : list string) : option kind :=
  option_map kind_of (lookup fs q).

Fixpoint nodupb (l : list string) : bool :=
  match l with
  | [] => true
  | x :: r => negb (mem x r) && nodupb r
  end.

Definition keys (es : list (string * node)) : list string := map fst es.

(** The entries of every directory have valid, pairwise different names. *)
Fixpoint wf_node (n : node) : bool :=
  match n with
  | File _ => true
  | Dir es =>
      forallb valid_name (keys es) && nodupb (keys es)
      && forallb (fun e => wf_node (snd e)) es
  end.

(** The directories [os.walk(top)] visits on a tree that does not change,
    in the order of the visit: the path string, the components below [top]
    and the entries read. *)
Fixpoint walk_nodes (top : string) (r : list string) (n : node)
  : list (string * list string * list (string * node)) :=
  match n with
  | File _ => []
  | Dir es =>
      (top, r, es)
        :: flat_map (fun e => if is_dir_entry e
                              then walk_nodes (join top (fst e)) (r ++ [fst e]) (snd e)
                              else [])
                    es
  end.

(** What [os.walk] yields at a visited directory. *)
Definition yielded (v : string * list string * list (string * node))
  : string * list string * list string :=
  (fst (fst v), dirnames (snd v), filenames (snd v)).

(** The number of directories of a tree, its root included. *)
Fixpoint count_dirs (n : node) : nat :=
  match n with
  | File _ => 0
  | Dir es => S (list_sum (map (fun e => count_dirs (snd e)) es))
  end.

(** The number of regular files of a tree. *)
Fixpoint count_files (n : node) : nat :=
  match n with
  | File _ => 1
  | Dir es => list_sum (map (fun e => count_files (snd e)) es)
  end.

(** The loop of [os.walk] on what it yields, the body run at each step. *)
Fixpoint run_list (body : string -> list string -> list string -> appstate -> outcome appstate)
         (l : list (string * list string * list string)) (st : appstate) : outcome appstate :=
  match l with
  | [] => Done st
  | (top, dirs, nondirs) :: l' =>
      match body top dirs nondirs st with
      | Done st' => run_list body l' st'
      | Raised e st' => Raised e st'
      | OutOfFuel st' => OutOfFuel st'
      end
  end.

(** The subdirectories [os.walk] pushes after the visit of [top]. *)
Definition kids (top : string) (r : list string) (es : list (string * node))
  : list (string * list string * list (string * node)) :=
  flat_map (fun e => match snd e with
                     | Dir es' => [(join top (fst e), r ++ [fst e], es')]
                     | File _ => []
                     end) es.

Definition visit (v : string * list string * list (string * node))
  : list (string * list string * list (string * node)) :=
  walk_nodes (fst (fst v)) (snd (fst v)) (Dir (snd v)).

(** From [f] to [f'] no node disappears and no directory stops being one. *)
Definition grows (f f' : node) : Prop :=
  (forall q, stat f q = Some KDir -> stat f' q = Some KDir)
  /\ (forall q, stat f q <> None -> stat f' q <> None).

(** The path [copy_file] writes to, when it writes. *)
Definition written_path (fs : node) (target_root f : string) : string :=
  let dp := if exists_ fs (join target_root f)
            then join target_root (copy_name f) else join target_root f in
  if isdir fs dp then join dp f else dp.

(** [v] names a directory of the tree [n0] that sits at the components
    [S0]: its path string resolves to its components below [S0]. *)
Definition pending (S0 : list string) (n0 : node)
           (v : string * list string * list (string * node)) : Prop :=
  (fst (fst v) =? "") = false
  /\ comps (fst (fst v)) = S0 ++ snd (fst v)
  /\ lookup n0 (snd (fst v)) = Some (Dir (snd v)).

(** The tree at the components [S0] is [n0]. *)
Definition src_fixed (S0 : list string) (n0 : node) (st : appstate) : Prop :=
  lookup (fs st) S0 = Some n0.

(** The name of the directory a directory source is copied to. *)
Definition dir_name (p : string) : string := str_or (basename (rstrip_sep p)) "root".

(** The directory [_copy_paths_thread] copies the directory [p] to. *)
Definition target_of (dst p : string) : string := join dst (dir_name p).

(** From [f] to [f'] a node is created, changed or deleted only under [D],
    or it is a missing ancestor of [D] that is created. *)
Definition changes_under (D : list string) (f f' : node) : Prop :=
  forall q, stat f' q <> stat f q ->
            is_prefix D q = true \/ (is_prefix q D = true /\ stat f q = None).

(** A path string of the walk of [src]: it resolves below [src]. *)
Definition below (S0 : list string) (top : string) : Prop :=
  (top =? "") = false
  /\ exists r, comps top = S0 ++ r /\ Forall (fun c => valid_name c = true) r.

(** [I] holds of the state a call ends in. *)
Definition holds (I : appstate -> Prop) (o : outcome appstate) : Prop :=
  match o with
  | Done s => I s
  | Raised _ s => I s
  | OutOfFuel s => I s
  end.

(** Nothing but the file system and the standard output differs. *)
Definition same_session (st0 st : appstate) : Prop :=
  tree st = tree st0 /\ status_label st = status_label st0 /\ boxes st = boxes st0
  /\ drive_var st = drive_var st0 /\ destination st = destination st0.

(** The state keeps the names valid, differs from [st0] in the file system
    under [D] only, and in the standard output. *)
Definition copy_inv (D : list string) (st0 st : appstate) : Prop :=
  wf_node (fs st) = true /\ changes_under D (fs st0) (fs st) /\ same_session st0 st.

(** A tree view of two levels: the item [ri] under the invisible root and
    [k] items under [ri]. *)
Definition flat_tree (ri : item) (k : nat) (tv : treeview) : Prop :=
  exists kids, items tv = ri :: kids /\ List.length kids = k
               /\ Forall (fun it => parent it = iid ri) kids.

(** The drive letter [p] passed the check of the drive-letter platform. *)
Definition removable_letter (os : os_state) (p : string) : Prop :=
  exists i bitmask,
    i < 26 /\ p = drive_letter i /\ GetLogicalDrives os = Ok bitmask
    /\ Nat.testbit bitmask i = true /\ GetDriveTypeW os p = Ok DRIVE_REMOVABLE.

(** The path [p] passed the check of the mount-point platform: it is a
    mount point, listed in one of the base directories [bases]. *)
Definition mounted_child (os : os_state) (bases : list string) (p : string) : Prop :=
  ismount os p = true
  /\ exists base entries entry,
       In base bases /\ path_exists os base = true /\ listdir os base = Ok entries
       /\ In entry entries /\ p = join base entry.

(** Every listing of an existing base directory returns, or fails with
    [PermissionError]. *)
Definition listings_allowed (os : os_state) (bases : list string) : Prop :=
  forall base, In base bases -> path_exists os base = true ->
    (exists l, listdir os base = Ok l) \/ listdir os base = Raise PermissionError.

(** What the loop over the entries keeps: the result has no path twice,
    [seen] holds its paths, and each passed the check. *)
Definition scan_inv (os : os_state) (bases : list string) (acc : list string * list string)
  : Prop :=
  NoDup (fst acc) /\ (forall p, mem p (snd acc) = true <-> In p (fst acc))
  /\ Forall (mounted_child os bases) (fst acc).

(** The directory at [T] mirrors the source directory [es] for the entries
    named in [done], and holds nothing else. *)
Definition mirrored (T : list string) (es : list (string * node)) (done : list string)
           (f : node) : Prop :=
  stat f T = Some KDir
  /\ forall c q, stat f (T ++ c :: q) = if mem c done then stat (Dir es) (c :: q) else None.

(** No regular file is in the way of [makedirs] on the path [w]. *)
Definition creatable (f : node) (w : list string) : Prop :=
  forall q, is_prefix q w = true -> stat f q = None \/ stat f q = Some KDir.

(** The statement of the copy of one subtree to a place that does not
    exist: the run returns, prints nothing, and the place mirrors the
    subtree. *)
Definition fresh_run (src dst : string) (n0 n : node) : Prop :=
  forall top r es st,
    n = Dir es -> pending (comps src) n0 (top, r, es) -> src_fixed (comps src) n0 st ->
    creatable (fs st) (comps dst ++ r) -> stat (fs st) (comps dst ++ r) = None ->
    exists st',
      run_list (copy_dir src dst) (map yielded (walk_nodes top r n)) st = Done st'
      /\ stdout st' = stdout st
      /\ (forall q, stat (fs st') (comps dst ++ r ++ q) = stat n q)
      /\ changes_under (comps dst ++ r) (fs st) (fs st').

(** ** Trial runs *)

Module Trial.

Definition empty_tv : treeview := mkTreeview [] 0.

Definition appstate0 (f : node) : appstate := mkApp f empty_tv "Statut: prêt" [] [] "" None.

Definition usb : node :=
  Dir [("photo.jpg", File "P"); ("docs", Dir [("a.txt", File "A"); ("empty", Dir [])]);
       ("notes", File "N")].

(** A key mounted at [/media/usb] and an empty folder [/out]. *)
Definition disk0 : node :=
  Dir [("media", Dir [("usb", usb)]); ("out", Dir [])].

(** The key is selected, [/out] is the destination. *)
Definition st_usb : appstate :=
  mkApp disk0 empty_tv "Statut: prêt" [] [] "/media/usb" (Some "/out").

(** The state after the copy of the key to [/out]. *)
Definition st_usb_copied : appstate :=
  Eval vm_compute in
    match copy_path 5 (Some "/out") "/media/usb" st_usb with
    | Done s => s
    | Raised _ s => s
    | OutOfFuel s => s
    end.

(** The same file name in a source folder and in the destination. *)
Definition disk_collision : node :=
  Dir [("src", Dir [("photo.jpg", File "NEW")]); ("dst", Dir [("photo.jpg", File "OLD")])].

Definition st_collision : appstate := appstate0 disk_collision.

(** The state after the copy of the directory [/src] to [/dst]. *)
Definition st_collision_copied : appstate :=
  Eval vm_compute in
    match _copy_tree 3 "/src" "/dst" st_collision with
    | Done s => s
    | Raised _ s => s
    | OutOfFuel s => s
    end.

(** The destination cannot be created: [/out] is a regular file. *)
Definition disk_blocked : node :=
  Dir [("a.txt", File "A"); ("out", File "x")].

Definition st_blocked : appstate := appstate0 disk_blocked.

(** A Linux system where [/media] is a link to [/run/media] and a key is
    mounted at [/run/media/usb]. *)
Definition os_linked : os_state :=
  mkOs "linux" (Raise OtherOSError) (fun _ => Raise OtherOSError)
       (Ok "/home/user")
       (fun p => (p =? "/media") || (p =? "/run/media"))
       (fun p => if (p =? "/media") || (p =? "/run/media") then Ok ["usb"]
                 else Raise FileNotFoundError)
       (fun p => (p =? "/media/usb") || (p =? "/run/media/usb"))
       (fun p => if p =? "/media/usb" then "/run/media/usb" else p).

(** A Linux system where [/mnt] is a regular file. *)
Definition os_mnt_file : os_state :=
  mkOs "linux" (Raise OtherOSError) (fun _ => Raise OtherOSError)
       (Ok "/home/user")
       (fun p => p =? "/mnt")
       (fun p => if p =? "/mnt" then Raise NotADirectoryError else Raise FileNotFoundError)
       (fun _ => false)
       (fun p => p).

(** A Windows system with the drives C: (fixed) and E: (removable). *)
Definition os_windows : os_state :=
  mkOs "win32" (Ok 20)
       (fun p => if p =? drive_letter 4 then Ok 2 else Ok 3) (Ok "C:/Users/user")
       (fun _ => false) (fun _ => Raise FileNotFoundError) (fun _ => false) (fun p => p).

End Trial.

(** ** The other methods of [USBRecoveryAppAdvanced] *)

(** The state of the window: the application state and the list of the
    combo box of the drives ([self.drives_combo['values']]). *)
Record gui : Type := mkGui {
  core : appstate;
  combo_values : list string
}.

Definition with_drive_var (v : string) (a : appstate) : appstate :=
  mkApp (fs a) (tree a) (status_label a) (boxes a) (stdout a) v (destination a).

Definition with_destination (d : option string) (a : appstate) : appstate :=
  mkApp (fs a) (tree a) (status_label a) (boxes a) (stdout a) (drive_var a) d.

(** [refresh_drives]: an exception of the enumeration leaves the method
    after the first status line. *)
Definition refresh_drives (os : os_state) (g : gui) : outcome gui :=
  let a := set_status "Détection des lecteurs..." (core g) in
  match list_removable_drives os with
  | Raise e => Raised e (mkGui a (combo_values g))
  | Ok drives =>
      let a := match drives with
               | d0 :: _ => with_drive_var d0 a
               | [] => with_drive_var "" a
               end in
      let a := with_tree (tv_delete_all (tree a)) a in
      Done (mkGui (set_status "Prêt" a) drives)
  end.

(** [open_selected_drive], the worker thread run as a call. *)
Definition open_selected_drive (fuel : nat) (a : appstate) : outcome appstate :=
  let path := drive_var a in
  if path =? "" then
    Done (messagebox (ShowWarning "Aucun lecteur" "Aucun lecteur amovible sélectionné.") a)
  else _populate_tree fuel path a.

(** [choose_destination], [dst] being the answer of the directory dialog
    (the empty string when the dialog is cancelled). *)
Definition choose_destination (dst : string) (a : appstate) : appstate :=
  if dst =? "" then a
  else set_status ("Destination: " +++ dst) (with_destination (Some dst) a).

(** [__init__] on a machine with the file system [f]: the fields are set
    and the drives are enumerated once. *)
Definition init (os : os_state) (f : node) : outcome gui :=
  refresh_drives os (mkGui (mkApp f (mkTreeview [] 0) "Statut: prêt" [] [] "" None) []).

(** ** The window at work

    What the user does with the window of [__init__]: the buttons
    [Rafraîchir], [Ouvrir], [Choisir dossier destination] and [Copier tout],
    and a choice in the read-only combo box, whose variable is
    [self.drive_var].  An event carries what the outside gives to its
    callback: the answers of the operating system, the answer of the
    directory dialog, the index chosen in the combo box. *)
Inductive event : Type :=
| Rafraichir (os : os_state)
| Ouvrir
| SelectDrive (i : nat)
| ChoisirDestination (answer : string)
| CopierTout.

(** The state a call ends in. *)
Definition state_of {S : Type} (o : outcome S) : S :=
  match o with
  | Done s => s
  | Raised _ s => s
  | OutOfFuel s => s
  end.

(** One callback.  An exception that leaves a callback is reported by Tk
    and the window stays as the callback left it; a worker that has not
    finished when the fuel is used up is taken at the state it reached. *)
Definition handle (fuel : nat) (g : gui) (ev : event) : gui :=
  match ev with
  | Rafraichir os => state_of (refresh_drives os g)
  | Ouvrir => mkGui (state_of (open_selected_drive fuel (core g))) (combo_values g)
  | SelectDrive i =>
      match nth_error (combo_values g) i with
      | Some v => mkGui (with_drive_var v (core g)) (combo_values g)
      | None => g
      end
  | ChoisirDestination answer => mkGui (choose_destination answer (core g)) (combo_values g)
  | CopierTout => mkGui (state_of (copy_all fuel (core g))) (combo_values g)
  end.

(** [root.mainloop()] on the events [evs]. *)
Definition mainloop (fuel : nat) (evs : list event) (g : gui) : gui :=
  fold_left (handle fuel) evs g.

(** ** More vocabulary *)

(** The string is made of separators only. *)
Fixpoint all_seps (s : string) : bool :=
  match s with
  | EmptyString => true
  | String c r => is_sep c && all_seps r
  end.

(** The path passed the check of the platform of [os]. *)
Definition checked (os : os_state) (p : string) : Prop :=
  if startswith "win" (platform os) then removable_letter os p
  else mounted_child os (candidates os) p.

(** The state of the operating system at the last enumeration that
    returned, among those of the events [evs], [os0] being the one the
    window started with. *)
Definition last_listed (os0 : os_state) (evs : list event) : os_state :=
  fold_left (fun o ev =>
               match ev with
               | Rafraichir os =>
                   match list_removable_drives os with
                   | Ok _ => os
                   | Raise _ => o
                   end
               | _ => o
               end) evs os0.

(** What holds of the window between two callbacks, [os] being the state
    of the operating system at the last enumeration that returned: the
    destination is unset or not empty, the combo box holds the result of
    that enumeration, and the selection is empty or one of its paths. *)
Definition session_inv (os : os_state) (g : gui) : Prop :=
  destination (core g) <> Some ""
  /\ list_removable_drives os = Ok (combo_values g)
  /\ (drive_var (core g) = "" \/ In (drive_var (core g)) (combo_values g)).

(** The same, as a check of the tree [n] against the file system [f]. *)
Fixpoint collision_dirs_free (f : node) (T : list string) (n : node) : bool :=
  match n with
  | File _ => true
  | Dir es =>
      forallb (fun g => match stat f (T ++ [copy_name g]) with
                        | Some KDir => false
                        | _ => true
                        end) (filenames es)
      && forallb (fun e => collision_dirs_free f (T ++ [fst e]) (snd e)) es
  end.

(** The name [copy_file] writes under in the directory [T], where no
    directory has the collision name: the name of the file, or its
    collision name when the name is taken. *)
Definition landing (fs : node) (T : list string) (f : string) : string :=
  match stat fs (T ++ [f]) with
  | None => f
  | Some _ => copy_name f
  end.

(** What the copy of the tree [n] to [T] does to the file system, from [f]
    to [f'], for each file [g] of [n] with the data [d]: where the path of
    [g] under [T] was free, the data is there and the path with the
    collision name is as before; where it was taken, what was there is still
    there and the data is at the path with the collision name. *)
Definition landed (T : list string) (n f f' : node) : Prop :=
  forall r es g d, lookup n r = Some (Dir es) -> alist_find g es = Some (File d) ->
    (stat f (T ++ r ++ [g]) = None ->
     stat f' (T ++ r ++ [g]) = Some (KFile d)
     /\ stat f' (T ++ r ++ [copy_name g]) = stat f (T ++ r ++ [copy_name g]))
    /\ (stat f (T ++ r ++ [g]) <> None ->
        stat f' (T ++ r ++ [g]) = stat f (T ++ r ++ [g])
        /\ stat f' (T ++ r ++ [copy_name g]) = Some (KFile d)).

(** From [f] to [f'] nothing changes but at the places of the copy of the
    tree [n] to [T]: the directories of [n] and their ancestors, the files
    of [n] and their collision names. *)
Definition copies_only (T : list string) (n f f' : node) : Prop :=
  forall q, stat f' q <> stat f q ->
    exists r es, lookup n r = Some (Dir es)
      /\ (is_prefix q (T ++ r) = true
          \/ exists g, In g (filenames es)
                       /\ (q = T ++ r ++ [g] \/ q = T ++ r ++ [copy_name g])).

(** The path string holds a component [..]. *)
Definition has_dotdot (p : string) : bool := mem ".." (split_sep p).

(** No directory of the tree holds an entry named as the collision name of
    one of its files. *)
Definition no_collision_names (n : node) : Prop :=
  forall r es f, lookup n r = Some (Dir es) -> In f (filenames es) ->
                 alist_find (copy_name f) es = None.

(** The same, as a check of the tree. *)
Fixpoint collision_free (n : node) : bool :=
  match n with
  | File _ => true
  | Dir es =>
      forallb (fun g => negb (mem (copy_name g) (keys es))) (filenames es)
      && forallb (fun e => collision_free (snd e)) es
  end.

(** Under [T], no directory of [f] sits at the collision name of a file of
    the tree [n]. *)
Definition no_collision_dirs (T : list string) (n f : node) : Prop :=
  forall r es g, lookup n r = Some (Dir es) -> In g (filenames es) ->
                 stat f (T ++ r ++ [copy_name g]) <> Some KDir.

(** The drive letter of index [i] is present and removable. *)
Definition removable_index (os : os_state) (bitmask : nat) (i : nat) : bool :=
  Nat.testbit bitmask i
  && match GetDriveTypeW os (drive_letter i) with
     | Ok t => Nat.eqb t DRIVE_REMOVABLE
     | Raise _ => false
     end.

(** The labels [_populate_tree] inserts under the root item: at each
    directory of the walk the names of its directories, then of its files. *)
Definition walk_labels (top : string) (n : node) : list string :=
  flat_map (fun v => dirnames (snd v) ++ filenames (snd v)) (walk_nodes top [] n).

(** A tree view of two levels with the labels [labels] under [ri]. *)
Definition labelled_tree (ri : item) (labels : list string) (tv : treeview) : Prop :=
  exists kids, items tv = ri :: kids /\ map text kids = labels
               /\ Forall (fun it => parent it = iid ri /\ values it = []) kids.

(** From [f] to [f'] every path keeps its kind: a directory stays a
    directory and a regular file stays a regular file. *)
Definition keeps_kinds (f f' : node) : Prop :=
  forall q, (stat f q = Some KDir -> stat f' q = Some KDir)
            /\ (forall d, stat f q = Some (KFile d) -> exists d', stat f' q = Some (KFile d')).

(** Nothing but the tree view and the status line differs. *)
Definition same_disk (st0 st : appstate) : Prop :=
  fs st = fs st0 /\ stdout st = stdout st0 /\ boxes st = boxes st0
  /\ drive_var st = drive_var st0 /\ destination st = destination st0.

Module Trial2.

(** The whole file system is selected: the selection is the separator
    alone. *)
Definition st_root_selected : appstate :=
  mkApp Trial.disk0 Trial.empty_tv "Statut: prêt" [] [] "/" (Some "/out").

Definition gui0 : gui := mkGui (Trial.appstate0 Trial.disk0) ["stale"].

(** A Linux system with two keys, one of them under a base directory that
    cannot be listed. *)
Definition os_two_keys : os_state :=
  mkOs "linux" (Raise OtherOSError) (fun _ => Raise OtherOSError)
       (Ok "/home/user")
       (fun p => (p =? "/media") || (p =? "/mnt") || (p =? "/run/media"))
       (fun p => if p =? "/media" then Ok ["usb"; "notakey"]
                 else if p =? "/mnt" then Raise PermissionError
                 else if p =? "/run/media" then Ok ["key2"]
                 else Raise FileNotFoundError)
       (fun p => (p =? "/media/usb") || (p =? "/run/media/key2"))
       (fun p => p).

(** A file of the source whose name and whose collision name both exist
    in the destination, as files. *)
Definition disk_name_taken : node :=
  Dir [("src", Dir [("photo.jpg", File "NEW1"); ("photo_copy.jpg", File "NEW2")]);
       ("dst", Dir [("photo.jpg", File "OLD1"); ("photo_copy.jpg", File "OLD2")])].

(** The collision name is the name of a directory of the destination. *)
Definition disk_name_is_dir : node :=
  Dir [("src", Dir [("photo.jpg", File "NEW")]);
       ("dst", Dir [("photo.jpg", File "OLD"); ("photo_copy.jpg", Dir [])])].



(** A Linux system where the home directory cannot be determined. *)
Definition os_no_home : os_state :=
  mkOs "linux" (Raise OtherOSError) (fun _ => Raise OtherOSError)
       (Raise RuntimeError)
       (fun p => p =? "/media")
       (fun p => if p =? "/media" then Ok ["usb"] else Raise FileNotFoundError)
       (fun p => p =? "/media/usb")
       (fun p => p).

End Trial2.

(** * Properties *)

(** ** Path arithmetic on examples *)

Example split_sep_ex : split_sep "/media/usb//a" = [""; "media"; "usb"; ""; "a"].
Proof. reflexivity. Qed.
Example comps_ex : comps "/media/./usb/../key/" = ["media"; "key"].
Proof. reflexivity. Qed.
Example join_ex : join "/dst" "photo.jpg" = "/dst/photo.jpg" /\ join "/dst/" "a" = "/dst/a"
                  /\ join "/dst" "/abs" = "/abs".
Proof. repeat split. Qed.
Example splitext_ex :
  splitext "/d.x/photo.jpg" = ("/d.x/photo", ".jpg")
  /\ splitext "/d.x/.bashrc" = ("/d.x/.bashrc", "")
  /\ splitext "/d.x/a.tar.gz" = ("/d.x/a.tar", ".gz")
  /\ splitext "/d.x/noext" = ("/d.x/noext", "")
  /\ splitext "..a.b" = ("..a", ".b").
Proof. repeat split. Qed.
Example relpath_ex :
  relpath "/media/usb/a/b" "/media/usb" = "a/b" /\ relpath "/media/usb" "/media/usb/" = "."
  /\ relpath "/media" "/media/usb" = "..".
Proof. repeat split. Qed.
Example basename_ex :
  basename "/media/usb" = "usb" /\ basename "/media/usb/" = "" /\ basename (rstrip_sep "/media/usb//") = "usb"
  /\ rstrip_sep "/" = "".
Proof. repeat split. Qed.


(** ** Strings *)

Lemma append_nil_r s : s +++ "" = s.
Proof. induction s; simpl; congruence. Qed.

Lemma append_assoc a b c : (a +++ b) +++ c = a +++ b +++ c.
Proof. induction a; simpl; congruence. Qed.

Lemma length_append a b : String.length (a +++ b) = String.length a + String.length b.
Proof. induction a; simpl; congruence. Qed.

Lemma has_sep_append a b : has_sep (a +++ b) = has_sep a || has_sep b.
Proof. induction a; simpl; [reflexivity|]. rewrite IHa. apply orb_assoc. Qed.

Lemma append_sep_nonempty a b : (a +++ String "/" b =? "") = false.
Proof. destruct a; reflexivity. Qed.

Lemma valid_name_inv n :
  valid_name n = true ->
  (n =? "") = false /\ (n =? ".") = false /\ (n =? "..") = false /\ has_sep n = false.
Proof.
  unfold valid_name. rewrite !andb_true_iff, !negb_true_iff. tauto.
Qed.

Lemma nosep_starts s : has_sep s = false -> starts_with_sep s = false.
Proof. destruct s; simpl; [reflexivity|]. now intros [H _]%orb_false_iff. Qed.

(** ** [split] and [normpath] *)

Lemma split_sep_nonnil s : split_sep s <> [].
Proof.
  destruct s as [|c s]; simpl; [discriminate|].
  destruct (is_sep c); [discriminate|]. destruct (split_sep s); discriminate.
Qed.

Lemma split_sep_app a b : split_sep (a +++ String "/" b) = split_sep a ++ split_sep b.
Proof.
  induction a as [|c a IH]; simpl; [reflexivity|].
  rewrite IH. destruct (is_sep c); [reflexivity|].
  destruct (split_sep a) eqn:E; [now apply split_sep_nonnil in E|reflexivity].
Qed.

Lemma split_sep_nosep n : has_sep n = false -> split_sep n = [n].
Proof.
  induction n as [|c n IH]; simpl; [reflexivity|].
  intros [H1 H2]%orb_false_iff. now rewrite H1, (IH H2).
Qed.

Lemma split_sep_all_nosep s : Forall (fun c => has_sep c = false) (split_sep s).
Proof.
  induction s as [|c s IH]; simpl; [now constructor|].
  destruct (is_sep c) eqn:E; [now constructor|].
  destruct (split_sep s) as [|w ws]; [constructor; [simpl; now rewrite E|constructor]|].
  inversion IH; subst. constructor; [simpl; now rewrite E|assumption].
Qed.

Lemma ends_with_sep_inv a : ends_with_sep a = true -> exists a', a = a' +++ "/".
Proof.
  induction a as [|c a IH]; simpl; [discriminate|].
  destruct a as [|c' a].
  - intros H. apply Ascii.eqb_eq in H. subst c. now exists "".
  - intros H. destruct (IH H) as [a' Ha]. exists (String c a'). simpl. now rewrite <- Ha.
Qed.

Lemma split_sep_concat r :
  Forall (fun c => has_sep c = false) r -> r <> [] -> split_sep (String.concat "/" r) = r.
Proof.
  induction r as [|x r IH]; [congruence|]. intros H _. inversion H; subst.
  destruct r as [|y r]; [now apply split_sep_nosep|].
  change (String.concat "/" (x :: y :: r)) with (x +++ String "/" (String.concat "/" (y :: r))).
  rewrite split_sep_app, split_sep_nosep by assumption.
  rewrite IH by (assumption || discriminate). reflexivity.
Qed.

Lemma norm_valid r acc :
  Forall (fun c => valid_name c = true) r -> fold_left norm_step r acc = rev r ++ acc.
Proof.
  revert acc. induction r as [|x r IH]; intros acc H; [reflexivity|].
  inversion H as [|? ? Hx Hr]; subst. simpl.
  destruct (valid_name_inv _ Hx) as (E1 & E2 & E3 & _).
  unfold norm_step at 2. rewrite E1, E2, E3. simpl.
  rewrite IH by assumption. now rewrite <- app_assoc.
Qed.

Lemma comps_app_valid l r :
  Forall (fun c => valid_name c = true) r ->
  rev (fold_left norm_step (l ++ r) []) = rev (fold_left norm_step l []) ++ r.
Proof.
  intros H. rewrite fold_left_app, norm_valid by assumption.
  now rewrite rev_app_distr, rev_involutive.
Qed.

Lemma norm_snoc_empty l acc :
  fold_left norm_step (l ++ [""]) acc = fold_left norm_step l acc.
Proof. now rewrite fold_left_app. Qed.

Lemma norm_keeps_valid l acc :
  Forall (fun c => has_sep c = false) l ->
  Forall (fun c => valid_name c = true) acc ->
  Forall (fun c => valid_name c = true) (fold_left norm_step l acc).
Proof.
  revert acc. induction l as [|x l IH]; intros acc Hl Hacc; [assumption|].
  inversion Hl; subst. simpl. apply IH; [assumption|].
  unfold norm_step.
  destruct (x =? "") eqn:E1; [assumption|].
  destruct (x =? ".") eqn:E2; [assumption|]. simpl.
  destruct (x =? "..") eqn:E3.
  - destruct acc; [constructor|]. now inversion Hacc.
  - constructor; [|assumption]. unfold valid_name. now rewrite E1, E2, E3, H1.
Qed.

(** The components of a path are names of directory entries. *)
Lemma comps_valid p : Forall (fun c => valid_name c = true) (comps p).
Proof.
  unfold comps. apply Forall_rev. apply norm_keeps_valid; [apply split_sep_all_nosep|constructor].
Qed.

Lemma concat_starts r :
  Forall (fun c => valid_name c = true) r -> r <> [] ->
  starts_with_sep (String.concat "/" r) = false /\ (String.concat "/" r =? "") = false.
Proof.
  destruct r as [|x r]; [congruence|]. intros H _. inversion H as [|? ? Hx Hr]; subst.
  destruct (valid_name_inv _ Hx) as (E1 & _ & _ & E4).
  destruct x as [|c x]; [discriminate|]. simpl in E4. apply orb_false_iff in E4 as [E4 _].
  destruct r; simpl; now rewrite ?E4.
Qed.

Lemma valid_nosep r :
  Forall (fun c => valid_name c = true) r -> Forall (fun c => has_sep c = false) r.
Proof. apply Forall_impl. intros c Hc. now destruct (valid_name_inv _ Hc) as (_ & _ & _ & ?). Qed.

(** Joining a relative path made of entry names appends these names. *)
Lemma comps_join_rel a r :
  Forall (fun c => valid_name c = true) r -> r <> [] ->
  comps (join a (String.concat "/" r)) = comps a ++ r.
Proof.
  intros Hr Hne. destruct (concat_starts r Hr Hne) as [Hs _].
  pose proof (split_sep_concat r (valid_nosep r Hr) Hne) as Hsplit.
  unfold join. rewrite Hs.
  destruct (a =? "") eqn:Ea.
  - apply String.eqb_eq in Ea. subst a. change (comps "") with (@nil string).
    cbn [orb String.append List.app]. unfold comps. rewrite Hsplit, norm_valid by assumption.
    now rewrite app_nil_r, rev_involutive.
  - simpl. destruct (ends_with_sep a) eqn:Ee.
    + destruct (ends_with_sep_inv a Ee) as [a' ->]. rewrite append_assoc. simpl.
      unfold comps. rewrite !split_sep_app, Hsplit. simpl split_sep.
      rewrite comps_app_valid by assumption. now rewrite norm_snoc_empty.
    + simpl. unfold comps. rewrite split_sep_app, Hsplit. now apply comps_app_valid.
Qed.

Lemma comps_join a n : valid_name n = true -> comps (join a n) = comps a ++ [n].
Proof.
  intros Hn. apply (comps_join_rel a [n]); [now repeat constructor|discriminate].
Qed.

Lemma join_nonempty a b : (b =? "") = false -> (join a b =? "") = false.
Proof.
  intros Hb. unfold join. destruct (starts_with_sep b); [assumption|].
  destruct b as [|c b]; [discriminate|].
  destruct ((a =? "") || ends_with_sep a); destruct a; reflexivity.
Qed.

(** ** [relpath] below its start *)

Lemma strip_common_prefix s r : strip_common s (s ++ r) = ([], r).
Proof.
  induction s as [|x s IH]; simpl; [now destruct r|]. now rewrite String.eqb_refl.
Qed.

Lemma concat_not_curdir r :
  Forall (fun c => valid_name c = true) r -> r <> [] -> (String.concat "/" r =? ".") = false.
Proof.
  intros Hr Hne. apply String.eqb_neq. intros E.
  pose proof (split_sep_concat r (valid_nosep r Hr) Hne) as Hs. rewrite E in Hs.
  simpl in Hs. subst r. inversion Hr; subst. discriminate.
Qed.

Lemma relpath_under root src r :
  comps root = comps src ++ r -> Forall (fun c => valid_name c = true) r ->
  relpath root src = match r with [] => "." | _ :: _ => String.concat "/" r end.
Proof.
  intros E Hr. unfold relpath. rewrite E, strip_common_prefix. simpl. now destruct r.
Qed.

(** The directory [_copy_tree] creates for the directory [root] of the walk. *)
Lemma target_root_comps root src dst r :
  comps root = comps src ++ r -> Forall (fun c => valid_name c = true) r ->
  (dst =? "") = false ->
  let rel := relpath root src in
  let target_root := if negb (rel =? ".") then join dst rel else dst in
  comps target_root = comps dst ++ r /\ (target_root =? "") = false.
Proof.
  intros E Hr Hd. simpl. rewrite (relpath_under root src r E Hr).
  destruct r as [|x r].
  - simpl. now rewrite app_nil_r.
  - rewrite concat_not_curdir by (assumption || discriminate). simpl negb. cbv iota.
    split; [apply comps_join_rel; [assumption|discriminate]|].
    apply join_nonempty. now apply concat_starts.
Qed.

(** ** [splitext] and the collision name *)

Lemma rsplit_sep_nosep f : has_sep f = false -> rsplit_sep f = ("", f).
Proof.
  induction f as [|c f IH]; simpl; [reflexivity|].
  intros [H1 H2]%orb_false_iff. now rewrite (IH H2), H1.
Qed.

Lemma rsplit_sep_app a f :
  has_sep f = false -> rsplit_sep (a +++ String "/" f) = (a +++ "/", f).
Proof.
  intros Hf. induction a as [|c a IH]; simpl.
  - now rewrite (rsplit_sep_nosep f Hf).
  - rewrite IH. destruct (is_sep c); [reflexivity|].
    now destruct a.
Qed.

(** [join a f] puts a prefix that depends on [a] only before a name [f]. *)
Lemma join_shape a :
  exists pre, forall f, has_sep f = false ->
    join a f = pre +++ f /\ rsplit_sep (pre +++ f) = (pre, f).
Proof.
  destruct (a =? "") eqn:Ea.
  - exists "". intros f Hf. unfold join. rewrite (nosep_starts f Hf), Ea. simpl.
    apply String.eqb_eq in Ea. subst a. split; [reflexivity|now apply rsplit_sep_nosep].
  - destruct (ends_with_sep a) eqn:Ee.
    + exists a. intros f Hf. unfold join. rewrite (nosep_starts f Hf), Ea, Ee. simpl.
      split; [reflexivity|]. destruct (ends_with_sep_inv a Ee) as [a' ->].
      rewrite append_assoc. simpl. now apply rsplit_sep_app.
    + exists (a +++ "/"). intros f Hf. unfold join. rewrite (nosep_starts f Hf), Ea, Ee. simpl.
      rewrite append_assoc. simpl. split; [reflexivity|now apply rsplit_sep_app].
Qed.

Lemma rsplit_dot_app t : fst (rsplit_dot t) +++ snd (rsplit_dot t) = t.
Proof.
  induction t as [|c t IH]; simpl; [reflexivity|].
  destruct (has_dot t).
  - destruct (rsplit_dot t); simpl in *. now rewrite IH.
  - destruct (is_dot c); simpl; [reflexivity|]. now rewrite append_nil_r.
Qed.

Lemma splitext_name_app t : fst (splitext_name t) +++ snd (splitext_name t) = t.
Proof.
  induction t as [|c t IH]; [reflexivity|].
  cbn [splitext_name]. destruct (is_dot c).
  - destruct (splitext_name t); simpl in *. now rewrite IH.
  - apply rsplit_dot_app.
Qed.

Lemma copy_name_length f : String.length (copy_name f) = String.length f + 5.
Proof.
  unfold copy_name. pose proof (splitext_name_app f) as E.
  destruct (splitext_name f) as [b e]; simpl in E. subst f.
  rewrite !length_append. simpl. lia.
Qed.

Lemma copy_name_neq f : copy_name f <> f.
Proof. intros E. pose proof (copy_name_length f) as H. rewrite E in H. lia. Qed.

Lemma copy_name_valid f : valid_name f = true -> valid_name (copy_name f) = true.
Proof.
  intros Hf. destruct (valid_name_inv _ Hf) as (_ & _ & _ & Hs).
  pose proof (copy_name_length f) as L.
  assert (Hsep : has_sep (copy_name f) = false).
  { unfold copy_name. pose proof (splitext_name_app f) as E.
    destruct (splitext_name f) as [b e]; simpl in E. subst f.
    rewrite has_sep_append in Hs. apply orb_false_iff in Hs as [Hb He].
    rewrite !has_sep_append, Hb, He. reflexivity. }
  unfold valid_name. rewrite Hsep.
  assert (N : forall s, String.length s < 5 -> (copy_name f =? s) = false).
  { intros s Hl. apply String.eqb_neq. intros E. rewrite E in L. lia. }
  rewrite !N by (simpl; lia). reflexivity.
Qed.

(** What [_copy_tree] computes on a collision is the join of the target
    directory with the collision name. *)
Lemma collision_path target_root f :
  valid_name f = true ->
  (let (base, ext) := splitext (join target_root f) in base +++ "_copy" +++ ext)
  = join target_root (copy_name f).
Proof.
  intros Hf. destruct (valid_name_inv _ Hf) as (_ & _ & _ & Hs).
  destruct (join_shape target_root) as [pre Hpre].
  destruct (Hpre f Hs) as [E1 E2].
  pose proof (copy_name_valid f Hf) as Hc.
  destruct (valid_name_inv _ Hc) as (_ & _ & _ & Hcs).
  destruct (Hpre _ Hcs) as [E3 _].
  unfold splitext. rewrite E1, E2, E3. unfold copy_name.
  destruct (splitext_name f) as [b e]. now rewrite append_assoc.
Qed.

(** ** Directory entries *)

Lemma find_set_same k v es : alist_find k (alist_set k v es) = Some v.
Proof.
  induction es as [|[k' v'] es IH]; simpl; [now rewrite String.eqb_refl|].
  destruct (k =? k') eqn:E; simpl; [now rewrite String.eqb_refl|now rewrite E].
Qed.

Lemma find_set_other k k' v es :
  (k' =? k) = false -> alist_find k' (alist_set k v es) = alist_find k' es.
Proof.
  intros H. induction es as [|[k2 v2] es IH]; simpl; [now rewrite H|].
  destruct (k =? k2) eqn:E; simpl.
  - apply String.eqb_eq in E. subst k2. now rewrite H.
  - now destruct (k' =? k2).
Qed.


Lemma mem_keys_set_other x c v es :
  (x =? c) = false -> mem x (keys (alist_set c v es)) = mem x (keys es).
Proof.
  intros H. induction es as [|[k' v'] es IH]; simpl; [now rewrite H|].
  destruct (c =? k') eqn:E; simpl.
  - apply String.eqb_eq in E. now subst k'.
  - now rewrite IH.
Qed.

Lemma find_mem_keys k es : mem k (keys es) = match alist_find k es with Some _ => true | None => false end.
Proof.
  induction es as [|[k' v'] es IH]; simpl; [reflexivity|]. now destruct (k =? k').
Qed.

(** ** Ancestors *)

Lemma is_prefix_app a x : is_prefix a (a ++ x) = true.
Proof. induction a; simpl; [reflexivity|]. now rewrite String.eqb_refl. Qed.

Lemma is_prefix_refl a : is_prefix a a = true.
Proof. rewrite <- (app_nil_r a) at 2. apply is_prefix_app. Qed.

Lemma is_prefix_inv a b : is_prefix a b = true -> exists x, b = a ++ x.
Proof.
  revert b. induction a as [|c a IH]; intros b H; [now exists b|].
  destruct b as [|c' b]; [discriminate|]. simpl in H.
  apply andb_true_iff in H as [E H]. apply String.eqb_eq in E. subst c'.
  destruct (IH b H) as [x ->]. now exists x.
Qed.

Lemma is_prefix_trans a b c : is_prefix a b = true -> is_prefix b c = true -> is_prefix a c = true.
Proof.
  intros [x ->]%is_prefix_inv [y ->]%is_prefix_inv. rewrite <- app_assoc. apply is_prefix_app.
Qed.

Lemma is_prefix_app_cancel a x y : is_prefix (a ++ x) (a ++ y) = is_prefix x y.
Proof. induction a; simpl; [reflexivity|]. now rewrite String.eqb_refl. Qed.

(** Two ancestors of one path are comparable. *)
Lemma is_prefix_linear a b c :
  is_prefix a c = true -> is_prefix b c = true -> is_prefix a b = true \/ is_prefix b a = true.
Proof.
  revert b c. induction a as [|x a IH]; intros b c Ha Hb; [now left|].
  destruct b as [|y b]; [now right|]. destruct c as [|z c]; [discriminate|].
  simpl in *. apply andb_true_iff in Ha as [E1 Ha]. apply andb_true_iff in Hb as [E2 Hb].
  apply String.eqb_eq in E1, E2. subst. rewrite String.eqb_refl. simpl. eauto.
Qed.

Lemma disjoint_below s t x : disjoint s t = true -> is_prefix s (t ++ x) = false.
Proof.
  unfold disjoint. rewrite andb_true_iff, !negb_true_iff. intros [H1 H2].
  destruct (is_prefix s (t ++ x)) eqn:E; [|reflexivity].
  destruct (is_prefix_linear s t (t ++ x) E (is_prefix_app t x)); congruence.
Qed.

Lemma disjoint_below_both s t x y : disjoint s t = true -> is_prefix (s ++ y) (t ++ x) = false.
Proof.
  intros H. destruct (is_prefix (s ++ y) (t ++ x)) eqn:E; [|reflexivity].
  rewrite <- (disjoint_below s t x H). symmetry.
  eapply is_prefix_trans; [apply is_prefix_app|exact E].
Qed.

(** ** [makedirs] and the write of a file, node by node *)

Lemma lookup_empty_dir q : q <> [] -> lookup (Dir []) q = None.
Proof. now destruct q. Qed.

Lemma lookup_app n p q :
  lookup n (p ++ q) = match lookup n p with Some m => lookup m q | None => None end.
Proof.
  revert n. induction p as [|c p IH]; intros n; simpl; [reflexivity|].
  destruct n as [|es]; [reflexivity|]. destruct (alist_find c es); [apply IH|reflexivity].
Qed.

(** [makedirs] leaves every node that is not an ancestor of the path. *)
Lemma makedirs_at_frame w : forall n n' q,
  makedirs_at n w = Ok n' -> is_prefix q w = false -> lookup n' q = lookup n q.
Proof.
  induction w as [|c w IH]; intros n n' q H Hq.
  - simpl in H. destruct n; [discriminate|]. now injection H as <-.
  - destruct n as [|es]; [discriminate|]. destruct q as [|c' q]; [discriminate|].
    simpl in H, Hq. simpl.
    destruct (c' =? c) eqn:E.
    + apply String.eqb_eq in E. subst c'. simpl in Hq.
      destruct (alist_find c es) as [ch|] eqn:F; unfold bind in H;
        destruct (makedirs_at _ w) as [ch'|] eqn:M; try discriminate; injection H as <-;
        simpl; rewrite find_set_same, ?F.
      * eapply IH; eauto.
      * rewrite (IH _ _ q M Hq). apply lookup_empty_dir. now destruct q.
    + destruct (alist_find c es) as [ch|] eqn:F; unfold bind in H;
        destruct (makedirs_at _ w) as [ch'|] eqn:M; try discriminate; injection H as <-;
        simpl; now rewrite find_set_other.
Qed.

(** After [makedirs], the path and its ancestors are directories. *)
Lemma makedirs_at_dirs w : forall n n' q,
  makedirs_at n w = Ok n' -> is_prefix q w = true -> stat n' q = Some KDir.
Proof.
  induction w as [|c w IH]; intros n n' q H Hq.
  - simpl in H. destruct n; [discriminate|]. injection H as <-. now destruct q.
  - destruct n as [|es]; [discriminate|]. simpl in H.
    assert (exists ch', n' = Dir (alist_set c ch' es)
                        /\ exists ch, makedirs_at ch w = Ok ch') as (ch' & -> & ch & M).
    { destruct (alist_find c es); unfold bind in H;
        destruct (makedirs_at _ w) eqn:M; try discriminate; injection H as <-; eauto. }
    destruct q as [|c' q]; [reflexivity|]. simpl in Hq.
    apply andb_true_iff in Hq as [E Hq]. apply String.eqb_eq in E. subst c'.
    unfold stat. simpl. rewrite find_set_same. exact (IH _ _ q M Hq).
Qed.

(** [makedirs] succeeds only where no ancestor is a regular file. *)
Lemma makedirs_at_pre w : forall n n' q,
  makedirs_at n w = Ok n' -> is_prefix q w = true -> stat n q = None \/ stat n q = Some KDir.
Proof.
  induction w as [|c w IH]; intros n n' q H Hq.
  - simpl in H. destruct n; [discriminate|]. destruct q; [now right|discriminate].
  - destruct n as [|es]; [discriminate|]. simpl in H.
    destruct q as [|c' q]; [now right|]. simpl in Hq.
    apply andb_true_iff in Hq as [E Hq]. apply String.eqb_eq in E. subst c'.
    unfold stat. simpl.
    destruct (alist_find c es) as [ch|] eqn:F; [|now left].
    unfold bind in H. destruct (makedirs_at ch w) as [ch'|] eqn:M; [|discriminate].
    exact (IH _ _ q M Hq).
Qed.


(** A write leaves every node that is not an ancestor of the path. *)
Lemma write_at_frame w : forall n n' d q,
  write_at n w d = Ok n' -> is_prefix q w = false -> lookup n' q = lookup n q.
Proof.
  induction w as [|c w IH]; intros n n' d q H Hq.
  - destruct q; [discriminate|]. simpl in H. destruct n; [|discriminate].
    now injection H as <-.
  - destruct n as [|es]; [discriminate|]. destruct q as [|c' q]; [discriminate|].
    simpl in H, Hq. simpl.
    destruct (c' =? c) eqn:E.
    + apply String.eqb_eq in E. subst c'. simpl in Hq.
      destruct (alist_find c es) as [ch|] eqn:F.
      * unfold bind in H. destruct (write_at ch w d) as [ch'|] eqn:M; [|discriminate].
        injection H as <-. simpl. rewrite find_set_same. eapply IH; eauto.
      * destruct w; [|discriminate]. injection H as <-. simpl. rewrite find_set_same.
        destruct q; [discriminate|reflexivity].
    + destruct (alist_find c es) as [ch|] eqn:F.
      * unfold bind in H. destruct (write_at ch w d) as [ch'|] eqn:M; [|discriminate].
        injection H as <-. simpl. now rewrite find_set_other.
      * destruct w; [|discriminate]. injection H as <-. simpl. now rewrite find_set_other.
Qed.

(** After a write, the path is a file with the written data. *)
Lemma write_at_same w : forall n n' d, write_at n w d = Ok n' -> lookup n' w = Some (File d).
Proof.
  induction w as [|c w IH]; intros n n' d H.
  - simpl in H. destruct n; [|discriminate]. now injection H as <-.
  - destruct n as [|es]; [discriminate|]. simpl in H.
    destruct (alist_find c es) as [ch|] eqn:F.
    + unfold bind in H. destruct (write_at ch w d) as [ch'|] eqn:M; [|discriminate].
      injection H as <-. simpl. rewrite find_set_same. eauto.
    + destruct w; [|discriminate]. injection H as <-. simpl. now rewrite find_set_same.
Qed.

(** A write changes the kind of no other node. *)
Lemma write_at_stat w : forall n n' d q,
  write_at n w d = Ok n' -> q <> w -> stat n' q = stat n q.
Proof.
  induction w as [|c w IH]; intros n n' d q H Hq.
  - simpl in H. destruct n; [|discriminate]. injection H as <-.
    destruct q; [congruence|reflexivity].
  - destruct n as [|es]; [discriminate|]. simpl in H.
    destruct q as [|c' q].
    + destruct (alist_find c es); [unfold bind in H; destruct (write_at _ w d); [|discriminate]|
                                    destruct w; [|discriminate]]; now injection H as <-.
    + unfold stat. simpl. destruct (c' =? c) eqn:E.
      * apply String.eqb_eq in E. subst c'. assert (q <> w) by congruence.
        destruct (alist_find c es) as [ch|] eqn:F.
        -- unfold bind in H. destruct (write_at ch w d) as [ch'|] eqn:M; [|discriminate].
           injection H as <-. simpl. rewrite find_set_same. eapply IH; eauto.
        -- destruct w; [|discriminate]. injection H as <-. simpl. rewrite find_set_same.
           destruct q; [congruence|reflexivity].
      * destruct (alist_find c es) as [ch|] eqn:F.
        -- unfold bind in H. destruct (write_at ch w d) as [ch'|] eqn:M; [|discriminate].
           injection H as <-. simpl. now rewrite find_set_other.
        -- destruct w; [|discriminate]. injection H as <-. simpl. now rewrite find_set_other.
Qed.

(** A write succeeds only where the path is not a directory. *)
Lemma write_at_pre w : forall n n' d, write_at n w d = Ok n' -> stat n w <> Some KDir.
Proof.
  induction w as [|c w IH]; intros n n' d H.
  - simpl in H. now destruct n.
  - destruct n as [|es]; [discriminate|]. simpl in H. unfold stat. simpl.
    destruct (alist_find c es) as [ch|] eqn:F; [|discriminate].
    unfold bind in H. destruct (write_at ch w d) as [ch'|] eqn:M; [|discriminate].
    eapply IH; eauto.
Qed.

(** A write succeeds where the parent is a directory and the path is not. *)
Lemma write_at_ok p : forall n c d,
  stat n p = Some KDir -> stat n (p ++ [c]) <> Some KDir ->
  exists n', write_at n (p ++ [c]) d = Ok n'.
Proof.
  induction p as [|c0 p IH]; intros n c d Hp Hc.
  - destruct n as [|es]; [discriminate|]. unfold stat in Hc. simpl in *.
    destruct (alist_find c es) as [[d0|es0]|]; simpl in *; eauto. congruence.
  - destruct n as [|es]; [discriminate|]. unfold stat in *. simpl in *.
    destruct (alist_find c0 es) as [ch|]; [|discriminate].
    destruct (IH ch c d Hp Hc) as [ch' ->]. simpl. eauto.
Qed.

Lemma stat_parent n p c : stat n (p ++ [c]) <> None -> stat n p = Some KDir.
Proof.
  unfold stat. rewrite lookup_app. destruct (lookup n p) as [[d|es]|]; simpl; congruence.
Qed.

(** ** The file-system calls on path strings *)

Lemma same_comps_true a b : same_comps a b = true <-> a = b.
Proof. unfold same_comps. destruct (list_eq_dec string_dec a b); split; congruence. Qed.

Lemma same_comps_false a b : a <> b -> same_comps a b = false.
Proof. unfold same_comps. now destruct (list_eq_dec string_dec a b). Qed.

Lemma resolve_nonempty fs p : (p =? "") = false -> resolve fs p = lookup fs (comps p).
Proof. unfold resolve. now intros ->. Qed.

Lemma resolve_some_nonempty fs p n : resolve fs p = Some n -> (p =? "") = false.
Proof. unfold resolve. now destruct (p =? ""). Qed.

Lemma resolve_join fs a f :
  valid_name f = true -> resolve fs (join a f) = lookup fs (comps a ++ [f]).
Proof.
  intros Hf. destruct (valid_name_inv _ Hf) as (E & _).
  rewrite resolve_nonempty by now apply join_nonempty. now rewrite comps_join.
Qed.

Lemma isdir_stat fs p :
  isdir fs p = true <-> (p =? "") = false /\ stat fs (comps p) = Some KDir.
Proof.
  unfold isdir, resolve, stat. destruct (p =? ""); [intuition discriminate|].
  destruct (lookup fs (comps p)) as [[|]|]; simpl; intuition discriminate.
Qed.

Lemma isdir_false_stat fs p :
  isdir fs p = false -> (p =? "") = false -> stat fs (comps p) <> Some KDir.
Proof.
  intros H E S. assert (isdir fs p = true) by now apply isdir_stat. congruence.
Qed.

Lemma exists_stat fs p :
  exists_ fs p = true <-> (p =? "") = false /\ stat fs (comps p) <> None.
Proof.
  unfold exists_, resolve, stat. destruct (p =? ""); [intuition discriminate|].
  destruct (lookup fs (comps p)); simpl; intuition congruence.
Qed.

Lemma snoc_neq (a b : list string) x y : x <> y -> a ++ [x] <> b ++ [y].
Proof. intros H E. apply app_inj_tail in E. tauto. Qed.

Lemma is_prefix_snoc_neq a x y : x <> y -> is_prefix (a ++ [x]) (a ++ [y]) = false.
Proof.
  intros H. rewrite is_prefix_app_cancel. simpl.
  apply String.eqb_neq in H. now rewrite H.
Qed.

(** ** Well-formed trees *)

Lemma node_induction (P : node -> Prop) :
  (forall d, P (File d)) ->
  (forall es, Forall (fun e => P (snd e)) es -> P (Dir es)) ->
  forall n, P n.
Proof.
  intros HF HD. fix IH 1. intros [d|es]; [apply HF|]. apply HD.
  induction es as [|[k v] es IHes]; constructor; [apply IH|apply IHes].
Qed.

Lemma wf_dir_inv es :
  wf_node (Dir es) = true ->
  forallb valid_name (keys es) = true /\ nodupb (keys es) = true
  /\ forallb (fun e => wf_node (snd e)) es = true.
Proof. simpl. rewrite !andb_true_iff. tauto. Qed.

Lemma find_in k v es : alist_find k es = Some v -> In (k, v) es.
Proof.
  induction es as [|[k' v'] es IH]; simpl; [discriminate|].
  destruct (k =? k') eqn:E; [|now right; apply IH].
  apply String.eqb_eq in E. subst k'. intros [= ->]. now left.
Qed.

Lemma mem_in x l : mem x l = true <-> In x l.
Proof.
  unfold mem. rewrite existsb_exists. split.
  - intros (y & Hy & E). apply String.eqb_eq in E. now subst y.
  - intros H. exists x. split; [assumption|apply String.eqb_refl].
Qed.

Lemma in_find_nodup k v es : nodupb (keys es) = true -> In (k, v) es -> alist_find k es = Some v.
Proof.
  induction es as [|[k' v'] es IH]; simpl; [tauto|].
  intros [Hm Hn]%andb_true_iff [E|Hin].
  - injection E as -> ->. now rewrite String.eqb_refl.
  - destruct (k =? k') eqn:E; [|now apply IH].
    apply String.eqb_eq in E. subst k'. apply negb_true_iff in Hm.
    assert (mem k (keys es) = true) by (apply mem_in; apply (in_map fst _ _ Hin)).
    congruence.
Qed.

Lemma wf_entry es k v :
  wf_node (Dir es) = true -> In (k, v) es -> valid_name k = true /\ wf_node v = true.
Proof.
  intros (Hv & _ & Hw)%wf_dir_inv Hin. rewrite forallb_forall in Hv, Hw. split.
  - apply Hv. apply (in_map fst _ _ Hin).
  - apply (Hw _ Hin).
Qed.

Lemma wf_lookup q : forall n m, wf_node n = true -> lookup n q = Some m -> wf_node m = true.
Proof.
  induction q as [|c q IH]; intros n m Hn H; simpl in H; [now injection H as <-|].
  destruct n as [|es]; [discriminate|].
  destruct (alist_find c es) as [ch|] eqn:F; [|discriminate].
  apply (IH ch); [|assumption]. apply find_in in F. now apply (wf_entry es c ch).
Qed.

Lemma in_dirnames name es : In name (dirnames es) <-> exists es', In (name, Dir es') es.
Proof.
  unfold dirnames. rewrite in_map_iff. split.
  - intros ([k [d|es']] & E & H%filter_In); simpl in *; subst; destruct H as [H1 H2];
      [discriminate|eauto].
  - intros [es' H]. exists (name, Dir es'). split; [reflexivity|].
    apply filter_In. now split.
Qed.

Lemma in_filenames name es : In name (filenames es) <-> exists d, In (name, File d) es.
Proof.
  unfold filenames. rewrite in_map_iff. split.
  - intros ([k [d|es']] & E & H%filter_In); simpl in *; subst; destruct H as [H1 H2];
      [eauto|discriminate].
  - intros [d H]. exists (name, File d). split; [reflexivity|].
    apply filter_In. now split.
Qed.

(** ** [os.walk] on a tree that the body leaves alone *)

Lemma list_sum_cons a l : list_sum (a :: l) = a + list_sum l.
Proof. reflexivity. Qed.

Lemma kids_tops top r es : map (fun v => fst (fst v)) (kids top r es) = map (join top) (dirnames es).
Proof.
  unfold kids, dirnames. induction es as [|[k [d|es']] es IH]; simpl; [reflexivity|assumption|].
  now rewrite IH.
Qed.

Lemma kids_visit top r es :
  flat_map visit (kids top r es)
  = flat_map (fun e => if is_dir_entry e
                       then walk_nodes (join top (fst e)) (r ++ [fst e]) (snd e)
                       else []) es.
Proof.
  unfold kids. induction es as [|[k [d|es']] es IH]; simpl; [reflexivity|assumption|].
  unfold is_dir_entry at 1. simpl snd. cbv iota. rewrite <- IH.
  unfold visit at 1. simpl. reflexivity.
Qed.

Lemma kids_count top r es :
  list_sum (map (fun v => count_dirs (Dir (snd v))) (kids top r es))
  = list_sum (map (fun e => count_dirs (snd e)) es).
Proof.
  unfold kids. induction es as [|[k [d|es']] es IH]; simpl; [reflexivity|assumption|].
  simpl in IH. now rewrite IH.
Qed.

Lemma in_kids v top r es :
  In v (kids top r es) <-> exists k es', In (k, Dir es') es /\ v = (join top k, r ++ [k], es').
Proof.
  unfold kids. rewrite in_flat_map. split.
  - intros ([k [d|es']] & Hin & H); simpl in H; [tauto|].
    destruct H as [<-|[]]. eauto.
  - intros (k & es' & Hin & ->). exists (k, Dir es'). split; [assumption|now left].
Qed.

Section WalkFixedTree.

Variable body : string -> list string -> list string -> appstate -> outcome appstate.
Variable S0 : list string.
Variable n0 : node.
Variable P : appstate -> Prop.

Hypothesis wf0 : wf_node n0 = true.
Hypothesis P_frame : forall st, P st -> lookup (fs st) S0 = Some n0.

Hypothesis body_keeps : forall v st st',
  P st -> pending S0 n0 v ->
  body (fst (fst v)) (dirnames (snd v)) (filenames (snd v)) st = Done st' -> P st'.

Lemma pending_kids top r es : pending S0 n0 (top, r, es) -> Forall (pending S0 n0) (kids top r es).
Proof.
  intros (Hne & Hc & Hl). simpl in *. apply Forall_forall. intros v Hv.
  apply in_kids in Hv as (k & es' & Hin & ->).
  pose proof (wf_lookup _ _ _ wf0 Hl) as Hwf.
  destruct (wf_entry _ _ _ Hwf Hin) as [Hk _].
  destruct (valid_name_inv _ Hk) as (Ek & _).
  repeat split; simpl.
  - now apply join_nonempty.
  - rewrite comps_join, Hc by assumption. now rewrite app_assoc.
  - rewrite lookup_app, Hl. simpl.
    destruct (wf_dir_inv _ Hwf) as (_ & Hnd & _).
    now rewrite (in_find_nodup _ _ _ Hnd Hin).
Qed.

Lemma pending_scandir st v :
  P st -> pending S0 n0 v ->
  scandir (fs st) (fst (fst v)) = Ok (dirnames (snd v), filenames (snd v)).
Proof.
  intros HP (Hne & Hc & Hl). unfold scandir.
  rewrite resolve_nonempty, Hc, lookup_app, (P_frame _ HP), Hl by assumption.
  reflexivity.
Qed.

(** With enough fuel the loop of [os.walk] is the run of the body over
    the directories of the tree, in the order of the visit. *)
Lemma os_walk_run_list fuel : forall stack st,
  P st -> Forall (pending S0 n0) stack ->
  list_sum (map (fun v => count_dirs (Dir (snd v))) stack) < fuel ->
  os_walk body fuel (map (fun v => fst (fst v)) stack) st
  = run_list body (map yielded (flat_map visit stack)) st.
Proof.
  induction fuel as [|fuel IH]; intros stack st HP Hst Hfuel; [lia|].
  destruct stack as [|[[top r] es] rest]; [reflexivity|].
  inversion Hst as [|? ? Hv Hrest]; subst.
  pose proof (pending_scandir st _ HP Hv) as Hscan. cbn [fst snd] in Hscan.
  cbn [map fst snd os_walk]. rewrite Hscan.
  cbn [flat_map]. unfold visit at 1. cbn [fst snd walk_nodes].
  cbn [List.app map run_list yielded fst snd].
  destruct (body top (dirnames es) (filenames es) st) as [st'| |] eqn:B; try reflexivity.
  rewrite <- kids_tops with (r := r), <- map_app.
  rewrite <- kids_visit, <- flat_map_app.
  apply IH.
  - exact (body_keeps _ _ _ HP Hv B).
  - apply Forall_app. split; [now apply pending_kids|assumption].
  - rewrite map_app, list_sum_app, kids_count.
    cbn [map list_sum snd] in Hfuel.
    change (count_dirs (Dir es))
      with (S (list_sum (map (fun e => count_dirs (snd e)) es))) in Hfuel.
    rewrite list_sum_cons in Hfuel. lia.
Qed.

End WalkFixedTree.

(** ** The writes of the copier *)

Lemma grows_refl f : grows f f.
Proof. split; auto. Qed.

Lemma grows_trans f g h : grows f g -> grows g h -> grows f h.
Proof. intros [A B] [C D]. split; auto. Qed.

Lemma stat_lookup_eq f f' q : lookup f' q = lookup f q -> stat f' q = stat f q.
Proof. unfold stat. now intros ->. Qed.

Lemma write_grows f w d f' : write_at f w d = Ok f' -> grows f f'.
Proof.
  intros W. split; intros q Hq.
  - destruct (list_eq_dec string_dec q w) as [->|N].
    + now apply write_at_pre in W.
    + now rewrite (write_at_stat _ _ _ _ _ W N).
  - destruct (list_eq_dec string_dec q w) as [->|N].
    + unfold stat. now rewrite (write_at_same _ _ _ _ W).
    + now rewrite (write_at_stat _ _ _ _ _ W N).
Qed.

Lemma makedirs_grows f w f' : makedirs_at f w = Ok f' -> grows f f'.
Proof.
  intros M. split; intros q Hq; destruct (is_prefix q w) eqn:E.
  - exact (makedirs_at_dirs _ _ _ _ M E).
  - now rewrite (stat_lookup_eq _ _ _ (makedirs_at_frame _ _ _ _ M E)).
  - now rewrite (makedirs_at_dirs _ _ _ _ M E).
  - now rewrite (stat_lookup_eq _ _ _ (makedirs_at_frame _ _ _ _ M E)).
Qed.

Lemma basename_join a f : valid_name f = true -> basename (join a f) = f.
Proof.
  intros Hf. destruct (valid_name_inv _ Hf) as (_ & _ & _ & Hs).
  destruct (join_shape a) as [pre Hpre]. destruct (Hpre f Hs) as [E1 E2].
  unfold basename. now rewrite E1, E2.
Qed.

Lemma lookup_valid r : forall n m,
  wf_node n = true -> lookup n r = Some m -> Forall (fun c => valid_name c = true) r.
Proof.
  induction r as [|c r IH]; intros n m Hn H; [constructor|]. simpl in H.
  destruct n as [|es]; [discriminate|].
  destruct (alist_find c es) as [ch|] eqn:F; [|discriminate].
  apply find_in in F. destruct (wf_entry _ _ _ Hn F). constructor; eauto.
Qed.

(** [copy_file] prints an error and leaves the file system, or writes the
    data of the source file at [written_path]. *)
Lemma copy_file_cases root tr st f :
  valid_name f = true ->
  (exists e, copy_file root tr st f = print (ErreurCopie (join root f) e) st)
  \/ (exists d fs', resolve (fs st) (join root f) = Some (File d)
        /\ write_at (fs st) (comps (written_path (fs st) tr f)) d = Ok fs'
        /\ copy_file root tr st f = with_fs fs' st).
Proof.
  intros Hf. unfold copy_file, written_path. rewrite (collision_path _ _ Hf).
  set (dp := if exists_ (fs st) (join tr f) then join tr (copy_name f) else join tr f).
  unfold copy2. rewrite (basename_join _ _ Hf).
  set (w := if isdir (fs st) dp then join dp f else dp).
  destruct (exists_ (fs st) (join root f) && exists_ (fs st) w
            && same_comps (comps (join root f)) (comps w)); [eauto|].
  destruct (resolve (fs st) (join root f)) as [[d|es]|]; eauto.
  destruct (w =? ""); [eauto|].
  destruct (write_at (fs st) (comps w) d) as [fs'|e] eqn:W; [right|left]; eauto.
Qed.

(** The written path lies in the target directory, one or two names below. *)
Lemma written_path_comps fs tr f :
  valid_name f = true ->
  exists x, x <> [] /\ comps (written_path fs tr f) = comps tr ++ x.
Proof.
  intros Hf. pose proof (copy_name_valid f Hf) as Hc. unfold written_path.
  destruct (exists_ fs (join tr f)); destruct (isdir fs _);
    rewrite ?comps_join by assumption; rewrite <- ?app_assoc;
    eexists; (split; [|reflexivity]); discriminate.
Qed.

Lemma copy_file_grows root tr st f :
  valid_name f = true -> grows (fs st) (fs (copy_file root tr st f)).
Proof.
  intros Hf. destruct (copy_file_cases root tr st f Hf) as [[e ->]|(d & fs' & _ & W & ->)].
  - apply grows_refl.
  - exact (write_grows _ _ _ _ W).
Qed.

Lemma copy_file_frame root tr st f q :
  valid_name f = true -> (forall x, is_prefix q (comps tr ++ x) = false) ->
  lookup (fs (copy_file root tr st f)) q = lookup (fs st) q.
Proof.
  intros Hf Hq. destruct (copy_file_cases root tr st f Hf) as [[e ->]|(d & fs' & _ & W & ->)].
  - reflexivity.
  - destruct (written_path_comps (fs st) tr f Hf) as (x & _ & E). rewrite E in W.
    exact (write_at_frame _ _ _ _ _ W (Hq x)).
Qed.

(** Where the source file can be read and the target directory exists, the
    computed path exists after [copy_file]; where it existed before, the path
    with the collision name exists after. *)
Lemma copy_file_lands root tr st f d :
  valid_name f = true ->
  resolve (fs st) (join root f) = Some (File d) ->
  stat (fs st) (comps tr) = Some KDir ->
  let fs' := fs (copy_file root tr st f) in
  stat fs' (comps tr ++ [f]) <> None
  /\ (stat (fs st) (comps tr ++ [f]) <> None -> stat fs' (comps tr ++ [copy_name f]) <> None).
Proof.
  intros Hf Hsp Hpar. pose proof (copy_name_valid f Hf) as Hc.
  destruct (valid_name_inv _ Hf) as (Ef & _). destruct (valid_name_inv _ Hc) as (Ec & _).
  pose proof (copy_file_grows root tr st f Hf) as [_ G].
  destruct (exists_ (fs st) (join tr f)) eqn:Hex.
  - (* collision *)
    pose proof Hex as Hex'. apply exists_stat in Hex' as [_ Hex'].
    rewrite comps_join in Hex' by assumption.
    split; [now apply G|]. intros _.
    destruct (isdir (fs st) (join tr (copy_name f))) eqn:Hd.
    + apply G. apply isdir_stat in Hd as [_ Hd]. rewrite comps_join in Hd by assumption.
      congruence.
    + cbv zeta. unfold copy_file. rewrite Hex, (collision_path _ _ Hf).
      unfold copy2. rewrite Hd.
      rewrite (same_comps_false (comps (join root f))).
      2:{ rewrite !comps_join by assumption. apply snoc_neq. intros E.
          now apply (copy_name_neq f). }
      rewrite andb_false_r, Hsp, (join_nonempty _ _ Ec), comps_join by assumption.
      assert (Hnot : stat (fs st) (comps tr ++ [copy_name f]) <> Some KDir).
      { rewrite <- comps_join by assumption. apply isdir_false_stat; [assumption|].
        now apply join_nonempty. }
      destruct (write_at_ok _ _ _ d Hpar Hnot) as [fs' W]. rewrite W. simpl.
      unfold stat. now rewrite (write_at_same _ _ _ _ W).
  - (* no collision *)
    assert (Hnone : stat (fs st) (comps tr ++ [f]) = None).
    { rewrite <- comps_join by assumption.
      destruct (stat (fs st) (comps (join tr f))) eqn:E; [|reflexivity].
      assert (exists_ (fs st) (join tr f) = true); [|congruence].
      apply exists_stat. split; [now apply join_nonempty|congruence]. }
    split; [|congruence].
    cbv zeta. unfold copy_file. rewrite Hex. unfold copy2.
    assert (Hd : isdir (fs st) (join tr f) = false).
    { destruct (isdir (fs st) (join tr f)) eqn:E; [|reflexivity].
      apply isdir_stat in E as [_ E]. rewrite comps_join in E by assumption. congruence. }
    rewrite Hd, Hex, andb_false_r, Hsp, (join_nonempty _ _ Ef). cbn [andb].
    rewrite comps_join by assumption.
    assert (Hnot : stat (fs st) (comps tr ++ [f]) <> Some KDir) by congruence.
    destruct (write_at_ok _ _ _ d Hpar Hnot) as [fs' W]. rewrite W. simpl.
    unfold stat. now rewrite (write_at_same _ _ _ _ W).
Qed.

(** ** The directories the walk visits *)

(** Every directory the walk visits is a directory of the tree. *)
Lemma visit_pending S0 n0 :
  wf_node n0 = true ->
  forall n top r es, n = Dir es -> pending S0 n0 (top, r, es) ->
  Forall (pending S0 n0) (walk_nodes top r n).
Proof.
  intros wf0. induction n as [d|es0 IH] using node_induction; intros top r es E Hv;
    [discriminate|]. injection E as ->.
  cbn [walk_nodes]. constructor; [assumption|].
  pose proof (pending_kids S0 n0 wf0 top r es Hv) as Hk.
  rewrite Forall_forall in Hk, IH. apply Forall_forall. intros v Hin.
  apply in_flat_map in Hin as ([k ch] & Hin & Hw).
  destruct ch as [d|es']; [contradiction|]. cbn [is_dir_entry snd fst] in Hw.
  assert (Hp : pending S0 n0 (join top k, r ++ [k], es')).
  { apply Hk. apply in_kids. eauto. }
  specialize (IH _ Hin (join top k) (r ++ [k]) es' eq_refl Hp).
  rewrite Forall_forall in IH. now apply IH.
Qed.

(** Every directory of the tree is visited. *)
Lemma visit_complete x : forall top r es es',
  lookup (Dir es) x = Some (Dir es') ->
  exists top', In (top', r ++ x, es') (walk_nodes top r (Dir es)).
Proof.
  induction x as [|c x IH]; intros top r es es' H.
  - injection H as ->. exists top. rewrite app_nil_r. now left.
  - simpl in H. destruct (alist_find c es) as [ch|] eqn:F; [|discriminate].
    destruct ch as [d|es1]; [destruct x; discriminate|].
    destruct (IH (join top c) (r ++ [c]) es1 es' H) as [top' Hin].
    exists top'. cbn [walk_nodes]. right. apply in_flat_map.
    exists (c, Dir es1). split; [now apply find_in|].
    cbn [is_dir_entry snd fst]. now rewrite <- app_assoc in Hin.
Qed.

(** ** The run of [_copy_tree] over a source that lies apart from the target *)

Section CopyTree.

Variables src dst : string.
Variable n0 : node.

Hypothesis src_ne : (src =? "") = false.
Hypothesis dst_ne : (dst =? "") = false.
Hypothesis wf0 : wf_node n0 = true.
Hypothesis apart : disjoint (comps src) (comps dst) = true.

Lemma apart_below r x : is_prefix (comps src) ((comps dst ++ r) ++ x) = false.
Proof. rewrite <- app_assoc. now apply disjoint_below. Qed.

Lemma source_file top r es f st :
  src_fixed (comps src) n0 st -> pending (comps src) n0 (top, r, es) ->
  In f (filenames es) ->
  valid_name f = true /\ exists d, resolve (fs st) (join top f) = Some (File d).
Proof.
  intros HP (Hne & Hc & Hl) Hin. cbn [fst snd] in *.
  apply in_filenames in Hin as [d Hin].
  pose proof (wf_lookup _ _ _ wf0 Hl) as Hwf.
  destruct (wf_entry _ _ _ Hwf Hin) as [Hf _]. split; [assumption|]. exists d.
  rewrite resolve_join, Hc, <- app_assoc, lookup_app, HP, lookup_app, Hl by assumption.
  simpl. destruct (wf_dir_inv _ Hwf) as (_ & Hnd & _).
  now rewrite (in_find_nodup _ _ _ Hnd Hin).
Qed.

(** The loop over the files of one directory. *)
Lemma copy_files_step top r es tr :
  pending (comps src) n0 (top, r, es) -> comps tr = comps dst ++ r ->
  forall fl st, incl fl (filenames es) ->
  src_fixed (comps src) n0 st -> stat (fs st) (comps dst ++ r) = Some KDir ->
  let st' := fold_left (copy_file top tr) fl st in
  src_fixed (comps src) n0 st' /\ grows (fs st) (fs st')
  /\ forall f, In f fl ->
       stat (fs st') (comps dst ++ r ++ [f]) <> None
       /\ (stat (fs st) (comps dst ++ r ++ [f]) <> None ->
           stat (fs st') (comps dst ++ r ++ [copy_name f]) <> None).
Proof.
  intros Hv Htr. induction fl as [|f fl IH]; intros st Hincl HP Hdir; cbn [fold_left].
  - split; [assumption|]. split; [apply grows_refl|]. intros f [].
  - destruct (source_file top r es f st HP Hv (Hincl f (or_introl eq_refl)))
      as (Hf & d & Hsp).
    set (st1 := copy_file top tr st f).
    assert (HP1 : src_fixed (comps src) n0 st1).
    { unfold src_fixed, st1. rewrite copy_file_frame; [assumption..|].
      intros x. rewrite Htr. apply apart_below. }
    pose proof (copy_file_grows top tr st f Hf) as G1. fold st1 in G1.
    assert (Hdir1 : stat (fs st1) (comps dst ++ r) = Some KDir) by now apply G1.
    assert (Hincl' : incl fl (filenames es)) by (intros y Hy; apply Hincl; now right).
    destruct (IH st1 Hincl' HP1 Hdir1) as (HP' & G' & Hall).
    split; [assumption|]. split; [eapply grows_trans; eassumption|].
    rewrite <- Htr in Hdir.
    pose proof (copy_file_lands top tr st f d Hf Hsp Hdir) as [L1 L2].
    fold st1 in L1, L2. rewrite Htr in L1, L2.
    rewrite <- app_assoc in L1. rewrite <- !app_assoc in L2.
    intros g [<-|Hg].
    + split; [now apply G'|]. intros H. apply G'. now apply L2.
    + destruct (Hall g Hg) as [A B]. split; [assumption|].
      intros H. apply B. now apply G1.
Qed.

(** The body of the walk at one directory of the source. *)
Lemma copy_dir_step v st :
  src_fixed (comps src) n0 st -> pending (comps src) n0 v ->
  match copy_dir src dst (fst (fst v)) (dirnames (snd v)) (filenames (snd v)) st with
  | Raised e st' => st' = st /\ makedirs_at (fs st) (comps dst ++ snd (fst v)) = Raise e
  | Done st' =>
      src_fixed (comps src) n0 st' /\ grows (fs st) (fs st')
      /\ stat (fs st') (comps dst ++ snd (fst v)) = Some KDir
      /\ (forall f, In f (filenames (snd v)) ->
            stat (fs st') (comps dst ++ snd (fst v) ++ [f]) <> None
            /\ (stat (fs st) (comps dst ++ snd (fst v) ++ [f]) <> None ->
                stat (fs st') (comps dst ++ snd (fst v) ++ [copy_name f]) <> None))
  | OutOfFuel _ => False
  end.
Proof.
  intros HP Hv. destruct v as [[top r] es]. cbn [fst snd].
  pose proof Hv as (Hne & Hc & Hl). cbn [fst snd] in Hne, Hc, Hl.
  pose proof (lookup_valid _ _ _ wf0 Hl) as Hr.
  destruct (target_root_comps top src dst r Hc Hr dst_ne) as [Htr Htne].
  unfold copy_dir.
  set (tr := if negb (relpath top src =? ".") then join dst (relpath top src) else dst) in *.
  unfold makedirs. rewrite Htne, Htr.
  destruct (makedirs_at (fs st) (comps dst ++ r)) as [fs1|e] eqn:M; [|now split].
  assert (HP1 : src_fixed (comps src) n0 (with_fs fs1 st)).
  { unfold src_fixed. cbn [fs with_fs]. rewrite (makedirs_at_frame _ _ _ _ M); [assumption|].
    rewrite <- (app_nil_r (comps dst ++ r)). apply apart_below. }
  pose proof (makedirs_grows _ _ _ M) as G1.
  assert (Hdir1 : stat (fs (with_fs fs1 st)) (comps dst ++ r) = Some KDir).
  { cbn [fs with_fs]. apply (makedirs_at_dirs _ _ _ _ M). apply is_prefix_refl. }
  destruct (copy_files_step top r es tr Hv Htr (filenames es) (with_fs fs1 st)
                            (incl_refl _) HP1 Hdir1) as (HP' & G' & Hall).
  cbn [fs with_fs] in G'. split; [assumption|].
  split; [eapply grows_trans; eassumption|].
  split; [now apply G'|].
  intros f Hf. destruct (Hall f Hf) as [A B]. split; [assumption|].
  intros H. apply B. cbn [fs with_fs]. now apply G1.
Qed.

(** The run over a list of directories of the source. *)
Lemma run_copy_nodes nodes : Forall (pending (comps src) n0) nodes ->
  forall st, src_fixed (comps src) n0 st ->
  match run_list (copy_dir src dst) (map yielded nodes) st with
  | Raised e st' =>
      exists v, In v nodes /\ makedirs_at (fs st') (comps dst ++ snd (fst v)) = Raise e
  | Done st' =>
      src_fixed (comps src) n0 st' /\ grows (fs st) (fs st')
      /\ forall v, In v nodes ->
           stat (fs st') (comps dst ++ snd (fst v)) = Some KDir
           /\ forall f, In f (filenames (snd v)) ->
                stat (fs st') (comps dst ++ snd (fst v) ++ [f]) <> None
                /\ (stat (fs st) (comps dst ++ snd (fst v) ++ [f]) <> None ->
                    stat (fs st') (comps dst ++ snd (fst v) ++ [copy_name f]) <> None)
  | OutOfFuel _ => False
  end.
Proof.
  induction nodes as [|v nodes IH]; intros Hall st HP.
  - cbn. split; [assumption|]. split; [apply grows_refl|]. intros v [].
  - inversion Hall as [|? ? Hv Hrest]; subst. cbn [map run_list].
    unfold yielded at 1.
    pose proof (copy_dir_step v st HP Hv) as Hstep.
    destruct (copy_dir src dst (fst (fst v)) (dirnames (snd v)) (filenames (snd v)) st)
      as [st1|e st1|]; [|destruct Hstep as [-> M]; exists v; split; [now left|assumption]
                        |contradiction].
    destruct Hstep as (HP1 & G1 & D1 & F1).
    specialize (IH Hrest st1 HP1).
    destruct (run_list (copy_dir src dst) (map yielded nodes) st1) as [st'|e st'|];
      [|destruct IH as (w & Hw & M); exists w; split; [now right|assumption]|contradiction].
    destruct IH as (HP' & G' & Hall').
    split; [assumption|]. split; [eapply grows_trans; eassumption|].
    intros w [<-|Hw].
    + split; [now apply G'|]. intros f Hf. destruct (F1 f Hf) as [A B].
      split; [now apply G'|]. intros H. apply G'. now apply B.
    + destruct (Hall' w Hw) as [A B]. split; [assumption|].
      intros f Hf. destruct (B f Hf) as [B1 B2]. split; [assumption|].
      intros H. apply B2. now apply G1.
Qed.


(** With enough fuel, [_copy_tree] is the run over the directories of the
    source. *)
Lemma copy_tree_run fuel es0 st :
  n0 = Dir es0 -> src_fixed (comps src) n0 st -> count_dirs n0 < fuel ->
  _copy_tree fuel src dst st
  = run_list (copy_dir src dst) (map yielded (walk_nodes src [] n0)) st
  /\ Forall (pending (comps src) n0) (walk_nodes src [] n0).
Proof.
  intros E HP Hfuel.
  assert (Hv : pending (comps src) n0 (src, @nil string, es0)).
  { repeat split; cbn [fst snd]; [assumption|now rewrite app_nil_r|now subst]. }
  split; [|now apply (visit_pending _ _ wf0 _ _ _ es0)].
  unfold _copy_tree.
  assert (Hex : exists_ (fs st) src = true).
  { apply exists_stat. split; [assumption|]. unfold stat. now rewrite HP. }
  rewrite Hex. cbn [negb].
  assert (K : forall v st st', src_fixed (comps src) n0 st -> pending (comps src) n0 v ->
              copy_dir src dst (fst (fst v)) (dirnames (snd v)) (filenames (snd v)) st
              = Done st' -> src_fixed (comps src) n0 st').
  { intros v s s' HPs Hvs B. pose proof (copy_dir_step v s HPs Hvs) as Hs.
    rewrite B in Hs. apply Hs. }
  pose proof (os_walk_run_list (copy_dir src dst) (comps src) n0
                (src_fixed (comps src) n0) wf0 (fun st H => H) K
                fuel [(src, [], es0)] st HP) as W.
  cbn [map fst snd flat_map] in W. rewrite app_nil_r in W. unfold visit in W.
  cbn [fst snd] in W. subst n0. apply W; [constructor; [assumption|constructor]|].
  rewrite list_sum_cons. cbn [list_sum fold_right]. lia.
Qed.

End CopyTree.

(** ** Well-formedness is kept by the writes *)

Lemma wf_set c ch es :
  wf_node (Dir es) = true -> valid_name c = true -> wf_node ch = true ->
  wf_node (Dir (alist_set c ch es)) = true.
Proof.
  intros (Hv & Hn & Hw)%wf_dir_inv Hc Hch. cbn [wf_node].
  rewrite !andb_true_iff. repeat split.
  - clear Hn Hw. induction es as [|[k v] es IH]; simpl in *; [now rewrite Hc|].
    apply andb_true_iff in Hv as [Hk Hv].
    destruct (c =? k); simpl; [now rewrite Hc|]. now rewrite Hk, IH.
  - clear Hv Hw. induction es as [|[k v] es IH]; simpl in *; [reflexivity|].
    apply andb_true_iff in Hn as [Hk Hn].
    destruct (c =? k) eqn:E; simpl.
    + apply String.eqb_eq in E. subst k. now rewrite Hk.
    + fold (keys (alist_set c ch es)). fold (keys es) in Hk.
      rewrite mem_keys_set_other by now rewrite String.eqb_sym.
      now rewrite Hk, IH.
  - clear Hv Hn. induction es as [|[k v] es IH]; simpl in *; [now rewrite Hch|].
    apply andb_true_iff in Hw as [Hk Hw].
    destruct (c =? k); simpl; [now rewrite Hch|]. now rewrite Hk, IH.
Qed.

Lemma wf_find c ch es : wf_node (Dir es) = true -> alist_find c es = Some ch -> wf_node ch = true.
Proof. intros Hwf F. apply find_in in F. now destruct (wf_entry _ _ _ Hwf F). Qed.

Lemma wf_makedirs_at w : forall n n',
  wf_node n = true -> Forall (fun c => valid_name c = true) w ->
  makedirs_at n w = Ok n' -> wf_node n' = true.
Proof.
  induction w as [|c w IH]; intros n n' Hn Hw M; simpl in M.
  - destruct n; [discriminate|]. now injection M as <-.
  - inversion Hw as [|? ? Hc Hw']; subst. destruct n as [|es]; [discriminate|].
    destruct (alist_find c es) as [ch|] eqn:F; unfold bind in M;
      destruct (makedirs_at _ w) as [ch'|] eqn:M'; try discriminate; injection M as <-;
      apply wf_set; try assumption.
    + apply (IH ch); try assumption. now apply (wf_find c ch es).
    + now apply (IH (Dir [])).
Qed.

Lemma wf_write_at w : forall n n' d,
  wf_node n = true -> Forall (fun c => valid_name c = true) w ->
  write_at n w d = Ok n' -> wf_node n' = true.
Proof.
  induction w as [|c w IH]; intros n n' d Hn Hw M; simpl in M.
  - destruct n; [|discriminate]. now injection M as <-.
  - inversion Hw as [|? ? Hc Hw']; subst. destruct n as [|es]; [discriminate|].
    destruct (alist_find c es) as [ch|] eqn:F.
    + unfold bind in M. destruct (write_at ch w d) as [ch'|] eqn:M'; [|discriminate].
      injection M as <-. apply wf_set; try assumption.
      apply (IH ch _ d); try assumption. now apply (wf_find c ch es).
    + destruct w; [|discriminate]. injection M as <-. now apply wf_set.
Qed.

(** ** Where the writes land *)

Lemma kind_eq_dec (a b : option kind) : {a = b} + {a <> b}.
Proof. repeat decide equality. Qed.

Lemma changes_refl D f : changes_under D f f.
Proof. intros q H. congruence. Qed.

Lemma changes_trans D f g h :
  changes_under D f g -> changes_under D g h -> changes_under D f h.
Proof.
  intros A B q H. destruct (kind_eq_dec (stat g q) (stat f q)) as [E|N].
  - rewrite <- E in H. destruct (B q H) as [?|[? ?]]; [now left|right]. split; congruence.
  - now apply A.
Qed.

Lemma changes_write D f w d f' :
  write_at f w d = Ok f' -> is_prefix D w = true -> changes_under D f f'.
Proof.
  intros W Hw q H. destruct (list_eq_dec string_dec q w) as [->|N]; [now left|].
  now rewrite (write_at_stat _ _ _ _ _ W N) in H.
Qed.

Lemma changes_makedirs D f w f' :
  makedirs_at f w = Ok f' -> is_prefix D w = true -> changes_under D f f'.
Proof.
  intros M Hw q H. destruct (is_prefix q w) eqn:E.
  - destruct (is_prefix_linear D q w Hw E) as [?|?]; [now left|right].
    split; [assumption|].
    destruct (makedirs_at_pre _ _ _ _ M E) as [?|K]; [assumption|].
    rewrite (makedirs_at_dirs _ _ _ _ M E), K in H. congruence.
  - now rewrite (stat_lookup_eq _ _ _ (makedirs_at_frame _ _ _ _ M E)) in H.
Qed.

(** Under [D] means under every ancestor of [D]. *)
Lemma changes_weaken D D' f f' :
  is_prefix D' D = true -> changes_under D f f' -> changes_under D' f f'.
Proof.
  intros HD A q H. destruct (A q H) as [?|[? ?]].
  - left. eapply is_prefix_trans; eassumption.
  - destruct (is_prefix_linear D' q D HD H0) as [?|?]; [now left|now right].
Qed.

(** ** The copy to a target that does not exist yet *)

Lemma makedirs_at_empty w : exists n', makedirs_at (Dir []) w = Ok n'.
Proof.
  induction w as [|c w [n' IH]]; [now exists (Dir [])|].
  cbn [makedirs_at alist_find]. rewrite IH. cbn [bind]. eauto.
Qed.

Lemma makedirs_at_ok w : forall n, creatable n w -> exists n', makedirs_at n w = Ok n'.
Proof.
  induction w as [|c w IH]; intros n Hc.
  - destruct (Hc [] eq_refl) as [H|H]; destruct n; try discriminate. now exists (Dir es).
  - destruct (Hc [] eq_refl) as [H|H]; destruct n as [d|es]; try discriminate.
    cbn [makedirs_at]. destruct (alist_find c es) as [ch|] eqn:F.
    + destruct (IH ch) as [ch' ->]; [|cbn [bind]; eauto].
      intros q Hq. specialize (Hc (c :: q)). cbn [is_prefix] in Hc.
      rewrite String.eqb_refl in Hc. specialize (Hc Hq).
      unfold stat in *. cbn [lookup] in Hc. now rewrite F in Hc.
    + destruct (makedirs_at_empty w) as [ch' ->]. cbn [bind]. eauto.
Qed.

Lemma stat_below_none f p q : stat f p = None -> stat f (p ++ q) = None.
Proof. unfold stat. rewrite lookup_app. now destruct (lookup f p). Qed.

Lemma mem_app c a b : mem c (a ++ b) = mem c a || mem c b.
Proof. apply existsb_app. Qed.

Lemma nodupb_NoDup l : nodupb l = true -> NoDup l.
Proof.
  induction l as [|x l IH]; [constructor|]. cbn [nodupb].
  intros [Hm Hn]%andb_true_iff. apply negb_true_iff in Hm. constructor; [|now apply IH].
  intros Hin. apply mem_in in Hin. congruence.
Qed.

Lemma NoDup_filtered_keys (p : string * node -> bool) es :
  NoDup (keys es) -> NoDup (map fst (filter p es)).
Proof.
  induction es as [|e es IH]; [constructor|]. cbn [keys map filter].
  intros H. inversion H as [|? ? Hn Hd]; subst. destruct (p e); [|now apply IH].
  cbn [map]. constructor; [|now apply IH]. intros Hin. apply Hn.
  apply in_map_iff in Hin as (y & <- & Hy%filter_In). apply in_map. tauto.
Qed.

Lemma find_listed c es n :
  alist_find c es = Some n -> mem c (filenames es ++ dirnames es) = true.
Proof.
  intros F%find_in. rewrite mem_app. apply orb_true_iff. destruct n as [d|es'].
  - left. apply mem_in. apply in_filenames. eauto.
  - right. apply mem_in. apply in_dirnames. eauto.
Qed.

Lemma run_list_app body l1 : forall l2 st,
  run_list body (l1 ++ l2) st
  = match run_list body l1 st with
    | Done st' => run_list body l2 st'
    | o => o
    end.
Proof.
  induction l1 as [|[[top ds] fl] l1 IH]; intros l2 st; [reflexivity|].
  cbn [List.app run_list]. destruct (body top ds fl st); try reflexivity. apply IH.
Qed.

(** Without a collision [copy_file] writes the data at the computed path. *)
Lemma copy_file_fresh root tr st f d :
  valid_name f = true ->
  resolve (fs st) (join root f) = Some (File d) ->
  stat (fs st) (comps tr) = Some KDir ->
  stat (fs st) (comps tr ++ [f]) = None ->
  exists fs', write_at (fs st) (comps tr ++ [f]) d = Ok fs'
              /\ copy_file root tr st f = with_fs fs' st.
Proof.
  intros Hf Hsp Hpar Hnone. destruct (valid_name_inv _ Hf) as (Ef & _).
  assert (Hex : exists_ (fs st) (join tr f) = false).
  { destruct (exists_ (fs st) (join tr f)) eqn:E; [|reflexivity].
    apply exists_stat in E as [_ E]. rewrite comps_join in E by assumption. congruence. }
  assert (Hd : isdir (fs st) (join tr f) = false).
  { destruct (isdir (fs st) (join tr f)) eqn:E; [|reflexivity].
    apply isdir_stat in E as [_ E]. rewrite comps_join in E by assumption. congruence. }
  assert (Hnot : stat (fs st) (comps tr ++ [f]) <> Some KDir) by congruence.
  destruct (write_at_ok _ _ _ d Hpar Hnot) as [fs' W]. exists fs'. split; [assumption|].
  unfold copy_file. rewrite Hex. unfold copy2.
  rewrite Hd, Hex, andb_false_r, Hsp, (join_nonempty _ _ Ef). cbn [andb].
  rewrite comps_join by assumption. now rewrite W.
Qed.

Lemma snoc_neq_self (T : list string) x : T ++ [x] <> T.
Proof. intros E. apply (f_equal (@List.length string)) in E. rewrite length_app in E. cbn in E. lia. Qed.

Lemma is_prefix_below_false (T : list string) c q : is_prefix (T ++ c :: q) T = false.
Proof.
  destruct (is_prefix (T ++ c :: q) T) eqn:E; [|reflexivity].
  apply is_prefix_inv in E as [x E]. apply (f_equal (@List.length string)) in E.
  rewrite !length_app in E. cbn in E. lia.
Qed.

Lemma is_prefix_snoc q T k :
  is_prefix q (T ++ [k]) = true -> is_prefix q T = true \/ q = T ++ [k].
Proof.
  revert q. induction T as [|x T IH]; intros q H.
  - destruct q as [|y q]; [now left|]. cbn in H. apply andb_true_iff in H as [E H].
    apply String.eqb_eq in E. subst y. destruct q; [now right|discriminate].
  - destruct q as [|y q]; [now left|]. cbn in H. apply andb_true_iff in H as [E H].
    apply String.eqb_eq in E. subst y. destruct (IH q H) as [K|K].
    + left. cbn. now rewrite String.eqb_refl.
    + right. cbn. now rewrite K.
Qed.

Lemma stat_prefix_dir f w q : stat f w = Some KDir -> is_prefix q w = true -> stat f q = Some KDir.
Proof.
  intros Hw [x ->]%is_prefix_inv. destruct x as [|c x]; [now rewrite app_nil_r in Hw|].
  unfold stat in *. rewrite lookup_app in Hw.
  destruct (lookup f q) as [[d|es]|]; [destruct (c :: x); discriminate|reflexivity|discriminate].
Qed.

Section FreshTarget.

Variables src dst : string.
Variable n0 : node.

Hypothesis dst_ne : (dst =? "") = false.
Hypothesis wf0 : wf_node n0 = true.
Hypothesis apart : disjoint (comps src) (comps dst) = true.

Lemma source_file_stat top r es f :
  pending (comps src) n0 (top, r, es) -> In f (filenames es) ->
  exists d, valid_name f = true /\ alist_find f es = Some (File d)
            /\ forall st, src_fixed (comps src) n0 st ->
                 resolve (fs st) (join top f) = Some (File d).
Proof.
  intros (Hne & Hc & Hl) Hin. cbn [fst snd] in *.
  apply in_filenames in Hin as [d Hin].
  pose proof (wf_lookup _ _ _ wf0 Hl) as Hwf.
  destruct (wf_entry _ _ _ Hwf Hin) as [Hf _].
  destruct (wf_dir_inv _ Hwf) as (_ & Hnd & _).
  pose proof (in_find_nodup _ _ _ Hnd Hin) as F.
  exists d. repeat split; try assumption. intros st HP.
  rewrite resolve_join, Hc, <- app_assoc, lookup_app, HP, lookup_app, Hl by assumption.
  simpl. now rewrite F.
Qed.

(** The loop over the files of a directory whose mirror holds none of
    them yet. *)
Lemma copy_files_fresh top r es tr :
  pending (comps src) n0 (top, r, es) -> comps tr = comps dst ++ r ->
  forall fl done st,
    NoDup fl -> (forall f, In f fl -> mem f done = false) -> incl fl (filenames es) ->
    src_fixed (comps src) n0 st -> mirrored (comps dst ++ r) es done (fs st) ->
    src_fixed (comps src) n0 (fold_left (copy_file top tr) fl st)
    /\ mirrored (comps dst ++ r) es (done ++ fl) (fs (fold_left (copy_file top tr) fl st))
    /\ stdout (fold_left (copy_file top tr) fl st) = stdout st
    /\ changes_under (comps dst ++ r) (fs st) (fs (fold_left (copy_file top tr) fl st)).
Proof.
  intros Hv Htr. induction fl as [|f fl IH]; intros done st Hnd Hfresh Hincl HP Hm.
  - cbn [fold_left]. rewrite app_nil_r. repeat split; try assumption; try apply Hm.
    apply changes_refl.
  - cbn [fold_left]. inversion Hnd as [|? ? Hnotin Hnd']; subst.
    destruct (source_file_stat top r es f Hv (Hincl f (or_introl eq_refl)))
      as (d & Hf & F & Hsp).
    destruct Hm as [HT Hm].
    assert (Hnone : stat (fs st) (comps tr ++ [f]) = None).
    { rewrite Htr, (Hm f []). now rewrite (Hfresh f (or_introl eq_refl)). }
    assert (Hpar : stat (fs st) (comps tr) = Some KDir) by now rewrite Htr.
    destruct (copy_file_fresh top tr st f d Hf (Hsp st HP) Hpar Hnone) as (fs1 & W & ->).
    rewrite Htr in W.
    assert (HP1 : src_fixed (comps src) n0 (with_fs fs1 st)).
    { unfold src_fixed. cbn [fs with_fs]. rewrite (write_at_frame _ _ _ _ _ W); [assumption|].
      now apply apart_below. }
    assert (Hm1 : mirrored (comps dst ++ r) es (done ++ [f]) (fs (with_fs fs1 st))).
    { cbn [fs with_fs]. split.
      - rewrite (write_at_stat _ _ _ _ _ W); [assumption|].
        intros E. symmetry in E. now apply snoc_neq_self in E.
      - intros c q. rewrite mem_app. cbn [mem existsb]. rewrite orb_false_r.
        destruct (list_eq_dec string_dec (c :: q) [f]) as [E|N].
        + injection E as -> ->. rewrite String.eqb_refl, orb_true_r.
          unfold stat. rewrite (write_at_same _ _ _ _ W). cbn [lookup]. now rewrite F.
        + rewrite (write_at_stat _ _ _ _ _ W) by (intros E; apply app_inv_head in E; tauto).
          rewrite Hm. destruct (c =? f) eqn:Ec; [|now rewrite orb_false_r].
          apply String.eqb_eq in Ec. subst c.
          rewrite (Hfresh f (or_introl eq_refl)). cbn [orb].
          unfold stat. cbn [lookup]. rewrite F. destruct q; [congruence|reflexivity]. }
    assert (Hfresh1 : forall g, In g fl -> mem g (done ++ [f]) = false).
    { intros g Hg. rewrite mem_app, (Hfresh g (or_intror Hg)). cbn [mem existsb orb].
      rewrite orb_false_r. apply String.eqb_neq. intros ->. contradiction. }
    assert (Hincl1 : incl fl (filenames es)) by (intros g Hg; apply Hincl; now right).
    destruct (IH (done ++ [f]) (with_fs fs1 st) Hnd' Hfresh1 Hincl1 HP1 Hm1)
      as (A & B & C & E).
    rewrite <- app_assoc in B. repeat split; try assumption; try apply B.
    eapply changes_trans; [|exact E]. cbn [fs with_fs].
    apply (changes_write _ _ _ _ _ W). apply is_prefix_app.
Qed.

(** The body of the walk at a directory whose mirror does not exist. *)
Lemma copy_dir_fresh top r es st :
  pending (comps src) n0 (top, r, es) -> src_fixed (comps src) n0 st ->
  creatable (fs st) (comps dst ++ r) -> stat (fs st) (comps dst ++ r) = None ->
  exists st', copy_dir src dst top (dirnames es) (filenames es) st = Done st'
    /\ src_fixed (comps src) n0 st'
    /\ mirrored (comps dst ++ r) es (filenames es) (fs st')
    /\ stdout st' = stdout st
    /\ changes_under (comps dst ++ r) (fs st) (fs st').
Proof.
  intros Hv HP Hcr Hnone. pose proof Hv as (Hne & Hc & Hl). cbn [fst snd] in Hne, Hc, Hl.
  pose proof (lookup_valid _ _ _ wf0 Hl) as Hr.
  destruct (target_root_comps top src dst r Hc Hr dst_ne) as [Htr Htne].
  unfold copy_dir.
  set (tr := if negb (relpath top src =? ".") then join dst (relpath top src) else dst) in *.
  unfold makedirs. rewrite Htne, Htr.
  destruct (makedirs_at_ok _ _ Hcr) as [fs1 M]. rewrite M.
  assert (HP1 : src_fixed (comps src) n0 (with_fs fs1 st)).
  { unfold src_fixed. cbn [fs with_fs]. rewrite (makedirs_at_frame _ _ _ _ M); [assumption|].
    rewrite <- (app_nil_r (comps dst ++ r)). now apply apart_below. }
  assert (Hm1 : mirrored (comps dst ++ r) es [] (fs (with_fs fs1 st))).
  { cbn [fs with_fs]. split.
    - apply (makedirs_at_dirs _ _ _ _ M). apply is_prefix_refl.
    - intros c q. cbn [mem existsb].
      rewrite (stat_lookup_eq _ _ _ (makedirs_at_frame _ _ _ _ M (is_prefix_below_false _ c q))).
      now apply stat_below_none. }
  pose proof (wf_lookup _ _ _ wf0 Hl) as Hwf. destruct (wf_dir_inv _ Hwf) as (_ & Hnd & _).
  assert (Hndf : NoDup (filenames es)).
  { apply NoDup_filtered_keys. now apply nodupb_NoDup. }
  destruct (copy_files_fresh top r es tr Hv Htr (filenames es) [] (with_fs fs1 st)
              Hndf (fun _ _ => eq_refl) (incl_refl _) HP1 Hm1) as (A & B & C & E).
  eexists. split; [reflexivity|]. repeat split; try assumption; try apply B.
  eapply changes_trans; [|exact E]. cbn [fs with_fs].
  apply (changes_makedirs _ _ _ _ M). apply is_prefix_refl.
Qed.

Lemma dirnames_app a b : dirnames (a ++ b) = dirnames a ++ dirnames b.
Proof. unfold dirnames. now rewrite filter_app, map_app. Qed.

Lemma dir_key_fresh es1 k es_k es2 :
  nodupb (keys (es1 ++ (k, Dir es_k) :: es2)) = true ->
  mem k (filenames (es1 ++ (k, Dir es_k) :: es2) ++ dirnames es1) = false.
Proof.
  intros Hnd. destruct (mem k _) eqn:E; [|reflexivity]. exfalso.
  rewrite mem_app in E. apply orb_true_iff in E as [E|E]; apply mem_in in E.
  - apply in_filenames in E as [d E].
    pose proof (in_find_nodup _ _ _ Hnd E) as F1.
    assert (In (k, Dir es_k) (es1 ++ (k, Dir es_k) :: es2))
      by (apply in_or_app; right; now left).
    pose proof (in_find_nodup _ _ _ Hnd H) as F2. congruence.
  - apply in_dirnames in E as [es' E]. apply nodupb_NoDup in Hnd.
    unfold keys in Hnd. rewrite map_app in Hnd. cbn [map fst] in Hnd.
    apply NoDup_remove_2 in Hnd. apply Hnd. apply in_or_app. left.
    apply (in_map fst _ _ E).
Qed.

(** The subdirectories of a directory, one after the other. *)
Lemma run_kids_fresh top r es :
  pending (comps src) n0 (top, r, es) ->
  forall es2 es1 st,
    es = es1 ++ es2 -> Forall (fun e => fresh_run src dst n0 (snd e)) es2 ->
    src_fixed (comps src) n0 st ->
    mirrored (comps dst ++ r) es (filenames es ++ dirnames es1) (fs st) ->
    exists st',
      run_list (copy_dir src dst)
        (map yielded
           (flat_map (fun e => if is_dir_entry e
                               then walk_nodes (join top (fst e)) (r ++ [fst e]) (snd e)
                               else []) es2)) st = Done st'
      /\ src_fixed (comps src) n0 st'
      /\ mirrored (comps dst ++ r) es (filenames es ++ dirnames es) (fs st')
      /\ stdout st' = stdout st
      /\ changes_under (comps dst ++ r) (fs st) (fs st').
Proof.
  intros Hv. pose proof Hv as (_ & _ & Hl). cbn [fst snd] in Hl.
  pose proof (wf_lookup _ _ _ wf0 Hl) as Hwf. destruct (wf_dir_inv _ Hwf) as (_ & Hnd & _).
  induction es2 as [|[k ch] es2 IH]; intros es1 st Hes Hall HP Hm.
  - rewrite app_nil_r in Hes. subst es1. exists st. cbn.
    repeat split; try assumption; try apply Hm. apply changes_refl.
  - inversion Hall as [|? ? Hch Hall']; subst.
    assert (Hes' : es1 ++ (k, ch) :: es2 = (es1 ++ [(k, ch)]) ++ es2)
      by now rewrite <- app_assoc.
    destruct ch as [d|es_k]; cbn [flat_map is_dir_entry snd fst].
    + cbn [List.app]. apply (IH (es1 ++ [(k, File d)]) st Hes' Hall' HP).
      rewrite dirnames_app. cbn. now rewrite app_nil_r.
    + rewrite map_app, run_list_app.
      assert (Hin : In (k, Dir es_k) (es1 ++ (k, Dir es_k) :: es2))
        by (apply in_or_app; right; now left).
      assert (Hp : pending (comps src) n0 (join top k, r ++ [k], es_k)).
      { pose proof (pending_kids _ _ wf0 top r _ Hv) as Hk. rewrite Forall_forall in Hk.
        apply Hk. apply in_kids. eauto. }
      pose proof (dir_key_fresh es1 k es_k es2 Hnd) as Hfresh.
      destruct Hm as [HT Hm].
      assert (Hnone : stat (fs st) (comps dst ++ r ++ [k]) = None).
      { rewrite app_assoc, (Hm k []). now rewrite Hfresh. }
      assert (Hcr : creatable (fs st) (comps dst ++ r ++ [k])).
      { intros q Hq. rewrite app_assoc in Hq. apply is_prefix_snoc in Hq as [Hq| ->].
        - right. exact (stat_prefix_dir _ _ _ HT Hq).
        - left. now rewrite <- app_assoc. }
      destruct (Hch (join top k) (r ++ [k]) es_k st eq_refl Hp HP Hcr Hnone)
        as (st1 & R1 & O1 & M1 & C1).
      cbn [snd] in R1. rewrite R1.
      pose proof (visit_pending _ _ wf0 (Dir es_k) _ _ es_k eq_refl Hp) as Hpend.
      pose proof (run_copy_nodes src dst n0 dst_ne wf0 apart _ Hpend st HP) as R.
      rewrite R1 in R. destruct R as (HP1 & G1 & _).
      assert (F : alist_find k (es1 ++ (k, Dir es_k) :: es2) = Some (Dir es_k))
        by exact (in_find_nodup _ _ _ Hnd Hin).
      assert (Hm1 : mirrored (comps dst ++ r) (es1 ++ (k, Dir es_k) :: es2)
                      (filenames (es1 ++ (k, Dir es_k) :: es2)
                       ++ dirnames (es1 ++ [(k, Dir es_k)])) (fs st1)).
      { split; [now apply G1|]. intros c q.
        rewrite dirnames_app, app_assoc, mem_app. cbn [dirnames filter map is_dir_entry snd fst].
        cbn [mem existsb]. rewrite orb_false_r.
        destruct (c =? k) eqn:Ec.
        - apply String.eqb_eq in Ec. subst c. rewrite orb_true_r.
          specialize (M1 q). rewrite <- !app_assoc in M1. cbn [List.app snd] in M1.
          rewrite <- app_assoc, M1.
          unfold stat. cbn [lookup]. now rewrite F.
        - rewrite orb_false_r, <- Hm.
          destruct (kind_eq_dec (stat (fs st1) ((comps dst ++ r) ++ c :: q))
                                (stat (fs st) ((comps dst ++ r) ++ c :: q))) as [E|N];
            [assumption|exfalso].
          destruct (C1 _ N) as [Hu|[Hu _]]; rewrite app_assoc in Hu;
            rewrite is_prefix_app_cancel in Hu; cbn [is_prefix] in Hu;
            apply andb_true_iff in Hu as [Hu _].
          + rewrite String.eqb_sym in Hu. congruence.
          + congruence. }
      destruct (IH (es1 ++ [(k, Dir es_k)]) st1 Hes' Hall' HP1 Hm1) as (st' & R' & A & B & C & E).
      exists st'. rewrite R'. repeat split; try assumption; try apply B; [congruence|].
      eapply changes_trans; [|exact E].
      apply (changes_weaken (comps dst ++ (r ++ [k]))); [|assumption].
      rewrite app_assoc. apply is_prefix_app.
Qed.

(** The copy of a subtree to a place that does not exist. *)
Lemma run_fresh n : fresh_run src dst n0 n.
Proof.
  induction n as [d|es0 IH] using node_induction; intros top r es st E Hv HP Hcr Hnone;
    [discriminate|]. injection E as ->.
  cbn [walk_nodes map run_list]. unfold yielded at 1. cbn [fst snd].
  destruct (copy_dir_fresh top r es st Hv HP Hcr Hnone) as (st1 & -> & HP1 & Hm1 & O1 & C1).
  assert (Hm1' : mirrored (comps dst ++ r) es (filenames es ++ dirnames []) (fs st1))
    by (cbn; now rewrite app_nil_r).
  destruct (run_kids_fresh top r es Hv es [] st1 eq_refl IH HP1 Hm1')
    as (st' & -> & HP' & [HT Hm'] & O' & C').
  exists st'. split; [reflexivity|]. split; [congruence|]. split.
  - intros [|c q]; [now rewrite !app_nil_r|].
    rewrite app_assoc, Hm'. destruct (mem c _) eqn:Em; [reflexivity|].
    unfold stat. cbn [lookup]. destruct (alist_find c es) as [ch|] eqn:F; [|reflexivity].
    apply find_listed in F. congruence.
  - eapply changes_trans; eassumption.
Qed.

(** [_copy_tree] to a target that does not exist and can be created: the
    call returns, nothing is printed, the target mirrors the source, and
    nothing changes but under the target and its missing ancestors. *)
Lemma copy_tree_fresh fuel es0 st :
  (src =? "") = false -> n0 = Dir es0 -> src_fixed (comps src) n0 st ->
  count_dirs n0 < fuel ->
  creatable (fs st) (comps dst) -> stat (fs st) (comps dst) = None ->
  exists st', _copy_tree fuel src dst st = Done st'
    /\ stdout st' = stdout st
    /\ (forall q, stat (fs st') (comps dst ++ q) = stat n0 q)
    /\ changes_under (comps dst) (fs st) (fs st').
Proof.
  intros Hs E HP Hfuel Hcr Hnone.
  destruct (copy_tree_run src dst n0 Hs dst_ne wf0 apart fuel es0 st E HP Hfuel) as [-> _].
  assert (Hv : pending (comps src) n0 (src, @nil string, es0)).
  { repeat split; cbn [fst snd]; [assumption|now rewrite app_nil_r|now subst]. }
  destruct (run_fresh n0 src [] es0 st E Hv HP) as (st' & R & O & M & C);
    try (rewrite app_nil_r; assumption).
  rewrite app_nil_r in C. exists st'. repeat split; assumption.
Qed.

End FreshTarget.

(** ** C10: the directories of the source are created under the target *)

Lemma makedirs_ok fs dst fs1 :
  makedirs fs dst = Ok fs1 ->
  (dst =? "") = false /\ makedirs_at fs (comps dst) = Ok fs1 /\ isdir fs1 dst = true.
Proof.
  unfold makedirs. destruct (dst =? "") eqn:E; [discriminate|]. intros M.
  repeat split; try assumption. apply isdir_stat. split; [assumption|].
  apply (makedirs_at_dirs _ _ _ _ M). apply is_prefix_refl.
Qed.

Lemma creatable_of_makedirs f w f' : makedirs_at f w = Ok f' -> creatable f w.
Proof. intros M q Hq. exact (makedirs_at_pre _ _ _ _ M Hq). Qed.

Lemma exists_false_none fs p : (p =? "") = false -> exists_ fs p = false -> stat fs (comps p) = None.
Proof.
  intros Hp Hex. destruct (stat fs (comps p)) eqn:E; [|reflexivity].
  assert (exists_ fs p = true); [|congruence]. apply exists_stat. split; congruence.
Qed.

(** C10. [_copy_tree] on a source directory that lies apart from the
    target, with fuel for the walk: the call returns or raises (the fuel is
    not used up).  When it returns, every directory of the source, the empty
    ones included, is a directory at the same relative position under the
    target.  It raises only where [makedirs] fails on the directory that
    corresponds to a directory of the source (a regular file is in the way).
    Where the target does not exist yet and can be created, the call returns,
    prints nothing, and under the target there is then exactly what the
    source holds: the same directories, empty ones included, and the same
    files with their data. *)
Theorem copy_tree_replicates_directories fuel src dst st es0 :
  (src =? "") = false -> (dst =? "") = false ->
  lookup (fs st) (comps src) = Some (Dir es0) ->
  wf_node (Dir es0) = true ->
  disjoint (comps src) (comps dst) = true ->
  count_dirs (Dir es0) < fuel ->
  ((exists st', _copy_tree fuel src dst st = Done st'
      /\ forall r es, lookup (Dir es0) r = Some (Dir es) ->
           stat (fs st') (comps dst ++ r) = Some KDir)
   \/ (exists e st' r es, _copy_tree fuel src dst st = Raised e st'
         /\ lookup (Dir es0) r = Some (Dir es)
         /\ makedirs_at (fs st') (comps dst ++ r) = Raise e))
  /\ (forall fs1, exists_ (fs st) dst = false -> makedirs (fs st) dst = Ok fs1 ->
      exists st', _copy_tree fuel src dst st = Done st'
        /\ stdout st' = stdout st
        /\ forall q, stat (fs st') (comps dst ++ q) = stat (Dir es0) q).
Proof.
  intros Hs Hd HP Hwf Hap Hfuel. split.
  - destruct (copy_tree_run src dst (Dir es0) Hs Hd Hwf Hap fuel es0 st eq_refl HP Hfuel)
      as [-> Hpend].
    pose proof (run_copy_nodes src dst (Dir es0) Hd Hwf Hap _ Hpend st HP) as R.
    destruct (run_list _ _ st) as [st'|e st'|]; [left|right|contradiction].
    + exists st'. split; [reflexivity|]. intros r es Hl.
      destruct (visit_complete r src [] es0 es Hl) as [top Hin].
      destruct R as (_ & _ & Hall). now destruct (Hall _ Hin) as [A _].
    + destruct R as (v & Hin & M). rewrite Forall_forall in Hpend.
      destruct (Hpend v Hin) as (_ & _ & Hl). exists e, st', (snd (fst v)), (snd v). auto.
  - intros fs1 Hex M. destruct (makedirs_ok _ _ _ M) as (_ & M' & _).
    destruct (copy_tree_fresh src dst (Dir es0) Hd Hwf Hap fuel es0 st Hs eq_refl HP Hfuel
                (creatable_of_makedirs _ _ _ M') (exists_false_none _ _ Hd Hex))
      as (st' & R & O & Mi & _).
    exists st'. auto.
Qed.

(** ** The copy of a directory source *)

Lemma copy_path_dir fuel dst p st :
  (dst =? "") = false -> isdir (fs st) p = true ->
  copy_path fuel (Some dst) p st = _copy_tree fuel p (target_of dst p) st.
Proof. intros Hd Hp. unfold copy_path, dst_or. now rewrite Hd, Hp. Qed.


(** ** Invariants of the walk, whatever the body does to the tree *)

Lemma os_walk_invariant (I : appstate -> Prop) (G : string -> Prop) body :
  (forall top dirs nondirs st,
     I st -> G top -> scandir (fs st) top = Ok (dirs, nondirs) ->
     holds I (body top dirs nondirs st)) ->
  (forall top dirs nondirs st name,
     I st -> G top -> scandir (fs st) top = Ok (dirs, nondirs) ->
     In name dirs -> G (join top name)) ->
  forall fuel stack st, I st -> Forall G stack -> holds I (os_walk body fuel stack st).
Proof.
  intros Hbody Hpush. induction fuel as [|fuel IH]; intros stack st HI HG; [assumption|].
  destruct stack as [|top rest]; [assumption|]. cbn [os_walk].
  inversion HG as [|? ? Ht Hrest]; subst.
  destruct (scandir (fs st) top) as [[dirs nondirs]|e] eqn:Sc; [|now apply IH].
  pose proof (Hbody top dirs nondirs st HI Ht Sc) as Hb.
  destruct (body top dirs nondirs st) as [st'|e st'|st']; try assumption.
  apply IH; [assumption|]. apply Forall_app. split; [|assumption].
  apply Forall_forall. intros x Hx. apply in_map_iff in Hx as (name & <- & Hin).
  exact (Hpush top dirs nondirs st name HI Ht Sc Hin).
Qed.

Lemma scandir_names fs top dirs nondirs :
  wf_node fs = true -> scandir fs top = Ok (dirs, nondirs) ->
  (top =? "") = false
  /\ Forall (fun c => valid_name c = true) dirs
  /\ Forall (fun c => valid_name c = true) nondirs.
Proof.
  intros Hwf Sc. unfold scandir in Sc.
  destruct (resolve fs top) as [[d|es]|] eqn:R; try discriminate.
  injection Sc as <- <-. pose proof (resolve_some_nonempty _ _ _ R) as Hne.
  rewrite resolve_nonempty in R by assumption.
  pose proof (wf_lookup _ _ _ Hwf R) as Hes.
  split; [assumption|]. split; apply Forall_forall; intros k Hk.
  - apply in_dirnames in Hk as [es' Hk]. now destruct (wf_entry _ _ _ Hes Hk).
  - apply in_filenames in Hk as [d Hk]. now destruct (wf_entry _ _ _ Hes Hk).
Qed.

Lemma below_join S0 top name :
  below S0 top -> valid_name name = true -> below S0 (join top name).
Proof.
  intros (Hne & r & Hc & Hr) Hn. destruct (valid_name_inv _ Hn) as (En & _).
  split; [now apply join_nonempty|]. exists (r ++ [name]).
  split; [rewrite comps_join, Hc by assumption; now rewrite app_assoc|].
  apply Forall_app. split; [assumption|now repeat constructor].
Qed.

(** ** Every write of the copier lands under the destination *)

Lemma same_session_refl st : same_session st st.
Proof. now repeat split. Qed.

Section CopyFrame.

Variable D : list string.
Variable st0 : appstate.

Lemma copy_inv_write st w d fs' :
  copy_inv D st0 st -> write_at (fs st) (comps w) d = Ok fs' -> is_prefix D (comps w) = true ->
  copy_inv D st0 (with_fs fs' st).
Proof.
  intros (Hwf & Hch & Hs) W Hw. repeat split; try apply Hs.
  - exact (wf_write_at _ _ _ _ Hwf (comps_valid w) W).
  - eapply changes_trans; [exact Hch|]. exact (changes_write _ _ _ _ _ W Hw).
Qed.

Lemma copy_inv_makedirs st w fs' :
  copy_inv D st0 st -> makedirs_at (fs st) (comps w) = Ok fs' -> is_prefix D (comps w) = true ->
  copy_inv D st0 (with_fs fs' st).
Proof.
  intros (Hwf & Hch & Hs) M Hw. repeat split; try apply Hs.
  - exact (wf_makedirs_at _ _ _ Hwf (comps_valid w) M).
  - eapply changes_trans; [exact Hch|]. exact (changes_makedirs _ _ _ _ M Hw).
Qed.

Lemma copy_inv_print st l : copy_inv D st0 st -> copy_inv D st0 (print l st).
Proof. intros (Hwf & Hch & Hs). repeat split; try assumption; apply Hs. Qed.

Lemma copy_file_inv root tr st f :
  valid_name f = true -> is_prefix D (comps tr) = true ->
  copy_inv D st0 st -> copy_inv D st0 (copy_file root tr st f).
Proof.
  intros Hf Htr HI.
  destruct (copy_file_cases root tr st f Hf) as [[e ->]|(d & fs' & _ & W & ->)].
  - now apply copy_inv_print.
  - eapply copy_inv_write; [exact HI|exact W|].
    destruct (written_path_comps (fs st) tr f Hf) as (x & _ & ->).
    eapply is_prefix_trans; [exact Htr|apply is_prefix_app].
Qed.

Lemma copy_files_inv root tr fl : forall st,
  Forall (fun c => valid_name c = true) fl -> is_prefix D (comps tr) = true ->
  copy_inv D st0 st -> copy_inv D st0 (fold_left (copy_file root tr) fl st).
Proof.
  induction fl as [|f fl IH]; intros st Hfl Htr HI; [assumption|].
  inversion Hfl; subst. cbn [fold_left]. apply IH; try assumption.
  now apply copy_file_inv.
Qed.

Variables src dst : string.
Hypothesis dst_ne : (dst =? "") = false.
Hypothesis dst_under : is_prefix D (comps dst) = true.

Lemma copy_dir_inv top dirs nondirs st :
  copy_inv D st0 st -> below (comps src) top -> scandir (fs st) top = Ok (dirs, nondirs) ->
  holds (copy_inv D st0) (copy_dir src dst top dirs nondirs st).
Proof.
  intros HI (Hne & r & Hc & Hr) Sc.
  destruct (scandir_names _ _ _ _ (proj1 HI) Sc) as (_ & _ & Hfiles).
  destruct (target_root_comps top src dst r Hc Hr dst_ne) as [Htr Htne].
  unfold copy_dir.
  set (tr := if negb (relpath top src =? ".") then join dst (relpath top src) else dst) in *.
  assert (Hunder : is_prefix D (comps tr) = true).
  { rewrite Htr. eapply is_prefix_trans; [exact dst_under|apply is_prefix_app]. }
  unfold makedirs. rewrite Htne.
  destruct (makedirs_at (fs st) (comps tr)) as [fs1|e] eqn:M; [|exact HI].
  cbn [holds]. apply copy_files_inv; try assumption.
  now apply (copy_inv_makedirs st tr).
Qed.

Lemma copy_tree_inv fuel st :
  copy_inv D st0 st -> holds (copy_inv D st0) (_copy_tree fuel src dst st).
Proof.
  intros HI. unfold _copy_tree. destruct (exists_ (fs st) src) eqn:Hex; [|exact HI].
  cbn [negb]. apply exists_stat in Hex as [Hne _].
  apply (os_walk_invariant (copy_inv D st0) (below (comps src))); try assumption.
  - intros top dirs nondirs s HIs Hb Sc. now apply copy_dir_inv.
  - intros top dirs nondirs s name HIs Hb Sc Hin.
    destruct (scandir_names _ _ _ _ (proj1 HIs) Sc) as (_ & Hdirs & _).
    rewrite Forall_forall in Hdirs. apply below_join; auto.
  - constructor; [|constructor]. split; [assumption|]. exists [].
    split; [now rewrite app_nil_r|constructor].
Qed.

End CopyFrame.

(** ** The batch of [_copy_paths_thread] *)

Lemma basename_nosep p : has_sep (basename p) = false.
Proof.
  unfold basename. induction p as [|c p IH]; [reflexivity|]. cbn [rsplit_sep].
  destruct (rsplit_sep p) as [h t]. cbn [snd] in *.
  destruct (is_sep c) eqn:E; [assumption|].
  destruct (h =? ""); cbn [snd has_sep]; [now rewrite E|assumption].
Qed.

(** Joining a name without separator adds one step of [normpath]. *)
Lemma comps_join_step a b :
  has_sep b = false -> comps (join a b) = rev (norm_step (rev (comps a)) b).
Proof.
  intros Hb. unfold join. rewrite (nosep_starts b Hb).
  destruct (a =? "") eqn:Ea.
  - apply String.eqb_eq in Ea. subst a. cbn [orb String.append].
    unfold comps. now rewrite (split_sep_nosep b Hb).
  - cbn [orb]. destruct (ends_with_sep a) eqn:Ee.
    + destruct (ends_with_sep_inv a Ee) as [a' ->]. rewrite append_assoc.
      change ("/" +++ b) with (String "/" b). change (a' +++ "/") with (a' +++ String "/" "").
      unfold comps. rewrite !split_sep_app, (split_sep_nosep b Hb).
      cbn [split_sep]. rewrite norm_snoc_empty, fold_left_app, rev_involutive. reflexivity.
    + change ("/" +++ b) with (String "/" b).
      unfold comps. rewrite split_sep_app, (split_sep_nosep b Hb).
      now rewrite fold_left_app, rev_involutive.
Qed.

Lemma join_comparable a b :
  has_sep b = false ->
  is_prefix (comps a) (comps (join a b)) = true
  \/ is_prefix (comps (join a b)) (comps a) = true.
Proof.
  intros Hb. rewrite (comps_join_step a b Hb). unfold norm_step.
  destruct ((b =? "") || (b =? ".")).
  - left. rewrite rev_involutive. apply is_prefix_refl.
  - destruct (b =? "..").
    + right. rewrite <- (rev_involutive (comps a)) at 2.
      destruct (rev (comps a)) as [|x acc]; [reflexivity|]. cbn [tl rev]. apply is_prefix_app.
    + left. cbn [rev]. rewrite rev_involutive. apply is_prefix_app.
Qed.

(** [copy2] that returns has written the data of the source. *)
Lemma copy2_ok fs s d fs' :
  copy2 fs s d = Ok fs' ->
  exists x, resolve fs s = Some (File x)
    /\ write_at fs (comps (if isdir fs d then join d (basename s) else d)) x = Ok fs'.
Proof.
  unfold copy2. set (w := if isdir fs d then join d (basename s) else d).
  destruct (exists_ fs s && exists_ fs w && same_comps (comps s) (comps w)); [discriminate|].
  destruct (resolve fs s) as [[x|es]|]; try discriminate.
  destruct (w =? ""); [discriminate|]. eauto.
Qed.

Lemma dir_name_nosep p : has_sep (dir_name p) = false.
Proof.
  unfold dir_name, str_or. destruct (basename (rstrip_sep p) =? ""); [reflexivity|].
  apply basename_nosep.
Qed.

Lemma dir_name_nonempty p : (dir_name p =? "") = false.
Proof.
  unfold dir_name, str_or. destruct (basename (rstrip_sep p) =? "") eqn:E; [reflexivity|].
  exact E.
Qed.

(** The target of a directory source lies under the destination, or is the
    destination itself, unless the name of the source is [..]. *)
Lemma target_under dst p :
  dir_name p <> ".." -> is_prefix (comps dst) (comps (target_of dst p)) = true.
Proof.
  intros Hn. unfold target_of. rewrite (comps_join_step dst _ (dir_name_nosep p)).
  unfold norm_step. rewrite (dir_name_nonempty p). cbn [orb].
  destruct (dir_name p =? ".").
  - rewrite rev_involutive. apply is_prefix_refl.
  - apply String.eqb_neq in Hn. rewrite Hn. cbn [rev]. rewrite rev_involutive.
    apply is_prefix_app.
Qed.

Lemma copy_path_inv fuel dst p st0 st :
  (dst =? "") = false -> dir_name p <> ".." ->
  copy_inv (comps dst) st0 st ->
  holds (copy_inv (comps dst) st0) (copy_path fuel (Some dst) p st).
Proof.
  intros Hd Hname HI. unfold copy_path, dst_or. rewrite Hd.
  destruct (isdir (fs st) p).
  - fold (dir_name p). apply copy_tree_inv; try assumption.
    + apply join_nonempty, dir_name_nonempty.
    + now apply target_under.
  - destruct (makedirs (fs st) dst) as [fs1|e] eqn:M; [|exact HI].
    destruct (makedirs_ok _ _ _ M) as (_ & M' & Hdir).
    assert (HI1 : copy_inv (comps dst) st0 (with_fs fs1 st)).
    { apply (copy_inv_makedirs _ _ st dst); try assumption. apply is_prefix_refl. }
    destruct (copy2 fs1 p dst) as [fs2|e] eqn:C; cbn [holds];
      [|now apply copy_inv_print].
    destruct (copy2_ok _ _ _ _ C) as (x & _ & W). rewrite Hdir in W.
    destruct (join_comparable dst (basename p) (basename_nosep p)) as [Hu|Hu].
    + exact (copy_inv_write _ _ (with_fs fs1 st) _ x fs2 HI1 W Hu).
    + apply write_at_pre in W. exfalso. apply W.
      exact (makedirs_at_dirs _ _ _ _ M' Hu).
Qed.

Lemma copy_paths_inv fuel dst paths st0 : forall st,
  (dst =? "") = false -> Forall (fun p => dir_name p <> "..") paths ->
  copy_inv (comps dst) st0 st ->
  holds (copy_inv (comps dst) st0) (copy_paths fuel (Some dst) paths st).
Proof.
  induction paths as [|p paths IH]; intros st Hd Hall HI; [assumption|].
  inversion Hall; subst. cbn [copy_paths].
  pose proof (copy_path_inv fuel dst p st0 st Hd H1 HI) as Hp.
  destruct (copy_path fuel (Some dst) p st) as [st1|e st1|st1]; cbn [andthen]; try assumption.
  now apply IH.
Qed.

(** Source paths apart from where the changes are allowed do not change. *)
Lemma changes_apart D S0 f f' q :
  changes_under D f f' -> disjoint S0 D = true -> is_prefix S0 q = true ->
  stat f' q = stat f q.
Proof.
  intros Hch Hap Hq. destruct (kind_eq_dec (stat f' q) (stat f q)) as [E|N]; [assumption|].
  unfold disjoint in Hap. apply andb_true_iff in Hap as [A B]. apply negb_true_iff in A, B.
  destruct (Hch q N) as [Hu|[Hu _]].
  - destruct (is_prefix_linear _ _ _ Hq Hu); congruence.
  - rewrite (is_prefix_trans _ _ _ Hq Hu) in A. discriminate.
Qed.

(** ** C6: what a batch copy touches *)

(** C6, as stated, fails: with the destination chosen inside the source
    volume, the batch creates files under the source path; and with a source
    path that ends in [..], the files are written to the parent of the
    destination, not under it. *)
Lemma copy_into_source_changes_source :
  (exists st',
     _copy_paths_thread 10 ["/media/usb"] (Some "/media/usb/out") Trial.st_usb = Done st'
     /\ is_prefix (comps "/media/usb") (comps "/media/usb/out/usb/photo.jpg") = true
     /\ stat (fs Trial.st_usb) (comps "/media/usb/out/usb/photo.jpg") = None
     /\ stat (fs st') (comps "/media/usb/out/usb/photo.jpg") = Some (KFile "P"))
  /\ (exists st',
        _copy_paths_thread 10 ["/media/usb/docs/.."] (Some "/out") Trial.st_usb = Done st'
        /\ isdir (fs Trial.st_usb) "/media/usb/docs/.." = true
        /\ is_prefix (comps "/out") (comps "/photo.jpg") = false
        /\ stat (fs Trial.st_usb) (comps "/photo.jpg") = None
        /\ stat (fs st') (comps "/photo.jpg") = Some (KFile "P")).
Proof. split; eexists; repeat split; vm_compute; reflexivity. Qed.

Lemma thread_fs fuel paths o st (I : node -> Prop) :
  holds (fun s => I (fs s)) (copy_paths fuel o paths (set_status "Copie en cours..." st)) ->
  holds (fun s => I (fs s)) (_copy_paths_thread fuel paths o st).
Proof.
  unfold _copy_paths_thread.
  destruct (copy_paths fuel o paths (set_status "Copie en cours..." st)); exact (fun H => H).
Qed.

(** C6, amended. In every state a batch copy reaches from a well-formed
    file system, with a destination written without [..] and with source
    paths whose name is not [..]: a node is created, changed or deleted only
    under the destination, or it is a missing ancestor of the destination
    that is created; and under a source path that neither contains the
    destination nor lies within it, no file and no directory is created,
    changed or deleted. *)
Theorem copy_batch_writes_under_destination fuel paths dst st :
  (dst =? "") = false -> has_dotdot dst = false -> wf_node (fs st) = true ->
  Forall (fun p => dir_name p <> "..") paths ->
  holds (fun st' =>
           changes_under (comps dst) (fs st) (fs st')
           /\ forall p q, In p paths -> disjoint (comps p) (comps dst) = true ->
                is_prefix (comps p) q = true -> stat (fs st') q = stat (fs st) q)
        (_copy_paths_thread fuel paths (Some dst) st).
Proof.
  intros Hd _ Hwf Hall.
  apply (thread_fs fuel paths (Some dst) st
           (fun f => changes_under (comps dst) (fs st) f
                     /\ forall p q, In p paths -> disjoint (comps p) (comps dst) = true ->
                          is_prefix (comps p) q = true -> stat f q = stat (fs st) q)).
  set (sta := set_status "Copie en cours..." st).
  assert (HI : copy_inv (comps dst) sta sta).
  { repeat split; [assumption|apply changes_refl]. }
  pose proof (copy_paths_inv fuel dst paths sta sta Hd Hall HI) as H.
  assert (K : forall s, copy_inv (comps dst) sta s ->
                changes_under (comps dst) (fs st) (fs s)
                /\ forall p q, In p paths -> disjoint (comps p) (comps dst) = true ->
                     is_prefix (comps p) q = true -> stat (fs s) q = stat (fs st) q).
  { intros s (_ & Hch & _). split; [exact Hch|]. intros p q _ Hap Hq.
    exact (changes_apart _ _ _ _ _ Hch Hap Hq). }
  destruct (copy_paths fuel (Some dst) paths sta); cbn [holds] in *; now apply K.
Qed.

(** ** C7: an exception in the batch *)

Lemma same_session_trans a b c : same_session a b -> same_session b c -> same_session a c.
Proof. unfold same_session. intuition congruence. Qed.

Lemma copy_file_session root tr st f : same_session st (copy_file root tr st f).
Proof. unfold copy_file. destruct (copy2 _ _ _); now repeat split. Qed.

Lemma copy_files_session root tr fl : forall st,
  same_session st (fold_left (copy_file root tr) fl st).
Proof.
  induction fl as [|f fl IH]; intros st; [apply same_session_refl|]. cbn [fold_left].
  eapply same_session_trans; [apply copy_file_session|apply IH].
Qed.

Lemma copy_tree_session fuel src dst st0 st :
  same_session st0 st -> holds (same_session st0) (_copy_tree fuel src dst st).
Proof.
  intros H. unfold _copy_tree. destruct (negb (exists_ (fs st) src)); [assumption|].
  apply (os_walk_invariant (same_session st0) (fun _ => True)); auto.
  - intros top dirs nondirs s Hs _ _. unfold copy_dir.
    destruct (makedirs (fs s) _) as [fs1|e]; [|assumption]. cbn [holds].
    eapply same_session_trans; [|apply copy_files_session].
    eapply same_session_trans; [exact Hs|now repeat split].
Qed.

Lemma copy_path_session fuel o p st0 st :
  same_session st0 st -> holds (same_session st0) (copy_path fuel o p st).
Proof.
  intros H. unfold copy_path. destruct (dst_or o (destination st)) as [dst|]; [|assumption].
  destruct (isdir (fs st) p); [now apply copy_tree_session|].
  destruct (makedirs (fs st) dst) as [fs1|e]; [|assumption].
  destruct (copy2 fs1 p dst); cbn [holds];
    (eapply same_session_trans; [exact H|now repeat split]).
Qed.

Lemma copy_paths_session fuel o paths st0 : forall st,
  same_session st0 st -> holds (same_session st0) (copy_paths fuel o paths st).
Proof.
  induction paths as [|p paths IH]; intros st H; [assumption|]. cbn [copy_paths].
  pose proof (copy_path_session fuel o p st0 st H) as Hp.
  destruct (copy_path fuel o p st) as [st1|e st1|st1]; cbn [andthen]; try assumption.
  now apply IH.
Qed.

(** C7. No exception leaves [_copy_paths_thread]; and when one is raised in
    the batch, the call returns with the status set to the error text and
    with one notification more than before, the error box that carries the
    exception: the thread ends normally and the session goes on. *)
Theorem copy_thread_catches_exceptions fuel paths override st :
  (forall e s, _copy_paths_thread fuel paths override st <> Raised e s)
  /\ forall e st',
       copy_paths fuel override paths (set_status "Copie en cours..." st) = Raised e st' ->
       exists st'', _copy_paths_thread fuel paths override st = Done st''
         /\ status_label st'' = "Statut: Erreur lors de la copie"
         /\ boxes st''
            = boxes st ++ [ShowError "Erreur" "Une erreur est survenue pendant la copie: " e]
         /\ fs st'' = fs st' /\ tree st'' = tree st
         /\ drive_var st'' = drive_var st /\ destination st'' = destination st.
Proof.
  split.
  - intros e s. unfold _copy_paths_thread.
    destruct (copy_paths _ _ _ _); cbn [andthen]; discriminate.
  - intros e st' R.
    pose proof (copy_paths_session fuel override paths _ _
                  (same_session_refl (set_status "Copie en cours..." st))) as H.
    rewrite R in H. destruct H as (Ht & _ & Hb & Hd & Hdest).
    unfold _copy_paths_thread. rewrite R. cbn [andthen]. eexists. split; [reflexivity|].
    cbn. rewrite Hb, Ht, Hd, Hdest. now repeat split.
Qed.

Lemma copy_thread_catches_witness :
  copy_paths 5 (Some "/out/sub") ["/a.txt"] (set_status "Copie en cours..." Trial.st_blocked)
  = Raised NotADirectoryError (set_status "Copie en cours..." Trial.st_blocked)
  /\ exists st'', _copy_paths_thread 5 ["/a.txt"] (Some "/out/sub") Trial.st_blocked = Done st''
       /\ status_label st'' = "Statut: Erreur lors de la copie"
       /\ boxes st''
          = boxes Trial.st_blocked
            ++ [ShowError "Erreur" "Une erreur est survenue pendant la copie: " NotADirectoryError]
       /\ fs st'' = fs (set_status "Copie en cours..." Trial.st_blocked)
       /\ tree st'' = tree Trial.st_blocked
       /\ drive_var st'' = drive_var Trial.st_blocked
       /\ destination st'' = destination Trial.st_blocked.
Proof.
  split; [reflexivity|].
  apply (proj2 (copy_thread_catches_exceptions 5 ["/a.txt"] (Some "/out/sub") Trial.st_blocked)).
  reflexivity.
Defined.

(** ** C9: a source that does not exist *)

Lemma exists_false_stat fs p :
  exists_ fs p = false -> (p =? "") = true \/ stat fs (comps p) = None.
Proof.
  unfold exists_, resolve, stat. destruct (p =? ""); [now left|].
  destruct (lookup fs (comps p)); [discriminate|now right].
Qed.

Lemma missing_at_cases p : forall n,
  missing_at n p = FileNotFoundError \/ missing_at n p = NotADirectoryError.
Proof.
  induction p as [|c p IH]; intros n; cbn [missing_at]; [now left|].
  destruct n as [d|es]; [now right|]. destruct (alist_find c es); [apply IH|now left].
Qed.

Lemma open_error_cases fs p :
  open_error fs p = FileNotFoundError \/ open_error fs p = NotADirectoryError.
Proof. unfold open_error. destruct (p =? ""); [now left|apply missing_at_cases]. Qed.

(** [copy2] from a path that did not exist before [makedirs] raises; where
    [makedirs] did not create the path either, it raises what [open] raises
    on the source. *)
Lemma copy2_missing_source fs p dst fs1 :
  exists_ fs p = false -> makedirs_at fs (comps dst) = Ok fs1 ->
  exists e, copy2 fs1 p dst = Raise e
            /\ (is_prefix (comps p) (comps dst) = false -> e = open_error fs1 p).
Proof.
  intros Hex M. unfold copy2.
  destruct (resolve fs1 p) as [[d|es]|] eqn:R.
  - exfalso. pose proof (resolve_some_nonempty _ _ _ R) as Hne.
    rewrite resolve_nonempty in R by assumption.
    destruct (exists_false_stat _ _ Hex) as [E|E]; [congruence|].
    assert (S1 : stat fs1 (comps p) = Some (KFile d)) by (unfold stat; now rewrite R).
    destruct (is_prefix (comps p) (comps dst)) eqn:Hp.
    + rewrite (makedirs_at_dirs _ _ _ _ M Hp) in S1. discriminate.
    + rewrite (stat_lookup_eq _ _ _ (makedirs_at_frame _ _ _ _ M Hp)) in S1. congruence.
  - destruct (_ && _ && _); eexists; (split; [reflexivity|]); intros Hp; exfalso;
      pose proof (resolve_some_nonempty _ _ _ R) as Hne;
      rewrite resolve_nonempty in R by assumption;
      (destruct (exists_false_stat _ _ Hex) as [E|E]; [congruence|]);
      unfold stat in E; rewrite <- (makedirs_at_frame _ _ _ _ M Hp) in E;
      rewrite R in E; discriminate.
  - unfold exists_ at 1. rewrite R. cbn [andb]. eauto.
Qed.

(** C9. For a source path that is not a directory the copier takes the
    branch of the plain files: [makedirs] runs on the destination first
    (written without [..]), and where it returns the destination is a
    directory from then on; the call returns whether the copy of the file
    fails or not, and the batch goes on with the other sources from the
    state reached.  For a source path that does not exist the copy of the
    file raises: exactly one line is printed, with the path and the
    exception; the file system is the one [makedirs] left, where the
    destination and its ancestors are directories and every other path is as
    before; and nothing else changes in the session.  Unless the source is
    an ancestor of the destination, which [makedirs] has just created, the
    exception is the one of [open] on the source (written without [..]): a
    missing entry, or a regular file on the way. *)
Theorem missing_source_still_creates_destination fuel dst p rest st fs1 :
  has_dotdot dst = false ->
  isdir (fs st) p = false ->
  makedirs (fs st) dst = Ok fs1 ->
  exists st',
    copy_path fuel (Some dst) p st = Done st'
    /\ isdir fs1 dst = true /\ isdir (fs st') dst = true
    /\ copy_paths fuel (Some dst) (p :: rest) st = copy_paths fuel (Some dst) rest st'
    /\ (exists_ (fs st) p = false ->
        exists e,
          fs st' = fs1
          /\ stdout st' = stdout st ++ [ErreurCopieFichier p e]
          /\ same_session st st'
          /\ (forall q, is_prefix q (comps dst) = true -> stat (fs st') q = Some KDir)
          /\ (forall q, is_prefix q (comps dst) = false -> stat (fs st') q = stat (fs st) q)
          /\ (has_dotdot p = false -> is_prefix (comps p) (comps dst) = false ->
              e = open_error fs1 p
              /\ (e = FileNotFoundError \/ e = NotADirectoryError))).
Proof.
  intros _ Hnd M. destruct (makedirs_ok _ _ _ M) as (Hd & M' & Hdir).
  assert (E : copy_path fuel (Some dst) p st
              = Done (match copy2 fs1 p dst with
                      | Ok fs2 => with_fs fs2 st
                      | Raise e => print (ErreurCopieFichier p e) (with_fs fs1 st)
                      end)).
  { unfold copy_path, dst_or. rewrite Hd, Hnd, M. now destruct (copy2 fs1 p dst). }
  eexists. split; [exact E|]. split; [assumption|]. split; [|split].
  - destruct (copy2 fs1 p dst) as [fs2|e] eqn:C; cbn [fs print with_fs]; [|assumption].
    destruct (copy2_ok _ _ _ _ C) as (x & _ & W).
    apply isdir_stat. split; [assumption|]. apply (write_grows _ _ _ _ W).
    now apply isdir_stat in Hdir.
  - cbn [copy_paths]. now rewrite E.
  - intros Hex. destruct (copy2_missing_source _ _ _ _ Hex M') as (e & -> & He).
    exists e. cbn [fs stdout print with_fs]. split; [reflexivity|]. split; [reflexivity|].
    split; [now repeat split|]. split; [|split].
    + intros q Hq. exact (makedirs_at_dirs _ _ _ _ M' Hq).
    + intros q Hq. exact (stat_lookup_eq _ _ _ (makedirs_at_frame _ _ _ _ M' Hq)).
    + intros _ Hp. rewrite (He Hp). split; [reflexivity|apply open_error_cases].
Qed.

Lemma missing_source_witness :
  exists st',
    copy_path 3 (Some "/out/x/y") "/nothere" Trial.st_usb = Done st'
    /\ isdir (fs st') "/out/x/y" = true
    /\ copy_paths 3 (Some "/out/x/y") ["/nothere"; "/media/usb/notes"] Trial.st_usb
       = copy_paths 3 (Some "/out/x/y") ["/media/usb/notes"] st'
    /\ stdout st' = [ErreurCopieFichier "/nothere" FileNotFoundError]
    /\ stat (fs Trial.st_usb) ["out"; "x"] = None
    /\ stat (fs st') ["out"; "x"] = Some KDir.
Proof.
  destruct (missing_source_still_creates_destination 3 "/out/x/y" "/nothere"
              ["/media/usb/notes"] Trial.st_usb _ eq_refl eq_refl eq_refl)
    as (st' & H1 & _ & H2 & H3 & H4).
  destruct (H4 eq_refl) as (e & _ & H5 & _ & H6 & _ & H7).
  destruct (H7 eq_refl eq_refl) as [H8 _]. rewrite H8 in H5.
  exists st'. split; [exact H1|]. split; [exact H2|]. split; [exact H3|].
  split; [exact H5|]. split; [reflexivity|exact (H6 ["out"; "x"] eq_refl)].
Defined.

Example missing_source_on_the_key :
  exists_ (fs Trial.st_usb) "/nothere" = false
  /\ isdir (fs Trial.st_usb) "/out/x/y" = false
  /\ exists st',
       _copy_paths_thread 3 ["/nothere"; "/media/usb/notes"] (Some "/out/x/y") Trial.st_usb
       = Done st'
       /\ stdout st' = [ErreurCopieFichier "/nothere" FileNotFoundError]
       /\ resolve (fs st') "/out/x/y/notes" = Some (File "N")
       /\ boxes st' = [ShowInfo "Terminé" "Copie terminée."].
Proof. split; [reflexivity|]. split; [reflexivity|]. eexists. repeat split; reflexivity. Qed.

(** ** C1: a plain file over an existing file *)

(** C1 at the failing input: the destination [/dst] holds [photo.jpg]; the
    batch copy of the plain file [/src/photo.jpg] replaces its data, prints
    nothing and creates no file with the collision name. *)
Theorem plain_file_copy_replaces_existing_file :
  resolve (fs Trial.st_collision) "/dst/photo.jpg" = Some (File "OLD")
  /\ exists st',
       _copy_paths_thread 1 ["/src/photo.jpg"] (Some "/dst") Trial.st_collision = Done st'
       /\ resolve (fs st') "/dst/photo.jpg" = Some (File "NEW")
       /\ resolve (fs st') "/dst/photo_copy.jpg" = None
       /\ stdout st' = []
       /\ boxes st' = [ShowInfo "Terminé" "Copie terminée."].
Proof. split; [reflexivity|]. eexists. repeat split; reflexivity. Qed.

(** The directory branch on the same file system keeps both. *)
Example directory_copy_keeps_existing_file :
  exists st',
    _copy_tree 2 "/src" "/dst" Trial.st_collision = Done st'
    /\ resolve (fs st') "/dst/photo.jpg" = Some (File "OLD")
    /\ resolve (fs st') "/dst/photo_copy.jpg" = Some (File "NEW").
Proof. eexists. repeat split; reflexivity. Qed.

(** ** C4: the tree view of a volume *)

Lemma entries_split es : List.length (dirnames es) + List.length (filenames es) = List.length es.
Proof.
  unfold dirnames, filenames. rewrite !length_map.
  induction es as [|e es IH]; [reflexivity|]. cbn [filter].
  destruct (is_dir_entry e); cbn [negb List.length]; lia.
Qed.

(** The entries the walk reads, all directories together, are the files
    and the subdirectories of the tree. *)
Lemma walk_nodes_count n : forall top r,
  list_sum (map (fun v => List.length (snd v)) (walk_nodes top r n)) + 1
  = count_files n + count_dirs n.
Proof.
  induction n as [d|es IH] using node_induction; intros top r; [reflexivity|].
  cbn [walk_nodes map snd count_files count_dirs]. rewrite list_sum_cons.
  enough (E : list_sum (map (fun v => List.length (snd v))
                 (flat_map (fun e => if is_dir_entry e
                                     then walk_nodes (join top (fst e)) (r ++ [fst e]) (snd e)
                                     else []) es))
              + List.length es
              = list_sum (map (fun e => count_files (snd e)) es)
                + list_sum (map (fun e => count_dirs (snd e)) es)) by lia.
  induction es as [|[k ch] es IHes]; [reflexivity|].
  inversion IH as [|? ? Hch Hes]; subst. specialize (IHes Hes).
  cbn [flat_map map snd fst List.length]. rewrite map_app, list_sum_app, !list_sum_cons.
  destruct ch as [d|es']; cbn [is_dir_entry snd].
  - cbn [map list_sum fold_right count_files count_dirs]. lia.
  - specialize (Hch (join top k) (r ++ [k])). cbn [snd] in Hch. lia.
Qed.

Lemma try_insert_flat ri k st name :
  iid ri <> 0 -> flat_tree ri k (tree st) ->
  flat_tree ri (S k) (tree (try_insert (iid ri) st name))
  /\ fs (try_insert (iid ri) st name) = fs st.
Proof.
  intros Hri (kids & E & Hlen & Hall). unfold try_insert, tv_insert.
  assert (Hhas : tv_has (tree st) (iid ri) = true).
  { unfold tv_has. rewrite E. cbn [existsb]. now rewrite Nat.eqb_refl, orb_true_r. }
  rewrite Hhas. cbn [tree with_tree items fs]. split; [|reflexivity].
  exists (kids ++ [mkItem (S (last_iid (tree st))) (iid ri) name []]).
  rewrite E. split; [reflexivity|]. split; [rewrite length_app; cbn; lia|].
  apply Forall_app. split; [assumption|now repeat constructor].
Qed.

Lemma try_inserts_flat ri names : forall k st,
  iid ri <> 0 -> flat_tree ri k (tree st) ->
  flat_tree ri (k + List.length names) (tree (fold_left (try_insert (iid ri)) names st))
  /\ fs (fold_left (try_insert (iid ri)) names st) = fs st.
Proof.
  induction names as [|name names IH]; intros k st Hri Hf.
  - cbn. now rewrite Nat.add_0_r.
  - cbn [fold_left List.length]. destruct (try_insert_flat ri k st name Hri Hf) as [H1 H2].
    destruct (IH (S k) _ Hri H1) as [H3 H4]. rewrite H4, H2.
    split; [|reflexivity]. now replace (k + S (List.length names)) with (S k + List.length names) by lia.
Qed.

Lemma try_inserts_fs i names : forall s0, fs (fold_left (try_insert i) names s0) = fs s0.
Proof.
  induction names as [|x names IHn]; intros s0; [reflexivity|]. cbn [fold_left].
  rewrite IHn. unfold try_insert. now destruct (tv_insert _ _ _ _) as [[? ?]|].
Qed.

Lemma populate_dir_flat root_path ri k top es st :
  iid ri <> 0 -> flat_tree ri k (tree st) ->
  exists st', populate_dir root_path (iid ri) top (dirnames es) (filenames es) st = Done st'
    /\ flat_tree ri (k + List.length es) (tree st') /\ fs st' = fs st.
Proof.
  intros Hri Hf. unfold populate_dir.
  replace (if relpath top root_path =? "." then iid ri else iid ri) with (iid ri)
    by now destruct (relpath top root_path =? ".").
  eexists. split; [reflexivity|].
  destruct (try_inserts_flat ri (dirnames es) k st Hri Hf) as [H1 H2].
  destruct (try_inserts_flat ri (filenames es) _ _ Hri H1) as [H3 H4].
  rewrite H4, H2. split; [|reflexivity].
  now rewrite <- Nat.add_assoc, entries_split in H3.
Qed.

Lemma run_populate root_path ri nodes : forall k st,
  iid ri <> 0 -> flat_tree ri k (tree st) ->
  exists st', run_list (populate_dir root_path (iid ri)) (map yielded nodes) st = Done st'
    /\ flat_tree ri (k + list_sum (map (fun v => List.length (snd v)) nodes)) (tree st')
    /\ fs st' = fs st.
Proof.
  induction nodes as [|[[top r] es] nodes IH]; intros k st Hri Hf.
  - exists st. cbn. now rewrite Nat.add_0_r.
  - cbn [map run_list]. unfold yielded at 1. cbn [fst snd].
    destruct (populate_dir_flat root_path ri k top es st Hri Hf) as (st1 & -> & H1 & H2).
    destruct (IH _ st1 Hri H1) as (st' & -> & H3 & H4).
    exists st'. split; [reflexivity|]. rewrite H4, H2. split; [|reflexivity].
    rewrite list_sum_cons. cbn [snd]. now rewrite Nat.add_assoc.
Qed.

(** C4. For a root path that names a directory with [N] files and [M]
    subdirectories below it, at any depth, and with fuel for the walk,
    [_populate_tree] returns; the tree view then has one item under the
    invisible root, labelled with the base name of the root path or with the
    path if the base name is empty, and exactly [N + M] items under that
    item; there is no third level, and the file system is left as it was. *)
Theorem populate_tree_flattens fuel root_path st es0 :
  (root_path =? "") = false ->
  lookup (fs st) (comps root_path) = Some (Dir es0) ->
  wf_node (Dir es0) = true ->
  count_dirs (Dir es0) < fuel ->
  exists st' ri,
    _populate_tree fuel root_path st = Done st'
    /\ tv_get_children (tree st') 0 = [ri]
    /\ text ri = str_or (basename root_path) root_path
    /\ List.length (tv_get_children (tree st') (iid ri))
       = count_files (Dir es0) + (count_dirs (Dir es0) - 1)
    /\ (forall it, In it (items (tree st')) -> it = ri \/ parent it = iid ri)
    /\ fs st' = fs st.
Proof.
  intros Hne HP Hwf Hfuel. unfold _populate_tree, insert_node, tv_insert.
  cbn [tree with_tree set_status tv_delete_all tv_has items last_iid Nat.eqb orb].
  set (ri := mkItem (S (last_iid (tree st))) 0 (str_or (basename root_path) root_path)
                    [root_path]).
  set (st1 := with_tree _ _).
  assert (Hri : iid ri <> 0) by discriminate.
  assert (Hf1 : flat_tree ri 0 (tree st1)) by (exists []; now repeat split).
  assert (HP1 : src_fixed (comps root_path) (Dir es0) st1) by exact HP.
  assert (Hv : pending (comps root_path) (Dir es0) (root_path, @nil string, es0)).
  { repeat split; cbn [fst snd]; [assumption|now rewrite app_nil_r]. }
  pose proof (os_walk_run_list (populate_dir root_path (iid ri)) (comps root_path) (Dir es0)
                (src_fixed (comps root_path) (Dir es0)) Hwf (fun s H => H)) as W.
  assert (K : forall v s s', src_fixed (comps root_path) (Dir es0) s ->
                pending (comps root_path) (Dir es0) v ->
                populate_dir root_path (iid ri) (fst (fst v)) (dirnames (snd v))
                             (filenames (snd v)) s = Done s' ->
                src_fixed (comps root_path) (Dir es0) s').
  { intros v s s' Hs _ B. unfold populate_dir in B. injection B as <-.
    unfold src_fixed in *. now rewrite !try_inserts_fs. }
  specialize (W K fuel [(root_path, [], es0)] st1 HP1 (Forall_cons _ Hv (Forall_nil _))).
  cbn [map fst snd flat_map] in W. rewrite app_nil_r in W. unfold visit in W.
  cbn [fst snd] in W. change (iid ri) with (S (last_iid (tree st))) in W.
  rewrite W by (rewrite list_sum_cons; cbn [list_sum fold_right]; lia).
  destruct (run_populate root_path ri (walk_nodes root_path [] (Dir es0)) 0 st1 Hri Hf1)
    as (st2 & R & (kids & E & Hlen & Hall) & Hfs).
  change (iid ri) with (S (last_iid (tree st))) in R. rewrite R. cbn [andthen].
  pose proof (walk_nodes_count (Dir es0) root_path []) as Hc.
  exists (set_status "Arborescence chargée" st2), ri.
  cbn [tree set_status fs]. split; [reflexivity|].
  assert (Hkids0 : filter (fun it => Nat.eqb (parent it) 0) kids = []).
  { clear - Hall. induction kids as [|x kids IH]; [reflexivity|]. inversion Hall; subst.
    cbn [filter]. rewrite H1. cbn. now apply IH. }
  assert (Hkids1 : filter (fun it => Nat.eqb (parent it) (iid ri)) kids = kids).
  { clear - Hall. induction kids as [|x kids IH]; [reflexivity|]. inversion Hall; subst.
    cbn [filter]. rewrite H1, Nat.eqb_refl. f_equal. now apply IH. }
  unfold tv_get_children. rewrite E. cbn [filter parent ri iid Nat.eqb].
  repeat split.
  - now rewrite Hkids0.
  - change (S (last_iid (tree st))) with (iid ri). rewrite Hkids1. cbn [Nat.add] in Hlen.
    assert (1 <= count_dirs (Dir es0)) by (cbn [count_dirs]; lia). lia.
  - intros it [<-|Hin]; [now left|right]. rewrite Forall_forall in Hall. now apply Hall.
  - exact Hfs.
Qed.

(** ** C5: the enumeration of the removable volumes *)

(** C5, as stated, fails: two paths of the result resolve to the same
    path; and the enumeration raises where a base directory cannot be listed
    for another reason than the permissions, and where the home directory
    cannot be determined. *)
Lemma enumeration_keeps_paths_that_resolve_alike :
  list_removable_drives Trial.os_linked = Ok ["/media/usb"; "/run/media/usb"]
  /\ realpath Trial.os_linked "/media/usb" = realpath Trial.os_linked "/run/media/usb"
  /\ ~ NoDup (map (realpath Trial.os_linked) ["/media/usb"; "/run/media/usb"])
  /\ list_removable_drives Trial.os_mnt_file = Raise NotADirectoryError
  /\ list_removable_drives Trial2.os_no_home = Raise RuntimeError.
Proof.
  split; [reflexivity|]. split; [reflexivity|]. split; [|split; reflexivity].
  intros H. inversion H as [|? ? Hn _]; subst. apply Hn. now left.
Qed.

(** A listing that fails with another error than [PermissionError] leaves
    the enumeration as an exception. *)
Example enumeration_raises_on_other_errors :
  list_removable_drives Trial.os_mnt_file = Raise NotADirectoryError.
Proof. reflexivity. Qed.

Example enumeration_windows : list_removable_drives Trial.os_windows = Ok [drive_letter 4].
Proof. reflexivity. Qed.

Lemma scan_letters_checked os bitmask l : forall acc,
  GetLogicalDrives os = Ok bitmask ->
  Forall (fun i => i < 26) l -> Forall (removable_letter os) acc ->
  Forall (removable_letter os) (fold_left (scan_letter os bitmask) l acc).
Proof.
  induction l as [|i l IH]; intros acc Hb Hl Hacc; [assumption|].
  inversion Hl; subst. cbn [fold_left]. apply IH; try assumption.
  unfold scan_letter. destruct (Nat.testbit bitmask i) eqn:Hbit; [|assumption].
  destruct (GetDriveTypeW os (drive_letter i)) as [t|e] eqn:Ht; [|assumption].
  destruct (Nat.eqb t DRIVE_REMOVABLE) eqn:E; [|assumption].
  apply Nat.eqb_eq in E. subst t. apply Forall_app. split; [assumption|].
  constructor; [|constructor]. now exists i, bitmask.
Qed.

Lemma scan_entries_inv os bases base all : forall entries acc,
  In base bases -> path_exists os base = true -> listdir os base = Ok all ->
  incl entries all -> scan_inv os bases acc ->
  scan_inv os bases (fold_left (scan_entry os base) entries acc).
Proof.
  induction entries as [|entry entries IH]; intros acc Hb Hex Hl Hincl Hacc; [assumption|].
  cbn [fold_left]. apply IH; try assumption; [intros x Hx; apply Hincl; now right|].
  unfold scan_entry. destruct (ismount os (join base entry)) eqn:Hm; [|assumption].
  destruct (mem (join base entry) (snd acc)) eqn:Hs; [assumption|]. cbn [andb negb].
  destruct Hacc as (Hnd & Hseen & Hall). repeat split; cbn [fst snd].
  - apply NoDup_app; [assumption|repeat constructor; tauto|].
    intros x Hx [<-|[]]. apply Hseen in Hx. congruence.
  - unfold mem. cbn [existsb]. intros H. apply orb_true_iff in H as [H|H].
    + apply String.eqb_eq in H. subst p. apply in_or_app. right. now left.
    + apply in_or_app. left. now apply Hseen.
  - intros H. apply in_app_or in H as [H|[<-|[]]].
    + unfold mem. cbn [existsb]. apply orb_true_iff. right. now apply Hseen.
    + unfold mem. cbn [existsb]. now rewrite String.eqb_refl.
  - apply Forall_app. split; [assumption|]. constructor; [|constructor].
    split; [assumption|]. exists base, all, entry. repeat split; try assumption.
    apply Hincl. now left.
Qed.

Lemma scan_bases_inv os bases : forall cands acc l,
  incl cands bases -> scan_inv os bases acc ->
  scan_bases os cands acc = Ok l -> NoDup l /\ Forall (mounted_child os bases) l.
Proof.
  induction cands as [|base cands IH]; intros acc l Hincl Hacc R; cbn [scan_bases] in R.
  - injection R as <-. now destruct Hacc as (? & _ & ?).
  - assert (Hincl' : incl cands bases) by (intros x Hx; apply Hincl; now right).
    destruct (path_exists os base) eqn:Hex; [|now apply (IH acc)].
    destruct (listdir os base) as [entries|e] eqn:Hl.
    + eapply IH; [exact Hincl'| |exact R].
      apply (scan_entries_inv os bases base entries); try assumption.
      * apply Hincl. now left.
      * apply incl_refl.
    + destruct e; try discriminate. now apply (IH acc).
Qed.

Lemma scan_bases_returns os bases : forall cands acc,
  incl cands bases -> listings_allowed os bases -> exists l, scan_bases os cands acc = Ok l.
Proof.
  induction cands as [|base cands IH]; intros acc Hincl Hok; cbn [scan_bases]; [eauto|].
  assert (Hincl' : incl cands bases) by (intros x Hx; apply Hincl; now right).
  destruct (path_exists os base) eqn:Hex; [|now apply IH].
  destruct (Hok base (Hincl base (or_introl eq_refl)) Hex) as [[l ->]| ->]; now apply IH.
Qed.

(** C5, amended. On the drive-letter platform the enumeration returns, and
    every path of the result is the letter of a present drive whose type is
    removable.  On the mount-point platform every path of a returned result
    is a mount point listed in an existing base directory, and no path
    string occurs twice in the result (the paths are compared as joined,
    not resolved); the enumeration returns whenever [Path.home()] returns
    and every listing of an existing base directory returns or fails with
    [PermissionError]; and where [Path.home()] raises, its exception leaves
    the enumeration. *)
Theorem enumeration_keeps_checked_paths os :
  (startswith "win" (platform os) = true ->
   exists l, list_removable_drives os = Ok l /\ Forall (removable_letter os) l)
  /\ (startswith "win" (platform os) = false ->
      (forall l, list_removable_drives os = Ok l ->
         NoDup l /\ Forall (mounted_child os (candidates os)) l)
      /\ (forall h, Path_home os = Ok h -> listings_allowed os (candidates os) ->
          exists l, list_removable_drives os = Ok l)
      /\ (forall e, Path_home os = Raise e -> list_removable_drives os = Raise e)).
Proof.
  unfold list_removable_drives. split; intros Hp; rewrite Hp.
  - eexists. split; [reflexivity|]. unfold scan_letters.
    destruct (GetLogicalDrives os) as [bitmask|e] eqn:Hb; [|constructor].
    apply scan_letters_checked; try assumption; [|constructor].
    apply Forall_forall. intros i Hi. apply in_seq in Hi. lia.
  - split; [|split].
    + intros l R. destruct (Path_home os) as [h|e]; [|discriminate].
      apply (scan_bases_inv os (candidates os) (candidates os) ([], []) l);
        [apply incl_refl| |assumption].
      repeat split; cbn; try constructor; try discriminate; tauto.
    + intros h Hh Hok. rewrite Hh.
      now apply scan_bases_returns with (bases := candidates os); [apply incl_refl|].
    + now intros e ->.
Qed.

(** ** A plain file copied onto a file of its name *)


(** The copy of [/media/usb] to [/out], three times, and of one of its
    files, twice: the second copy of the directory adds the duplicates, the
    third one writes over them; the second copy of the file changes nothing. *)
Example copy_twice_on_the_key :
  exists st1 st2 st3 st4 st5,
    copy_path 5 (Some "/out") "/media/usb" Trial.st_usb = Done st1
    /\ copy_path 5 (Some "/out") "/media/usb" st1 = Done st2
    /\ copy_path 5 (Some "/out") "/media/usb" st2 = Done st3
    /\ resolve (fs st1) "/out/usb/docs/a_copy.txt" = None
    /\ resolve (fs st2) "/out/usb/docs/a.txt" = Some (File "A")
    /\ resolve (fs st2) "/out/usb/docs/a_copy.txt" = Some (File "A")
    /\ fs st2 <> fs st1
    /\ resolve (fs st3) "/out/usb/docs/a_copy_copy.txt" = None
    /\ fs st3 = fs st2
    /\ copy_path 5 (Some "/out") "/media/usb/notes" Trial.st_usb = Done st4
    /\ copy_path 5 (Some "/out") "/media/usb/notes" st4 = Done st5
    /\ resolve (fs st5) "/out/notes" = Some (File "N")
    /\ resolve (fs st5) "/out/notes_copy" = None
    /\ fs st5 = fs st4.
Proof. do 5 eexists. repeat split; try reflexivity. vm_compute. discriminate. Qed.

(** A destination inside the source, the source having a subdirectory that
    is listed before the walk reaches it: the walk finds what it has just
    copied and goes on until the fuel is used up. *)
Example copy_into_a_listed_subdirectory_runs_on :
  exists st', _copy_tree 40 "/media" "/media/usb/docs" Trial.st_usb = OutOfFuel st'.
Proof. eexists. vm_compute. reflexivity. Qed.

(** ** C8: where [copy_all] puts the files *)

Lemma valid_copy_suffix b : valid_name b = true -> valid_name (b +++ "_copy") = true.
Proof.
  intros Hb. destruct (valid_name_inv _ Hb) as (_ & _ & _ & Hs).
  unfold valid_name. rewrite has_sep_append, Hs.
  assert (N : forall s, String.length s < 5 -> (b +++ "_copy" =? s) = false).
  { intros s Hl. apply String.eqb_neq. intros E.
    pose proof (length_append b "_copy") as L. rewrite E in L. simpl in L. lia. }
  rewrite !N by (simpl; lia). reflexivity.
Qed.

Lemma str_or_nonempty a b : (a =? "") = false -> str_or a b = a.
Proof. unfold str_or. now intros ->. Qed.

(** C8. [copy_all] on a selected volume [src] whose base name [B] is the
    name of a directory entry, with the destination [d]: the orchestrator
    passes [d/B_copy] to [_copy_paths_thread], which copies the directory to
    [d/B_copy/B]; whatever the call changes lies under [d/B_copy/B] (or is a
    missing ancestor of it, created); the call returns, and when the status
    says that the copy is finished, every file of the volume has its path
    under [d/B_copy/B], at its position relative to the volume.  Where
    [d/B_copy/B] does not exist yet and can be created, the copy finishes,
    with one information box and nothing printed, and [d/B_copy/B] then holds
    exactly the directories and the files of the volume, with their data. *)
Theorem copy_all_nests_the_target_twice fuel st src d es0 :
  drive_var st = src -> destination st = Some d -> (d =? "") = false ->
  valid_name (basename (rstrip_sep src)) = true ->
  lookup (fs st) (comps src) = Some (Dir es0) -> (src =? "") = false ->
  wf_node (fs st) = true ->
  disjoint (comps src)
           (comps d ++ [basename (rstrip_sep src) +++ "_copy"; basename (rstrip_sep src)])
    = true ->
  count_dirs (Dir es0) < fuel ->
  let B := basename (rstrip_sep src) in
  let T := comps d ++ [B +++ "_copy"; B] in
  copy_all fuel st = _copy_paths_thread fuel [src] (Some (join d (B +++ "_copy"))) st
  /\ target_of (join d (B +++ "_copy")) src = join (join d (B +++ "_copy")) B
  /\ comps (join (join d (B +++ "_copy")) B) = T
  /\ holds (fun st' => changes_under T (fs st) (fs st')) (copy_all fuel st)
  /\ exists st', copy_all fuel st = Done st'
       /\ (status_label st' = "Statut: Copie terminée" ->
           forall r es f, lookup (Dir es0) r = Some (Dir es) -> In f (filenames es) ->
             stat (fs st') (T ++ r ++ [f]) <> None)
       /\ (forall fs1,
             exists_ (fs st) (join (join d (B +++ "_copy")) B) = false ->
             makedirs (fs st) (join (join d (B +++ "_copy")) B) = Ok fs1 ->
             status_label st' = "Statut: Copie terminée"
             /\ boxes st' = boxes st ++ [ShowInfo "Terminé" "Copie terminée."]
             /\ stdout st' = stdout st
             /\ forall q, stat (fs st') (T ++ q) = stat (Dir es0) q).
Proof.
  intros Hsrc Hdest Hd HB HP Hs Hwf Hap Hfuel B T.
  pose proof (valid_copy_suffix B HB) as HBc.
  destruct (valid_name_inv _ HB) as (EB & _). destruct (valid_name_inv _ HBc) as (EBc & _).
  assert (E1 : copy_all fuel st
               = _copy_paths_thread fuel [src] (Some (join d (B +++ "_copy"))) st).
  { unfold copy_all. rewrite Hsrc, Hs, Hdest, Hd. fold B. now rewrite (str_or_nonempty B). }
  assert (E2 : target_of (join d (B +++ "_copy")) src = join (join d (B +++ "_copy")) B).
  { unfold target_of, dir_name. fold B. now rewrite (str_or_nonempty B). }
  assert (E3 : comps (join (join d (B +++ "_copy")) B) = T).
  { rewrite !comps_join by assumption. unfold T. now rewrite <- app_assoc. }
  split; [assumption|]. split; [assumption|]. split; [assumption|].
  set (dst := join d (B +++ "_copy")) in *.
  set (sta := set_status "Copie en cours..." st).
  assert (Hdst : (dst =? "") = false) by now apply join_nonempty.
  assert (Hisdir : isdir (fs sta) src = true).
  { apply isdir_stat. split; [assumption|]. unfold stat. cbn. now rewrite HP. }
  assert (Hrun : copy_paths fuel (Some dst) [src] sta
                 = andthen (_copy_tree fuel src (join dst B) sta) Done Raised).
  { cbn [copy_paths]. rewrite (copy_path_dir _ _ _ _ Hdst Hisdir), E2.
    destruct (_copy_tree fuel src (join dst B) sta); reflexivity. }
  assert (Htne : (join dst B =? "") = false) by now apply join_nonempty.
  pose proof (wf_lookup _ _ _ Hwf HP) as Hwf0.
  change (disjoint (comps src) T = true) in Hap. rewrite <- E3 in Hap.
  split.
  - rewrite E1. apply (thread_fs fuel [src] (Some dst) st (fun f => changes_under T (fs st) f)).
    fold sta. rewrite Hrun.
    assert (HI : copy_inv T sta sta) by (repeat split; [assumption|apply changes_refl]).
    pose proof (copy_tree_inv T sta src (join dst B) Htne) as K.
    rewrite E3 in K. specialize (K (is_prefix_refl T) fuel sta HI).
    destruct (_copy_tree fuel src (join dst B) sta); cbn [andthen holds] in *; apply K.
  - rewrite E1. unfold _copy_paths_thread. fold sta. rewrite Hrun.
    destruct (copy_tree_run src (join dst B) (Dir es0) Hs Htne Hwf0 Hap fuel es0 sta
                            eq_refl HP Hfuel) as [Erun Hpend].
    pose proof (run_copy_nodes src (join dst B) (Dir es0) Htne Hwf0 Hap _ Hpend sta HP) as R.
    assert (Fresh : forall fs1, exists_ (fs st) (join dst B) = false ->
              makedirs (fs st) (join dst B) = Ok fs1 ->
              exists s, _copy_tree fuel src (join dst B) sta = Done s
                /\ stdout s = stdout st
                /\ forall q, stat (fs s) (T ++ q) = stat (Dir es0) q).
    { intros fs1 Hex M. destruct (makedirs_ok _ _ _ M) as (_ & M' & _).
      destruct (copy_tree_fresh src (join dst B) (Dir es0) Htne Hwf0 Hap fuel es0 sta Hs
                  eq_refl HP Hfuel (creatable_of_makedirs _ _ _ M')
                  (exists_false_none _ _ Htne Hex)) as (s & Rs & O & Mi & _).
      exists s. rewrite <- E3. auto. }
    pose proof (copy_tree_session fuel src (join dst B) sta sta (same_session_refl sta)) as Ss.
    rewrite Erun in *.
    destruct (run_list _ _ sta) as [st1|e st1|st1]; [| |contradiction];
      cbn [andthen]; eexists; (split; [reflexivity|]);
      cbn [status_label messagebox set_status boxes stdout fs]; split.
    + intros _ r es f Hl Hf. destruct (visit_complete r src [] es0 es Hl) as [top Hin].
      destruct R as (_ & _ & Hall). destruct (Hall _ Hin) as [_ A].
      destruct (A f Hf) as [A1 _]. cbn [fst snd fs] in *. rewrite E3 in A1. exact A1.
    + intros fs1 Hex M. destruct (Fresh fs1 Hex M) as (s & Rs & O & Mi).
      injection Rs as <-. destruct Ss as (_ & _ & Hb & _). cbn in Hb.
      split; [reflexivity|]. split; [now rewrite Hb|]. split; assumption.
    + discriminate.
    + intros fs1 Hex M. destruct (Fresh fs1 Hex M) as (s & Rs & _). discriminate.
Qed.

(** ** The theorems at work on the trial states *)

Lemma copy_tree_replicates_directories_witness :
  ((exists st', _copy_tree 5 "/media/usb" "/out/usb" Trial.st_usb = Done st'
      /\ forall r es, lookup Trial.usb r = Some (Dir es) ->
           stat (fs st') (comps "/out/usb" ++ r) = Some KDir)
   \/ (exists e st' r es, _copy_tree 5 "/media/usb" "/out/usb" Trial.st_usb = Raised e st'
         /\ lookup Trial.usb r = Some (Dir es)
         /\ makedirs_at (fs st') (comps "/out/usb" ++ r) = Raise e))
  /\ exists st', _copy_tree 5 "/media/usb" "/out/usb" Trial.st_usb = Done st'
       /\ stdout st' = stdout Trial.st_usb
       /\ forall q, stat (fs st') (comps "/out/usb" ++ q) = stat Trial.usb q.
Proof.
  assert (H := copy_tree_replicates_directories 5 "/media/usb" "/out/usb" Trial.st_usb
                 _ eq_refl eq_refl eq_refl eq_refl eq_refl
                 ltac:(vm_compute; lia)).
  split; [exact (proj1 H)|].
  exact (proj2 H _ eq_refl eq_refl).
Defined.

Example copy_tree_creates_the_empty_directory :
  exists st', _copy_tree 5 "/media/usb" "/out/usb" Trial.st_usb = Done st'
    /\ resolve (fs st') "/out/usb/docs/empty" = Some (Dir []).
Proof. eexists. split; reflexivity. Qed.

Lemma populate_tree_flattens_witness :
  exists st' ri,
    _populate_tree 5 "/media/usb" Trial.st_usb = Done st'
    /\ tv_get_children (tree st') 0 = [ri]
    /\ text ri = str_or (basename "/media/usb") "/media/usb"
    /\ List.length (tv_get_children (tree st') (iid ri))
       = count_files Trial.usb + (count_dirs Trial.usb - 1)
    /\ (forall it, In it (items (tree st')) -> it = ri \/ parent it = iid ri)
    /\ fs st' = fs Trial.st_usb.
Proof.
  apply (populate_tree_flattens 5 "/media/usb" Trial.st_usb); try reflexivity.
  vm_compute. lia.
Defined.

Example populate_tree_on_the_key :
  count_files Trial.usb = 3 /\ count_dirs Trial.usb - 1 = 2
  /\ exists st', _populate_tree 5 "/media/usb" Trial.st_usb = Done st'
       /\ map text (tv_get_children (tree st') 0) = ["usb"]
       /\ map text (tv_get_children (tree st') 1)
          = ["docs"; "photo.jpg"; "notes"; "empty"; "a.txt"].
Proof. split; [reflexivity|]. split; [reflexivity|]. eexists. repeat split; reflexivity. Qed.

Lemma enumeration_keeps_checked_paths_witness :
  (exists l, list_removable_drives Trial.os_windows = Ok l
             /\ Forall (removable_letter Trial.os_windows) l)
  /\ NoDup ["/media/usb"; "/run/media/usb"]
  /\ Forall (mounted_child Trial.os_linked (candidates Trial.os_linked))
            ["/media/usb"; "/run/media/usb"].
Proof.
  split.
  - apply (proj1 (enumeration_keeps_checked_paths Trial.os_windows)). reflexivity.
  - apply (proj1 (proj2 (enumeration_keeps_checked_paths Trial.os_linked) eq_refl)).
    reflexivity.
Defined.

Lemma copy_batch_writes_under_destination_witness :
  holds (fun st' =>
           changes_under (comps "/out") (fs Trial.st_usb) (fs st')
           /\ forall p q, In p ["/media/usb"; "/media/usb/docs/."] ->
                disjoint (comps p) (comps "/out") = true ->
                is_prefix (comps p) q = true -> stat (fs st') q = stat (fs Trial.st_usb) q)
        (_copy_paths_thread 5 ["/media/usb"; "/media/usb/docs/."] (Some "/out") Trial.st_usb).
Proof.
  exact (copy_batch_writes_under_destination 5 ["/media/usb"; "/media/usb/docs/."] "/out"
           Trial.st_usb eq_refl eq_refl eq_refl
           ltac:(repeat constructor; vm_compute; discriminate)).
Defined.

Lemma copy_all_nests_the_target_twice_witness :
  copy_all 5 Trial.st_usb = _copy_paths_thread 5 ["/media/usb"] (Some "/out/usb_copy") Trial.st_usb
  /\ target_of "/out/usb_copy" "/media/usb" = "/out/usb_copy/usb"
  /\ comps "/out/usb_copy/usb" = ["out"; "usb_copy"; "usb"]
  /\ holds (fun st' => changes_under ["out"; "usb_copy"; "usb"] (fs Trial.st_usb) (fs st'))
           (copy_all 5 Trial.st_usb)
  /\ exists st', copy_all 5 Trial.st_usb = Done st'
       /\ (status_label st' = "Statut: Copie terminée" ->
           forall r es f, lookup Trial.usb r = Some (Dir es) -> In f (filenames es) ->
             stat (fs st') (["out"; "usb_copy"; "usb"] ++ r ++ [f]) <> None)
       /\ (forall fs1,
             exists_ (fs Trial.st_usb) "/out/usb_copy/usb" = false ->
             makedirs (fs Trial.st_usb) "/out/usb_copy/usb" = Ok fs1 ->
             status_label st' = "Statut: Copie terminée"
             /\ boxes st' = boxes Trial.st_usb ++ [ShowInfo "Terminé" "Copie terminée."]
             /\ stdout st' = stdout Trial.st_usb
             /\ forall q, stat (fs st') (["out"; "usb_copy"; "usb"] ++ q) = stat Trial.usb q).
Proof.
  exact (copy_all_nests_the_target_twice 5 Trial.st_usb "/media/usb" "/out" _
           eq_refl eq_refl eq_refl eq_refl eq_refl eq_refl eq_refl eq_refl
           ltac:(vm_compute; lia)).
Defined.

(** * Collisions, and the same copy again *)

(** ** The collision name *)

Lemma has_dot_append a b : has_dot (a +++ b) = has_dot a || has_dot b.
Proof.
  induction a as [|c a IH]; [reflexivity|]. cbn [String.append has_dot].
  now rewrite IH, orb_assoc.
Qed.

Lemma rsplit_dot_nodot t : has_dot t = false -> rsplit_dot t = (t, "").
Proof.
  destruct t as [|c r]; [reflexivity|]. cbn [has_dot rsplit_dot]. intros H.
  apply orb_false_iff in H as [-> ->]. reflexivity.
Qed.

Lemma rsplit_dot_ext t :
  (snd (rsplit_dot t) = "" /\ has_dot t = false)
  \/ exists e', snd (rsplit_dot t) = String "." e' /\ has_dot e' = false.
Proof.
  induction t as [|c r IH]; [now left|]. cbn [rsplit_dot has_dot].
  destruct (has_dot r) eqn:Hr.
  - destruct (rsplit_dot r) as [b e]. cbn [snd] in *. destruct IH as [[_ ?]|IH]; [discriminate|].
    now right.
  - destruct (is_dot c) eqn:Hc; cbn [snd orb].
    + right. exists r. apply Ascii.eqb_eq in Hc. now subst c.
    + now left.
Qed.

Lemma rsplit_dot_append x e' :
  has_dot e' = false -> rsplit_dot (x +++ String "." e') = (x, String "." e').
Proof.
  intros He. induction x as [|c x IH]; cbn [String.append rsplit_dot].
  - now rewrite He.
  - assert (D : has_dot (x +++ String "." e') = true)
      by (rewrite has_dot_append; cbn; apply orb_true_r).
    now rewrite D, IH.
Qed.

Lemma rsplit_dot_head c r :
  is_dot c = false -> exists b, fst (rsplit_dot (String c r)) = String c b.
Proof.
  intros Hc. cbn [rsplit_dot]. destruct (has_dot r).
  - destruct (rsplit_dot r) as [b e]. now exists b.
  - rewrite Hc. now exists r.
Qed.

Lemma splitext_copy_name f :
  splitext_name (copy_name f) = (fst (splitext_name f) +++ "_copy", snd (splitext_name f)).
Proof.
  unfold copy_name. induction f as [|c r IH]; [reflexivity|]. cbn [splitext_name].
  destruct (is_dot c) eqn:Hc.
  - destruct (splitext_name r) as [b e]. cbn [String.append splitext_name fst snd] in *.
    now rewrite Hc, IH.
  - destruct (rsplit_dot_head c r Hc) as [b0 Hb]. pose proof (rsplit_dot_ext (String c r)) as E.
    pose proof (rsplit_dot_app (String c r)) as A.
    destruct (rsplit_dot (String c r)) as [b e]. cbn [fst snd] in *. subst b.
    change (String c b0 +++ "_copy" +++ e) with (String c (b0 +++ "_copy" +++ e)).
    cbn [splitext_name]. rewrite Hc.
    change (String c (b0 +++ "_copy" +++ e)) with (String c b0 +++ "_copy" +++ e).
    destruct E as [[-> Hd]|(e' & -> & He)].
    + rewrite append_nil_r in A. rewrite (append_nil_r "_copy").
      apply rsplit_dot_nodot. rewrite has_dot_append, A, Hd. reflexivity.
    + rewrite <- append_assoc. now apply rsplit_dot_append.
Qed.

Lemma append_inj_r a b c : a +++ c = b +++ c -> a = b.
Proof.
  revert b. induction a as [|x a IH]; intros [|y b] H; cbn [String.append] in H.
  - reflexivity.
  - exfalso. apply (f_equal String.length) in H. cbn [String.length] in H.
    rewrite length_append in H. lia.
  - exfalso. apply (f_equal String.length) in H. cbn [String.length] in H.
    rewrite length_append in H. lia.
  - injection H as -> H. f_equal. now apply IH.
Qed.

(** Two names with the same collision name are the same name. *)
Lemma copy_name_inj f g : copy_name f = copy_name g -> f = g.
Proof.
  intros H. apply (f_equal splitext_name) in H. rewrite !splitext_copy_name in H.
  injection H as H1 H2. apply append_inj_r in H1.
  rewrite <- (splitext_name_app f), <- (splitext_name_app g). now rewrite H1, H2.
Qed.

Lemma snoc2_inj (T r r' : list string) x y :
  T ++ r ++ [x] = T ++ r' ++ [y] -> r = r' /\ x = y.
Proof. intros H. apply app_inv_head in H. now apply app_inj_tail in H. Qed.

Lemma snoc2_neq (T r : list string) x y : x <> y -> T ++ r ++ [x] <> T ++ r ++ [y].
Proof. intros N H. apply snoc2_inj in H. tauto. Qed.



(** ** One file of [_copy_tree] at a path that exists *)

Lemma stat_exists fs tr f :
  valid_name f = true -> stat fs (comps tr ++ [f]) <> None -> exists_ fs (join tr f) = true.
Proof.
  intros Hf H. destruct (valid_name_inv _ Hf) as (Ef & _). apply exists_stat.
  split; [now apply join_nonempty|]. now rewrite comps_join.
Qed.

Lemma stat_not_isdir fs tr f :
  valid_name f = true -> stat fs (comps tr ++ [f]) <> Some KDir -> isdir fs (join tr f) = false.
Proof.
  intros Hf H. destruct (isdir fs (join tr f)) eqn:E; [|reflexivity].
  apply isdir_stat in E as [_ E]. rewrite comps_join in E by assumption. contradiction.
Qed.

(** The computed path exists and the path with the collision name is not
    a directory: the data goes to the path with the collision name. *)
Lemma copy_file_renames root tr st f d :
  valid_name f = true ->
  resolve (fs st) (join root f) = Some (File d) ->
  stat (fs st) (comps tr ++ [f]) <> None ->
  stat (fs st) (comps tr ++ [copy_name f]) <> Some KDir ->
  exists fs', write_at (fs st) (comps tr ++ [copy_name f]) d = Ok fs'
              /\ copy_file root tr st f = with_fs fs' st.
Proof.
  intros Hf Hsp Hdp Hnot. pose proof (copy_name_valid f Hf) as Hc.
  destruct (valid_name_inv _ Hc) as (Ec & _).
  pose proof (stat_exists _ _ _ Hf Hdp) as Hex.
  pose proof (stat_not_isdir _ _ _ Hc Hnot) as Hnd.
  pose proof (stat_parent _ _ _ Hdp) as Hpar.
  destruct (write_at_ok _ _ _ d Hpar Hnot) as [fs' W]. exists fs'. split; [assumption|].
  unfold copy_file. rewrite Hex, (collision_path _ _ Hf).
  unfold copy2. rewrite Hnd.
  rewrite (same_comps_false (comps (join root f))).
  2:{ rewrite !comps_join by assumption. apply snoc_neq. intros E.
      now apply (copy_name_neq f). }
  rewrite andb_false_r, Hsp, (join_nonempty _ _ Ec).
  rewrite comps_join by assumption. now rewrite W.
Qed.

Lemma copy_file_writes root tr st f d :
  valid_name f = true ->
  resolve (fs st) (join root f) = Some (File d) ->
  stat (fs st) (comps tr) = Some KDir ->
  stat (fs st) (comps tr ++ [copy_name f]) <> Some KDir ->
  exists fs', write_at (fs st) (comps tr ++ [landing (fs st) (comps tr) f]) d = Ok fs'
              /\ copy_file root tr st f = with_fs fs' st.
Proof.
  intros Hf Hsp Hpar Hnot. unfold landing.
  destruct (stat (fs st) (comps tr ++ [f])) as [k|] eqn:E.
  - apply copy_file_renames; try assumption. congruence.
  - now apply copy_file_fresh.
Qed.

(** ** The files of a directory, with the names that are taken *)

Lemma find_file_in g d es : alist_find g es = Some (File d) -> In g (filenames es).
Proof. intros F. apply in_filenames. exists d. now apply find_in. Qed.

Section CopyData.

Variables src dst : string.
Variable n0 : node.

Hypothesis dst_ne : (dst =? "") = false.
Hypothesis wf0 : wf_node n0 = true.
Hypothesis apart : disjoint (comps src) (comps dst) = true.
Hypothesis fresh_names : no_collision_names n0.

(** The loop over the files of one directory of the source. *)
Lemma copy_files_data top r es tr :
  pending (comps src) n0 (top, r, es) -> comps tr = comps dst ++ r ->
  forall fl st st',
    NoDup fl -> incl fl (filenames es) ->
    src_fixed (comps src) n0 st -> stat (fs st) (comps dst ++ r) = Some KDir ->
    (forall g, In g fl -> stat (fs st) (comps dst ++ r ++ [copy_name g]) <> Some KDir) ->
    fold_left (copy_file top tr) fl st = st' ->
    src_fixed (comps src) n0 st' /\ stdout st' = stdout st
    /\ (forall q, stat (fs st') q <> stat (fs st) q ->
          exists g, In g fl
                    /\ (q = comps dst ++ r ++ [g] \/ q = comps dst ++ r ++ [copy_name g]))
    /\ forall g d, In g fl -> alist_find g es = Some (File d) ->
         (stat (fs st) (comps dst ++ r ++ [g]) = None ->
          stat (fs st') (comps dst ++ r ++ [g]) = Some (KFile d)
          /\ stat (fs st') (comps dst ++ r ++ [copy_name g])
             = stat (fs st) (comps dst ++ r ++ [copy_name g]))
         /\ (stat (fs st) (comps dst ++ r ++ [g]) <> None ->
             stat (fs st') (comps dst ++ r ++ [g]) = stat (fs st) (comps dst ++ r ++ [g])
             /\ stat (fs st') (comps dst ++ r ++ [copy_name g]) = Some (KFile d)).
Proof.
  intros Hv Htr. pose proof Hv as (Hne & Hc & Hl). cbn [fst snd] in Hne, Hc, Hl.
  assert (Hnew : forall g, In g (filenames es) -> alist_find (copy_name g) es = None)
    by (intros g Hg; exact (fresh_names r es g Hl Hg)).
  assert (Hold : forall g, In g (filenames es) -> alist_find g es <> None).
  { intros g Hg. destruct (source_file_stat src n0 wf0 top r es g Hv Hg) as (d & _ & F & _).
    congruence. }
  assert (Hne1 : forall f g, In f (filenames es) -> In g (filenames es) -> f <> copy_name g).
  { intros f g Hf Hg E. apply (Hold f Hf). rewrite E. now apply Hnew. }
  induction fl as [|f0 fl IH]; intros st st' Hnd Hincl HP Hdir Hii E; cbn [fold_left] in E.
  - subst st'. split; [assumption|]. split; [reflexivity|].
    split; [intros q Hq; now contradiction Hq|intros g d []].
  - inversion Hnd as [|? ? Hnotin Hnd']; subst f0 l.
    rename x into f0.
    assert (Hin0 : In f0 (filenames es)) by (apply Hincl; now left).
    assert (Hincl' : incl fl (filenames es)) by (intros g Hg; apply Hincl; now right).
    destruct (source_file_stat src n0 wf0 top r es f0 Hv Hin0) as (d0 & Hf0 & F0 & Hsp0).
    assert (Hpar : stat (fs st) (comps tr) = Some KDir) by now rewrite Htr.
    assert (Hnot : stat (fs st) (comps tr ++ [copy_name f0]) <> Some KDir).
    { rewrite Htr, <- app_assoc. apply Hii. now left. }
    destruct (copy_file_writes top tr st f0 d0 Hf0 (Hsp0 st HP) Hpar Hnot) as (fs1 & W & E1).
    rewrite E1 in E. rewrite Htr, <- app_assoc in W.
    set (x0 := landing (fs st) (comps dst ++ r) f0) in *.
    assert (Land : x0 = match stat (fs st) (comps dst ++ r ++ [f0]) with
                        | None => f0
                        | Some _ => copy_name f0
                        end) by (unfold x0, landing; now rewrite <- app_assoc).
    clearbody x0.
    assert (Hx0 : x0 = f0 \/ x0 = copy_name f0).
    { rewrite Land. destruct (stat (fs st) (comps dst ++ r ++ [f0])); [right|left];
        reflexivity. }
    assert (Same : forall q, q <> comps dst ++ r ++ [x0] -> stat fs1 q = stat (fs st) q)
      by (intros q Hq; exact (write_at_stat _ _ _ _ _ W Hq)).
    assert (At : stat fs1 (comps dst ++ r ++ [x0]) = Some (KFile d0))
      by (unfold stat; now rewrite (write_at_same _ _ _ _ W)).
    assert (HP1 : src_fixed (comps src) n0 (with_fs fs1 st)).
    { unfold src_fixed. cbn [fs with_fs]. rewrite (write_at_frame _ _ _ _ _ W); [assumption|].
      rewrite app_assoc. now apply apart_below. }
    assert (Hdir1 : stat (fs (with_fs fs1 st)) (comps dst ++ r) = Some KDir).
    { cbn [fs with_fs]. rewrite Same; [assumption|]. rewrite app_assoc. intros H.
      symmetry in H. now apply snoc_neq_self in H. }
    (* the other files and their collision names are not where the first one landed *)
    assert (Other : forall g, In g fl ->
              comps dst ++ r ++ [g] <> comps dst ++ r ++ [x0]
              /\ comps dst ++ r ++ [copy_name g] <> comps dst ++ r ++ [x0]).
    { intros g Hg. assert (Hg' : In g (filenames es)) by now apply Hincl'.
      assert (g <> f0) by (intros ->; contradiction).
      split; apply snoc2_neq; destruct Hx0 as [-> | ->]; try assumption.
      - now apply Hne1.
      - intros H'. symmetry in H'. revert H'. now apply Hne1.
      - intros H'. apply copy_name_inj in H'. contradiction. }
    assert (Hii1 : forall g, In g fl ->
              stat (fs (with_fs fs1 st)) (comps dst ++ r ++ [copy_name g]) <> Some KDir).
    { intros g Hg. cbn [fs with_fs]. rewrite Same by apply (Other g Hg).
      apply Hii. now right. }
    destruct (IH (with_fs fs1 st) st' Hnd' Hincl' HP1 Hdir1 Hii1 E) as (A & B & C & D).
    cbn [fs with_fs stdout] in B, C, D.
    assert (Keep : forall q, (forall g, In g fl -> q <> comps dst ++ r ++ [g]
                                         /\ q <> comps dst ++ r ++ [copy_name g]) ->
                     stat (fs st') q = stat fs1 q).
    { intros q Hq. destruct (kind_eq_dec (stat (fs st') q) (stat fs1 q)) as [K|K];
        [assumption|]. exfalso. destruct (C q K) as (g & Hg & [Q|Q]);
        destruct (Hq g Hg); contradiction. }
    split; [assumption|]. split; [assumption|]. split.
    + intros q Hq. destruct (kind_eq_dec (stat (fs st') q) (stat fs1 q)) as [K|K].
      * exists f0. split; [now left|].
        destruct (list_eq_dec string_dec q (comps dst ++ r ++ [x0])) as [->|Nq].
        -- destruct Hx0 as [-> | ->]; tauto.
        -- exfalso. apply Hq. rewrite K. now apply Same.
      * destruct (C q K) as (g & Hg & Q). exists g. split; [now right|assumption].
    + intros g d [<-|Hg] F.
      * rewrite F0 in F. injection F as <-.
        assert (K1 : stat (fs st') (comps dst ++ r ++ [f0]) = stat fs1 (comps dst ++ r ++ [f0])).
        { apply Keep. intros g Hg. assert (Hg' : In g (filenames es)) by now apply Hincl'.
          split; apply snoc2_neq; [intros ->; contradiction|now apply Hne1]. }
        assert (K2 : stat (fs st') (comps dst ++ r ++ [copy_name f0])
                     = stat fs1 (comps dst ++ r ++ [copy_name f0])).
        { apply Keep. intros g Hg. assert (Hg' : In g (filenames es)) by now apply Hincl'.
          split; apply snoc2_neq.
          - intros H'. symmetry in H'. revert H'. now apply Hne1.
          - intros H'. apply copy_name_inj in H'. subst g. contradiction. }
        rewrite K1, K2. split; intros H0.
        -- rewrite H0 in Land. subst x0. split; [exact At|]. apply Same.
           apply snoc2_neq. apply copy_name_neq.
        -- destruct (stat (fs st) (comps dst ++ r ++ [f0])) as [k|] eqn:S0; [|congruence].
           subst x0. split; [|exact At]. rewrite <- S0. apply Same. apply snoc2_neq.
           intros H'. symmetry in H'. now apply copy_name_neq in H'.
      * destruct (Other g Hg) as [O1 O2]. rewrite <- (Same _ O1), <- (Same _ O2).
        exact (D g d Hg F).
Qed.

(** A path of the target that holds a directory of the source passes
    through directories of the source only. *)
Lemma prefix_entry r es rv esv c :
  lookup n0 r = Some (Dir es) -> lookup n0 rv = Some (Dir esv) ->
  is_prefix (comps dst ++ r ++ [c]) (comps dst ++ rv) = true ->
  exists es2, alist_find c es = Some (Dir es2).
Proof.
  intros Hl Hlv Hp. rewrite is_prefix_app_cancel in Hp.
  apply is_prefix_inv in Hp as [x ->]. rewrite <- app_assoc, lookup_app, Hl in Hlv.
  cbn [app lookup] in Hlv. destruct (alist_find c es) as [[d|es2]|]; try discriminate.
  - destruct x; discriminate.
  - now exists es2.
Qed.

Lemma not_below_file r es rv esv g d :
  lookup n0 r = Some (Dir es) -> lookup n0 rv = Some (Dir esv) ->
  alist_find g es = Some (File d) ->
  is_prefix (comps dst ++ r ++ [g]) (comps dst ++ rv) = false
  /\ is_prefix (comps dst ++ r ++ [copy_name g]) (comps dst ++ rv) = false.
Proof.
  intros Hl Hlv F. split.
  - destruct (is_prefix _ _) eqn:E; [|reflexivity].
    destruct (prefix_entry _ _ _ _ _ Hl Hlv E) as [es2 F2]. congruence.
  - destruct (is_prefix _ _) eqn:E; [|reflexivity].
    destruct (prefix_entry _ _ _ _ _ Hl Hlv E) as [es2 F2].
    rewrite (fresh_names r es g Hl (find_file_in _ _ _ F)) in F2. discriminate.
Qed.

(** The body of the walk at one directory of the source. *)
Lemma copy_dir_data v st :
  src_fixed (comps src) n0 st -> pending (comps src) n0 v ->
  no_collision_dirs (comps dst) n0 (fs st) ->
  match copy_dir src dst (fst (fst v)) (dirnames (snd v)) (filenames (snd v)) st with
  | Raised e st' => st' = st
  | Done st' =>
      src_fixed (comps src) n0 st' /\ stdout st' = stdout st
      /\ (forall q, is_prefix q (comps dst ++ snd (fst v)) = true ->
            stat (fs st') q = Some KDir)
      /\ (forall q, stat (fs st') q <> stat (fs st) q ->
            is_prefix q (comps dst ++ snd (fst v)) = true
            \/ exists g, In g (filenames (snd v))
                 /\ (q = comps dst ++ snd (fst v) ++ [g]
                     \/ q = comps dst ++ snd (fst v) ++ [copy_name g]))
      /\ forall g d, alist_find g (snd v) = Some (File d) ->
           (stat (fs st) (comps dst ++ snd (fst v) ++ [g]) = None ->
            stat (fs st') (comps dst ++ snd (fst v) ++ [g]) = Some (KFile d)
            /\ stat (fs st') (comps dst ++ snd (fst v) ++ [copy_name g])
               = stat (fs st) (comps dst ++ snd (fst v) ++ [copy_name g]))
           /\ (stat (fs st) (comps dst ++ snd (fst v) ++ [g]) <> None ->
               stat (fs st') (comps dst ++ snd (fst v) ++ [g])
               = stat (fs st) (comps dst ++ snd (fst v) ++ [g])
               /\ stat (fs st') (comps dst ++ snd (fst v) ++ [copy_name g]) = Some (KFile d))
  | OutOfFuel _ => False
  end.
Proof.
  intros HP Hv Hii. destruct v as [[top r] es]. cbn [fst snd].
  pose proof Hv as (Hne & Hc & Hl). cbn [fst snd] in Hne, Hc, Hl.
  pose proof (lookup_valid _ _ _ wf0 Hl) as Hr.
  destruct (target_root_comps top src dst r Hc Hr dst_ne) as [Htr Htne].
  unfold copy_dir.
  set (tr := if negb (relpath top src =? ".") then join dst (relpath top src) else dst) in *.
  unfold makedirs. rewrite Htne, Htr.
  destruct (makedirs_at (fs st) (comps dst ++ r)) as [fs1|e] eqn:M; [|reflexivity].
  assert (Fr : forall q, is_prefix q (comps dst ++ r) = false -> stat fs1 q = stat (fs st) q)
    by (intros q Hq; exact (stat_lookup_eq _ _ _ (makedirs_at_frame _ _ _ _ M Hq))).
  assert (Below : forall c, is_prefix (comps dst ++ r ++ [c]) (comps dst ++ r) = false)
    by (intros c; rewrite app_assoc; apply is_prefix_below_false).
  assert (HP1 : src_fixed (comps src) n0 (with_fs fs1 st)).
  { unfold src_fixed. cbn [fs with_fs]. rewrite (makedirs_at_frame _ _ _ _ M); [assumption|].
    rewrite <- (app_nil_r (comps dst ++ r)). now apply apart_below. }
  assert (Hdir1 : stat (fs (with_fs fs1 st)) (comps dst ++ r) = Some KDir).
  { cbn [fs with_fs]. apply (makedirs_at_dirs _ _ _ _ M). apply is_prefix_refl. }
  assert (Hii1 : forall g, In g (filenames es) ->
            stat (fs (with_fs fs1 st)) (comps dst ++ r ++ [copy_name g]) <> Some KDir).
  { intros g Hg. cbn [fs with_fs]. rewrite Fr by apply Below. exact (Hii r es g Hl Hg). }
  pose proof (wf_lookup _ _ _ wf0 Hl) as Hwf. destruct (wf_dir_inv _ Hwf) as (_ & Hnd & _).
  assert (Hndf : NoDup (filenames es)).
  { apply NoDup_filtered_keys. now apply nodupb_NoDup. }
  destruct (copy_files_data top r es tr Hv Htr (filenames es) (with_fs fs1 st) _
              Hndf (incl_refl _) HP1 Hdir1 Hii1 eq_refl) as (A & B & C & D).
  cbn [fs with_fs stdout] in B, C, D.
  set (st' := fold_left (copy_file top tr) (filenames es) (with_fs fs1 st)) in *.
  split; [assumption|]. split; [assumption|]. split; [|split].
  - intros q Hq. destruct (kind_eq_dec (stat (fs st') q) (stat fs1 q)) as [K|K].
    + rewrite K. exact (makedirs_at_dirs _ _ _ _ M Hq).
    + exfalso. destruct (C q K) as (g & _ & [-> | ->]); rewrite Below in Hq; discriminate.
  - intros q Hq. destruct (kind_eq_dec (stat (fs st') q) (stat fs1 q)) as [K|K].
    + left. destruct (is_prefix q (comps dst ++ r)) eqn:E; [reflexivity|].
      exfalso. apply Hq. rewrite K. now apply Fr.
    + right. exact (C q K).
  - intros g d F. rewrite <- (Fr _ (Below g)), <- (Fr _ (Below (copy_name g))).
    exact (D g d (find_file_in _ _ _ F) F).
Qed.

(** The places of the copy of two different directories of the source are
    different. *)
Lemma places_apart r es rv esv g d q :
  lookup n0 r = Some (Dir es) -> lookup n0 rv = Some (Dir esv) -> r <> rv ->
  alist_find g es = Some (File d) ->
  q = comps dst ++ r ++ [g] \/ q = comps dst ++ r ++ [copy_name g] ->
  is_prefix q (comps dst ++ rv) = false
  /\ forall h, q <> comps dst ++ rv ++ [h].
Proof.
  intros Hl Hlv Hr F Hq. destruct (not_below_file _ _ _ _ _ _ Hl Hlv F) as [N1 N2].
  split.
  - now destruct Hq as [-> | ->].
  - intros h E. destruct Hq as [-> | ->]; apply snoc2_inj in E; tauto.
Qed.

Lemma file_data r es g :
  lookup n0 r = Some (Dir es) -> In g (filenames es) ->
  exists d, alist_find g es = Some (File d).
Proof.
  intros Hl Hg. apply in_filenames in Hg as [d Hin]. exists d.
  pose proof (wf_lookup _ _ _ wf0 Hl) as Hwf. destruct (wf_dir_inv _ Hwf) as (_ & Hnd & _).
  now apply in_find_nodup.
Qed.

(** The run over a list of different directories of the source. *)
Lemma run_copy_data nodes :
  Forall (pending (comps src) n0) nodes -> NoDup (map (fun v => snd (fst v)) nodes) ->
  forall st, src_fixed (comps src) n0 st -> no_collision_dirs (comps dst) n0 (fs st) ->
  match run_list (copy_dir src dst) (map yielded nodes) st with
  | Done st' =>
      src_fixed (comps src) n0 st' /\ no_collision_dirs (comps dst) n0 (fs st')
      /\ stdout st' = stdout st
      /\ (forall v q, In v nodes -> is_prefix q (comps dst ++ snd (fst v)) = true ->
            stat (fs st') q = Some KDir)
      /\ (forall q, stat (fs st') q <> stat (fs st) q ->
            exists v, In v nodes
              /\ (is_prefix q (comps dst ++ snd (fst v)) = true
                  \/ exists g, In g (filenames (snd v))
                       /\ (q = comps dst ++ snd (fst v) ++ [g]
                           \/ q = comps dst ++ snd (fst v) ++ [copy_name g])))
      /\ forall v g d, In v nodes -> alist_find g (snd v) = Some (File d) ->
           (stat (fs st) (comps dst ++ snd (fst v) ++ [g]) = None ->
            stat (fs st') (comps dst ++ snd (fst v) ++ [g]) = Some (KFile d)
            /\ stat (fs st') (comps dst ++ snd (fst v) ++ [copy_name g])
               = stat (fs st) (comps dst ++ snd (fst v) ++ [copy_name g]))
           /\ (stat (fs st) (comps dst ++ snd (fst v) ++ [g]) <> None ->
               stat (fs st') (comps dst ++ snd (fst v) ++ [g])
               = stat (fs st) (comps dst ++ snd (fst v) ++ [g])
               /\ stat (fs st') (comps dst ++ snd (fst v) ++ [copy_name g]) = Some (KFile d))
  | Raised e st' => True
  | OutOfFuel _ => False
  end.
Proof.
  induction nodes as [|v nodes IH]; intros Hall Hnd st HP Hii.
  - cbn. split; [assumption|]. split; [assumption|]. split; [reflexivity|].
    split; [intros v q []|]. split; [intros q Hq; now contradiction Hq|intros v g d []].
  - inversion Hall as [|? ? Hv Hrest]; subst. cbn [map] in Hnd.
    inversion Hnd as [|? ? Hnotin Hnd']; subst. cbn [map run_list]. unfold yielded at 1.
    pose proof (copy_dir_data v st HP Hv Hii) as Hstep.
    destruct (copy_dir src dst (fst (fst v)) (dirnames (snd v)) (filenames (snd v)) st)
      as [st1|e st1|]; [|exact I|contradiction].
    destruct Hstep as (HP1 & O1 & D1 & C1 & F1).
    destruct v as [[top rv] esv]. cbn [fst snd] in *.
    pose proof Hv as (_ & _ & Hlv). cbn [fst snd] in Hlv.
    assert (Hother : forall w, In w nodes ->
              lookup n0 (snd (fst w)) = Some (Dir (snd w)) /\ snd (fst w) <> rv).
    { intros w Hw. rewrite Forall_forall in Hrest. destruct (Hrest w Hw) as (_ & _ & Hlw).
      split; [assumption|]. intros E. apply Hnotin. rewrite <- E.
      now apply (in_map (fun v => snd (fst v))). }
    (* what the step at [v] leaves as it is *)
    assert (Keep1 : forall r es g d q,
              lookup n0 r = Some (Dir es) -> r <> rv ->
              alist_find g es = Some (File d) ->
              q = comps dst ++ r ++ [g] \/ q = comps dst ++ r ++ [copy_name g] ->
              stat (fs st1) q = stat (fs st) q).
    { intros r es g d q Hl Hr F Hq.
      destruct (kind_eq_dec (stat (fs st1) q) (stat (fs st) q)) as [K|K]; [assumption|].
      exfalso. destruct (places_apart _ _ _ _ _ _ _ Hl Hlv Hr F Hq) as [P1 P2].
      destruct (C1 q K) as [P|(h & _ & [P|P])]; [congruence|now apply P2 in P..]. }
    assert (Hii1 : no_collision_dirs (comps dst) n0 (fs st1)).
    { intros r es g Hl Hg. destruct (file_data r es g Hl Hg) as [d F].
      destruct (list_eq_dec string_dec r rv) as [->|N].
      - rewrite Hl in Hlv. injection Hlv as <-. destruct (F1 g d F) as [G1 G2].
        destruct (stat (fs st) (comps dst ++ rv ++ [g])) as [k|] eqn:S0.
        + destruct G2 as [_ G]; [discriminate|]. rewrite G. discriminate.
        + destruct (G1 eq_refl) as [_ G]. rewrite G. exact (Hii _ _ _ Hl Hg).
      - rewrite (Keep1 r es g d _ Hl N F (or_intror eq_refl)). exact (Hii _ _ _ Hl Hg). }
    specialize (IH Hrest Hnd' st1 HP1 Hii1).
    pose proof (run_copy_nodes src dst n0 dst_ne wf0 apart nodes Hrest st1 HP1) as R.
    destruct (run_list (copy_dir src dst) (map yielded nodes) st1) as [st'|e st'|];
      [|exact I|contradiction].
    destruct IH as (HP' & Hii' & O' & D' & C' & F'). destruct R as (_ & [G _] & _).
    assert (Keep' : forall g d q,
              alist_find g esv = Some (File d) ->
              q = comps dst ++ rv ++ [g] \/ q = comps dst ++ rv ++ [copy_name g] ->
              stat (fs st') q = stat (fs st1) q).
    { intros g d q F Hq.
      destruct (kind_eq_dec (stat (fs st') q) (stat (fs st1) q)) as [K|K]; [assumption|].
      exfalso. destruct (C' q K) as (w & Hw & Hq'). destruct (Hother w Hw) as [Hlw Nw].
      assert (Nw' : rv <> snd (fst w)) by congruence.
      destruct (places_apart _ _ _ _ _ _ _ Hlv Hlw Nw' F Hq) as [P1 P2].
      destruct Hq' as [P|(h & _ & [P|P])]; [congruence|now apply P2 in P..]. }
    split; [assumption|]. split; [assumption|]. split; [congruence|].
    split; [|split].
    + intros w q [<-|Hw] Hq; cbn [fst snd] in *; [apply G; now apply D1|now apply (D' w)].
    + intros q Hq. destruct (kind_eq_dec (stat (fs st') q) (stat (fs st1) q)) as [K|K].
      * exists (top, rv, esv). split; [now left|]. cbn [fst snd]. apply C1. congruence.
      * destruct (C' q K) as (w & Hw & Hq'). exists w. split; [now right|assumption].
    + intros w g d [<-|Hw] F; cbn [fst snd] in *.
      * rewrite (Keep' g d _ F (or_introl eq_refl)), (Keep' g d _ F (or_intror eq_refl)).
        exact (F1 g d F).
      * destruct (Hother w Hw) as [Hlw Nw].
        rewrite <- (Keep1 _ _ g d _ Hlw Nw F (or_introl eq_refl)),
                <- (Keep1 _ _ g d _ Hlw Nw F (or_intror eq_refl)).
        exact (F' w g d Hw F).
Qed.

End CopyData.

(** ** The directories of the walk are different *)

Lemma walk_nodes_below n : forall top r v,
  In v (walk_nodes top r n) -> is_prefix r (snd (fst v)) = true.
Proof.
  induction n as [d|es IH] using node_induction; intros top r v Hin; cbn [walk_nodes] in Hin;
    [contradiction|].
  destruct Hin as [<-|Hin]; [apply is_prefix_refl|].
  apply in_flat_map in Hin as (e & He & Hin). destruct (is_dir_entry e); [|contradiction].
  rewrite Forall_forall in IH. specialize (IH e He _ _ _ Hin).
  eapply is_prefix_trans; [apply is_prefix_app|exact IH].
Qed.

Lemma two_children r k k' x :
  is_prefix (r ++ [k]) x = true -> is_prefix (r ++ [k']) x = true -> k = k'.
Proof.
  intros H1 H2. apply is_prefix_inv in H1 as [y ->].
  rewrite <- app_assoc, is_prefix_app_cancel in H2. cbn in H2.
  apply andb_true_iff in H2 as [H2 _]. apply String.eqb_eq in H2. congruence.
Qed.

Lemma walk_kids_NoDup es : forall top r,
  NoDup (keys es) ->
  Forall (fun e => forall top r, NoDup (map (fun v => snd (fst v)) (walk_nodes top r (snd e)))) es ->
  NoDup (map (fun v => snd (fst v))
             (flat_map (fun e => if is_dir_entry e
                                 then walk_nodes (join top (fst e)) (r ++ [fst e]) (snd e)
                                 else []) es)).
Proof.
  induction es as [|e es IH]; intros top r Hk Hall; cbn [flat_map map]; [constructor|].
  inversion Hk as [|? ? Hnotin Hk']; subst. inversion Hall as [|? ? He Hall']; subst.
  rewrite map_app. apply NoDup_app.
  - destruct (is_dir_entry e); [apply He|constructor].
  - now apply IH.
  - intros x Hx Hx'. apply in_map_iff in Hx as (v & <- & Hv).
    apply in_map_iff in Hx' as (v' & E & Hv').
    destruct (is_dir_entry e); [|contradiction].
    apply in_flat_map in Hv' as (e' & He' & Hv'). destruct (is_dir_entry e'); [|contradiction].
    apply walk_nodes_below in Hv, Hv'. rewrite E in Hv'.
    apply Hnotin. rewrite (two_children _ _ _ _ Hv Hv'). now apply in_map.
Qed.

Lemma walk_nodes_NoDup n :
  wf_node n = true -> forall top r, NoDup (map (fun v => snd (fst v)) (walk_nodes top r n)).
Proof.
  induction n as [d|es IH] using node_induction; intros Hwf top r; cbn [walk_nodes map];
    [constructor|].
  destruct (wf_dir_inv _ Hwf) as (_ & Hnd & Hch). constructor.
  - intros Hin. apply in_map_iff in Hin as (v & E & Hv).
    apply in_flat_map in Hv as (e & He & Hv). destruct (is_dir_entry e); [|contradiction].
    apply walk_nodes_below in Hv. rewrite E in Hv. cbn [fst snd] in Hv.
    rewrite (is_prefix_below_false r (fst e) []) in Hv. discriminate.
  - apply walk_kids_NoDup; [now apply nodupb_NoDup|].
    rewrite forallb_forall in Hch. rewrite Forall_forall in IH |- *.
    intros e He. apply (IH e He). now apply Hch.
Qed.

(** ** The copy of a directory, with the names that are taken *)

(** [_copy_tree] that returns, where no directory of the source holds the
    collision name of one of its files and the target holds no directory at
    such a name: nothing is printed; the directories of the source are
    directories under the target; each file of the source is at its path
    under the target where that path was free, and at the path with the
    collision name where it was taken, what was at the path being still
    there; and nothing else changes. *)
Lemma copy_tree_data fuel src dst st es0 st' :
  (src =? "") = false -> (dst =? "") = false ->
  lookup (fs st) (comps src) = Some (Dir es0) -> wf_node (Dir es0) = true ->
  disjoint (comps src) (comps dst) = true -> count_dirs (Dir es0) < fuel ->
  no_collision_names (Dir es0) -> no_collision_dirs (comps dst) (Dir es0) (fs st) ->
  _copy_tree fuel src dst st = Done st' ->
  lookup (fs st') (comps src) = Some (Dir es0)
  /\ no_collision_dirs (comps dst) (Dir es0) (fs st')
  /\ stdout st' = stdout st
  /\ (forall r es, lookup (Dir es0) r = Some (Dir es) ->
        stat (fs st') (comps dst ++ r) = Some KDir)
  /\ landed (comps dst) (Dir es0) (fs st) (fs st')
  /\ copies_only (comps dst) (Dir es0) (fs st) (fs st').
Proof.
  intros Hs Hd HP Hwf Hap Hfuel Hnames Hii Run.
  destruct (copy_tree_run src dst (Dir es0) Hs Hd Hwf Hap fuel es0 st eq_refl HP Hfuel)
    as [E Hpend].
  rewrite E in Run.
  pose proof (run_copy_data src dst (Dir es0) Hd Hwf Hap Hnames _ Hpend
                (walk_nodes_NoDup _ Hwf src []) st HP Hii) as R.
  rewrite Run in R. destruct R as (HP' & Hii' & O & D & C & F).
  split; [exact HP'|]. split; [exact Hii'|]. split; [exact O|]. split; [|split].
  - intros r es Hl. destruct (visit_complete r src [] es0 es Hl) as [top Hin].
    apply (D _ _ Hin). apply is_prefix_refl.
  - intros r es g d Hl Fg. destruct (visit_complete r src [] es0 es Hl) as [top Hin].
    exact (F _ g d Hin Fg).
  - intros q Hq. destruct (C q Hq) as (v & Hv & Hq'). rewrite Forall_forall in Hpend.
    destruct (Hpend v Hv) as (_ & _ & Hl). exists (snd (fst v)), (snd v). auto.
Qed.
(** ** The checks of the collision names *)

Lemma collision_free_lookup r : forall n m,
  collision_free n = true -> lookup n r = Some m -> collision_free m = true.
Proof.
  induction r as [|c r IH]; intros n m Hn H; cbn [lookup] in H.
  - now injection H as <-.
  - destruct n as [|es]; [discriminate|].
    destruct (alist_find c es) as [ch|] eqn:F; [|discriminate].
    apply find_in in F. cbn [collision_free] in Hn. apply andb_prop in Hn as [_ Hn].
    rewrite forallb_forall in Hn. apply (IH ch); [exact (Hn _ F)|assumption].
Qed.

Lemma collision_free_spec n : collision_free n = true -> no_collision_names n.
Proof.
  intros Hn r es f Hl Hf. pose proof (collision_free_lookup _ _ _ Hn Hl) as H.
  cbn [collision_free] in H. apply andb_prop in H as [H _]. rewrite forallb_forall in H.
  specialize (H _ Hf). rewrite find_mem_keys in H. now destruct (alist_find _ es).
Qed.

Lemma collision_dirs_free_spec f r : forall T n,
  collision_dirs_free f T n = true ->
  forall es g, lookup n r = Some (Dir es) -> In g (filenames es) ->
               stat f (T ++ r ++ [copy_name g]) <> Some KDir.
Proof.
  induction r as [|c r IH]; intros T n Hn es g Hl Hg; cbn [lookup] in Hl.
  - injection Hl as ->. cbn [collision_dirs_free] in Hn. apply andb_prop in Hn as [H _].
    rewrite forallb_forall in H. specialize (H _ Hg). cbn [app]. intros E.
    now rewrite E in H.
  - destruct n as [|es1]; [discriminate|].
    destruct (alist_find c es1) as [ch|] eqn:F; [|discriminate].
    apply find_in in F. cbn [collision_dirs_free] in Hn. apply andb_prop in Hn as [_ Hn].
    rewrite forallb_forall in Hn. specialize (Hn _ F). cbn [fst snd] in Hn.
    replace (T ++ (c :: r) ++ [copy_name g]) with ((T ++ [c]) ++ r ++ [copy_name g])
      by (now rewrite <- app_assoc).
    exact (IH _ _ Hn _ _ Hl Hg).
Qed.

Lemma collision_dirs_free_ok f T n :
  collision_dirs_free f T n = true -> no_collision_dirs T n f.
Proof. intros H r es g. now apply collision_dirs_free_spec. Qed.

(** ** One file of [_copy_tree] at a path that exists, in every case *)

(** The computed path exists.  What is there stays.  Where the path with
    the collision name is not a directory, the data of the source file is
    written there, replacing what the path held, nothing is printed and no
    other path changes.  Where it is a directory, nothing changes but the
    path of the name of the file inside that directory: the data is written
    there, or an error is printed. *)
Lemma copy_file_taken st root target_root f d old :
  valid_name f = true ->
  resolve (fs st) (join root f) = Some (File d) ->
  resolve (fs st) (join target_root f) = Some old ->
  resolve (fs (copy_file root target_root st f)) (join target_root f) = Some old
  /\ (isdir (fs st) (join target_root (copy_name f)) = false ->
      resolve (fs (copy_file root target_root st f)) (join target_root (copy_name f))
      = Some (File d)
      /\ stdout (copy_file root target_root st f) = stdout st
      /\ forall q, q <> comps target_root ++ [copy_name f] ->
                   stat (fs (copy_file root target_root st f)) q = stat (fs st) q)
  /\ (isdir (fs st) (join target_root (copy_name f)) = true ->
      (forall q, q <> comps target_root ++ [copy_name f; f] ->
                 stat (fs (copy_file root target_root st f)) q = stat (fs st) q)
      /\ ((stat (fs (copy_file root target_root st f))
                (comps target_root ++ [copy_name f; f]) = Some (KFile d)
           /\ stdout (copy_file root target_root st f) = stdout st)
          \/ exists e, copy_file root target_root st f
                       = print (ErreurCopie (join root f) e) st)).
Proof.
  intros Hf Hsp Hdp. pose proof (copy_name_valid f Hf) as Hc.
  assert (Hex : exists_ (fs st) (join target_root f) = true)
    by (unfold exists_; now rewrite Hdp).
  assert (Hst : stat (fs st) (comps target_root ++ [f]) <> None).
  { rewrite resolve_join in Hdp by assumption. unfold stat. now rewrite Hdp. }
  split; [|split].
  - rewrite resolve_join in * by assumption.
    destruct (copy_file_cases root target_root st f Hf) as [[e ->]|(d' & fs' & _ & W & ->)];
      [assumption|]. cbn [fs with_fs].
    rewrite (write_at_frame _ _ _ _ _ W); [assumption|].
    unfold written_path. rewrite Hex.
    destruct (isdir (fs st) (join target_root (copy_name f)));
      rewrite !comps_join by assumption.
    + rewrite <- app_assoc, is_prefix_app_cancel. cbn.
      pose proof (copy_name_neq f) as N. apply String.eqb_neq in N.
      rewrite String.eqb_sym in N. now rewrite N.
    + apply is_prefix_snoc_neq. intros E. now apply (copy_name_neq f).
  - intros Hnd.
    assert (Hnot : stat (fs st) (comps target_root ++ [copy_name f]) <> Some KDir).
    { intros E. assert (isdir (fs st) (join target_root (copy_name f)) = true);
        [|congruence]. apply isdir_stat. rewrite comps_join by assumption.
      split; [|assumption]. apply join_nonempty. now destruct (valid_name_inv _ Hc). }
    destruct (copy_file_renames root target_root st f d Hf Hsp Hst Hnot) as (fs' & W & ->).
    cbn [fs with_fs stdout]. rewrite resolve_join by assumption.
    split; [exact (write_at_same _ _ _ _ W)|]. split; [reflexivity|].
    intros q Hq. exact (write_at_stat _ _ _ _ _ W Hq).
  - intros Hd.
    destruct (copy_file_cases root target_root st f Hf) as [[e E]|(d' & fs' & Hsp' & W & E)].
    + rewrite E. cbn [fs print]. split; [reflexivity|]. right. now exists e.
    + rewrite E. cbn [fs with_fs stdout]. rewrite Hsp in Hsp'. injection Hsp' as <-.
      unfold written_path in W. rewrite Hex, Hd in W.
      rewrite !comps_join, <- app_assoc in W by assumption. cbn [app] in W.
      split; [intros q Hq; exact (write_at_stat _ _ _ _ _ W Hq)|]. left.
      split; [|reflexivity]. unfold stat. now rewrite (write_at_same _ _ _ _ W).
Qed.

(** ** The copy of a directory that returns *)



(** ** The same directory copied three times, to a target that does not exist *)


(** ** The same plain file copied twice *)


(** ** The copy of a directory returns where no file is in the way *)

Section CopyReturns.

Variables src dst : string.
Variable n0 : node.

Hypothesis dst_ne : (dst =? "") = false.
Hypothesis wf0 : wf_node n0 = true.
Hypothesis apart : disjoint (comps src) (comps dst) = true.
Hypothesis fresh_names : no_collision_names n0.

(** The run over a list of different directories of the source, none of
    which has a regular file at its place under the target or above it. *)
Lemma run_copy_returns nodes :
  Forall (pending (comps src) n0) nodes -> NoDup (map (fun v => snd (fst v)) nodes) ->
  forall st, src_fixed (comps src) n0 st -> no_collision_dirs (comps dst) n0 (fs st) ->
  (forall v, In v nodes -> creatable (fs st) (comps dst ++ snd (fst v))) ->
  exists st', run_list (copy_dir src dst) (map yielded nodes) st = Done st'.
Proof.
  induction nodes as [|v nodes IH]; intros Hall Hnd st HP Hii Hcr; [now exists st|].
  inversion Hall as [|? ? Hv Hrest]; subst. cbn [map] in Hnd.
  inversion Hnd as [|? ? Hnotin Hnd']; subst.
  assert (Hnd1 : NoDup (map (fun v : string * list string * list (string * node) =>
                               snd (fst v)) [v])) by (repeat constructor; intros []).
  pose proof (run_copy_data src dst n0 dst_ne wf0 apart fresh_names [v]
                (Forall_cons _ Hv (Forall_nil _)) Hnd1 st HP Hii) as R1.
  pose proof (copy_dir_step src dst n0 dst_ne wf0 apart v st HP Hv) as Hstep.
  cbn [map run_list] in R1 |- *. unfold yielded at 1 in R1. unfold yielded at 1.
  destruct (copy_dir src dst (fst (fst v)) (dirnames (snd v)) (filenames (snd v)) st)
    as [st1|e st1|]; [| |contradiction].
  - destruct R1 as (HP1 & Hii1 & _ & D1 & C1 & _).
    apply IH; try assumption. intros w Hw q Hq.
    destruct (kind_eq_dec (stat (fs st1) q) (stat (fs st) q)) as [K|K].
    + rewrite K. exact (Hcr w (or_intror Hw) q Hq).
    + destruct (C1 q K) as (v' & [<-|[]] & [P|(g & Hg & P)]).
      * right. apply (D1 v); [now left|assumption].
      * exfalso. destruct Hv as (_ & _ & Hlv). rewrite Forall_forall in Hrest.
        destruct (Hrest w Hw) as (_ & _ & Hlw).
        destruct (file_data n0 wf0 _ _ g Hlv Hg) as [d F].
        destruct (not_below_file dst n0 fresh_names _ _ _ _ g d Hlv Hlw F) as [N1 N2].
        destruct P as [-> | ->]; congruence.
  - destruct Hstep as [_ M].
    destruct (makedirs_at_ok _ _ (Hcr v (or_introl eq_refl))) as [n' M']. congruence.
Qed.

End CopyReturns.

(** Where no regular file sits at the place of a directory of the source
    under the target, or above it, [_copy_tree] returns. *)
Lemma copy_tree_returns_creatable fuel src dst st es0 :
  (src =? "") = false -> (dst =? "") = false ->
  lookup (fs st) (comps src) = Some (Dir es0) -> wf_node (Dir es0) = true ->
  disjoint (comps src) (comps dst) = true -> count_dirs (Dir es0) < fuel ->
  no_collision_names (Dir es0) -> no_collision_dirs (comps dst) (Dir es0) (fs st) ->
  (forall r es, lookup (Dir es0) r = Some (Dir es) ->
                creatable (fs st) (comps dst ++ r)) ->
  exists st', _copy_tree fuel src dst st = Done st'.
Proof.
  intros Hs Hd HP Hwf Hap Hfuel Hnames Hii Hcr.
  destruct (copy_tree_run src dst (Dir es0) Hs Hd Hwf Hap fuel es0 st eq_refl HP Hfuel)
    as [-> Hpend].
  apply (run_copy_returns src dst (Dir es0) Hd Hwf Hap Hnames _ Hpend
           (walk_nodes_NoDup _ Hwf src []) st HP Hii).
  intros v Hv. rewrite Forall_forall in Hpend. destruct (Hpend v Hv) as (_ & _ & Hl).
  exact (Hcr _ _ Hl).
Qed.

(** A directory is no obstacle to [makedirs]. *)
Lemma creatable_dir f w : stat f w = Some KDir -> creatable f w.
Proof. intros H q Hq. right. exact (stat_prefix_dir _ _ _ H Hq). Qed.

(** A directory without subdirectories holds one directory, itself. *)
Lemma lookup_no_subdir es0 r es :
  dirnames es0 = [] -> lookup (Dir es0) r = Some (Dir es) -> r = [].
Proof.
  intros Hd H. destruct r as [|c r]; [reflexivity|]. exfalso. cbn [lookup] in H.
  destruct (alist_find c es0) as [[d|es1]|] eqn:F; [now destruct r| |discriminate].
  apply find_in in F. assert (Hin : In c (dirnames es0)) by (apply in_dirnames; eauto).
  now rewrite Hd in Hin.
Qed.

(** ** The same directory copied three times, to any target *)


(** ** C2: a collision in the copy of a directory *)

(** C2, as stated, fails in two ways.  Where the path with the collision
    name is a directory of the destination, the data of the source file goes
    into that directory, under the name of the file, and no [photo_copy.jpg]
    file is written.  Where the source holds both [photo.jpg] and
    [photo_copy.jpg] and the destination holds both too, the destination file
    at the computed path [/dst/photo_copy.jpg] is replaced by the data of
    [photo.jpg]. *)
Lemma collision_name_already_taken :
  (exists st',
     _copy_tree 3 "/src" "/dst" (Trial.appstate0 Trial2.disk_name_is_dir) = Done st'
     /\ stdout st' = []
     /\ resolve (fs st') "/dst/photo.jpg" = Some (File "OLD")
     /\ resolve (fs st') "/dst/photo_copy.jpg" = Some (Dir [("photo.jpg", File "NEW")]))
  /\ (exists st',
        _copy_tree 3 "/src" "/dst" (Trial.appstate0 Trial2.disk_name_taken) = Done st'
        /\ stdout st' = []
        /\ exists_ Trial2.disk_name_taken "/dst/photo_copy.jpg" = true
        /\ resolve Trial2.disk_name_taken "/dst/photo_copy.jpg" = Some (File "OLD2")
        /\ resolve (fs st') "/dst/photo_copy.jpg" = Some (File "NEW1")
        /\ resolve (fs st') "/dst/photo_copy_copy.jpg" = Some (File "NEW2")).
Proof. split; eexists; repeat split; vm_compute; reflexivity. Qed.

(** C2, amended.  One file of the loop of [_copy_tree] whose computed
    destination path exists, the paths written without [..]: what is at the
    computed path stays; where the path with [_copy] before the extension is
    not a directory, the data of the source file is written there, taking the
    place of what that path held, nothing is printed and no other path
    changes; where it is a directory, nothing changes but the path of the
    name of the file inside that directory, where the data is written unless
    an error is printed.  The whole copy of a directory that lies apart from
    the target, where no directory of the source holds an entry with the
    collision name of one of its files and the target holds no directory at
    such a name: the copy returns where no regular file sits at the place of
    a directory of the source under the target, or above it; when it has
    returned, nothing is printed, each file of the source whose path under
    the target was taken has left that path as it was and has its data at
    the path with the collision name, each other file has its data at its
    path, and no path has changed but these and the directories of the
    source under the target. *)
Theorem collision_keeps_both :
  (forall st root target_root f d old,
     valid_name f = true ->
     has_dotdot root = false -> has_dotdot target_root = false ->
     resolve (fs st) (join root f) = Some (File d) ->
     resolve (fs st) (join target_root f) = Some old ->
     resolve (fs (copy_file root target_root st f)) (join target_root f) = Some old
     /\ (isdir (fs st) (join target_root (copy_name f)) = false ->
         resolve (fs (copy_file root target_root st f)) (join target_root (copy_name f))
         = Some (File d)
         /\ stdout (copy_file root target_root st f) = stdout st
         /\ forall q, q <> comps target_root ++ [copy_name f] ->
                      stat (fs (copy_file root target_root st f)) q = stat (fs st) q)
     /\ (isdir (fs st) (join target_root (copy_name f)) = true ->
         (forall q, q <> comps target_root ++ [copy_name f; f] ->
                    stat (fs (copy_file root target_root st f)) q = stat (fs st) q)
         /\ ((stat (fs (copy_file root target_root st f))
                   (comps target_root ++ [copy_name f; f]) = Some (KFile d)
              /\ stdout (copy_file root target_root st f) = stdout st)
             \/ exists e, copy_file root target_root st f
                          = print (ErreurCopie (join root f) e) st)))
  /\ (forall fuel src dst st es0,
        (src =? "") = false -> (dst =? "") = false ->
        has_dotdot src = false -> has_dotdot dst = false ->
        lookup (fs st) (comps src) = Some (Dir es0) ->
        wf_node (Dir es0) = true ->
        disjoint (comps src) (comps dst) = true ->
        count_dirs (Dir es0) < fuel ->
        collision_free (Dir es0) = true ->
        collision_dirs_free (fs st) (comps dst) (Dir es0) = true ->
        ((forall r es, lookup (Dir es0) r = Some (Dir es) ->
                       creatable (fs st) (comps dst ++ r)) ->
         exists st', _copy_tree fuel src dst st = Done st')
        /\ forall st', _copy_tree fuel src dst st = Done st' ->
             stdout st' = stdout st
             /\ (forall r es, lookup (Dir es0) r = Some (Dir es) ->
                              stat (fs st') (comps dst ++ r) = Some KDir)
             /\ landed (comps dst) (Dir es0) (fs st) (fs st')
             /\ copies_only (comps dst) (Dir es0) (fs st) (fs st')).
Proof.
  split.
  - intros st root target_root f d old Hf _ _ Hsp Hdp.
    exact (copy_file_taken st root target_root f d old Hf Hsp Hdp).
  - intros fuel src dst st es0 Hs Hd _ _ HP Hwf Hap Hfuel Hnames Hdirs. split.
    + exact (copy_tree_returns_creatable fuel src dst st es0 Hs Hd HP Hwf Hap Hfuel
               (collision_free_spec _ Hnames) (collision_dirs_free_ok _ _ _ Hdirs)).
    + intros st' Run.
      destruct (copy_tree_data fuel src dst st es0 st' Hs Hd HP Hwf Hap Hfuel
                  (collision_free_spec _ Hnames) (collision_dirs_free_ok _ _ _ Hdirs) Run)
        as (_ & _ & O & D & L & C).
      auto.
Qed.

Lemma collision_keeps_both_witness :
  (resolve (fs (copy_file "/src" "/dst" Trial.st_collision "photo.jpg")) "/dst/photo.jpg"
   = Some (File "OLD")
   /\ resolve (fs (copy_file "/src" "/dst" Trial.st_collision "photo.jpg"))
              "/dst/photo_copy.jpg" = Some (File "NEW")
   /\ stdout (copy_file "/src" "/dst" Trial.st_collision "photo.jpg") = [])
  /\ (exists st', _copy_tree 3 "/src" "/dst" Trial.st_collision = Done st')
  /\ (stdout Trial.st_collision_copied = []
      /\ stat (fs Trial.st_collision_copied) ["dst"; "photo.jpg"] = Some (KFile "OLD")
      /\ stat (fs Trial.st_collision_copied) ["dst"; "photo_copy.jpg"] = Some (KFile "NEW")).
Proof.
  split.
  - destruct (proj1 collision_keeps_both Trial.st_collision "/src" "/dst" "photo.jpg"
                "NEW" (File "OLD") eq_refl eq_refl eq_refl eq_refl eq_refl) as (A & B & _).
    destruct (B eq_refl) as (B1 & B2 & _). exact (conj A (conj B1 B2)).
  - destruct (proj2 collision_keeps_both 3 "/src" "/dst" Trial.st_collision
                [("photo.jpg", File "NEW")] eq_refl eq_refl eq_refl eq_refl eq_refl eq_refl
                eq_refl ltac:(vm_compute; lia) eq_refl eq_refl) as [Ret Post].
    split.
    + apply Ret. intros r es Hl. rewrite (lookup_no_subdir [("photo.jpg", File "NEW")] _ _ eq_refl Hl).
      apply creatable_dir. reflexivity.
    + destruct (Post Trial.st_collision_copied eq_refl) as (O & _ & L & _).
      destruct (L [] [("photo.jpg", File "NEW")] "photo.jpg" "NEW" eq_refl eq_refl)
        as [_ T].
      destruct (T ltac:(vm_compute; discriminate)) as [T1 T2].
      exact (conj O (conj T1 T2)).
Defined.

(** ** C3: the same copy, twice *)




(** * The rest of the window: guards, names and what a call leaves alone *)

(** ** Paths made of separators *)

Lemma rstrip_sep_empty s : (rstrip_sep s =? "") = all_seps s.
Proof.
  induction s as [|c s IH]; [reflexivity|]. cbn [rstrip_sep all_seps]. cbv zeta.
  rewrite IH. destruct (is_sep c), (all_seps s); reflexivity.
Qed.

Lemma rstrip_sep_no_trailing s : ends_with_sep (rstrip_sep s) = false.
Proof.
  induction s as [|c s IH]; [reflexivity|]. cbn [rstrip_sep]. cbv zeta.
  destruct (rstrip_sep s) as [|c' r'] eqn:E.
  - destruct (is_sep c) eqn:Hc; cbn; [reflexivity|exact Hc].
  - rewrite andb_false_r. exact IH.
Qed.

Lemma ends_with_sep_has_sep s : ends_with_sep s = true -> has_sep s = true.
Proof.
  induction s as [|c s IH]; [discriminate|]. cbn [ends_with_sep has_sep].
  destruct s as [|c' s']; [now intros ->|]. intros H. rewrite (IH H). apply orb_true_r.
Qed.

Lemma rsplit_sep_fst_empty s : fst (rsplit_sep s) = "" -> has_sep s = false.
Proof.
  induction s as [|c s IH]; [reflexivity|]. cbn [rsplit_sep has_sep].
  destruct (rsplit_sep s) as [h t]. cbn [fst] in IH.
  destruct (is_sep c); [discriminate|]. destruct (h =? "") eqn:E; [|discriminate].
  apply String.eqb_eq in E. intros _. now apply IH.
Qed.

(** The base name is empty exactly for the empty path and for a path that
    ends with a separator. *)
Lemma basename_empty p : basename p = "" <-> p = "" \/ ends_with_sep p = true.
Proof.
  split.
  - unfold basename. induction p as [|c p IH]; [now left|]. intros H. right.
    cbn [rsplit_sep] in H. destruct (rsplit_sep p) as [h t] eqn:R. cbn [snd] in IH.
    destruct (is_sep c) eqn:Hc.
    + cbn [snd] in H. destruct (IH H) as [->|E]; [exact Hc|].
      cbn [ends_with_sep]. destruct p; [discriminate|exact E].
    + destruct (h =? "") eqn:E; [discriminate|]. cbn [snd] in H.
      destruct (IH H) as [->|E']; [cbn in R; injection R as <- <-; discriminate|].
      cbn [ends_with_sep]. destruct p; [discriminate|exact E'].
  - intros [->|H]; [reflexivity|]. destruct (ends_with_sep_inv _ H) as [a ->].
    unfold basename. now rewrite (rsplit_sep_app a "" eq_refl).
Qed.

Lemma basename_suffix p : exists pre, p = pre +++ basename p.
Proof.
  unfold basename. induction p as [|c p [pre IH]]; [now exists ""|].
  cbn [rsplit_sep]. destruct (rsplit_sep p) as [h t] eqn:R. cbn [snd] in IH.
  destruct (is_sep c) eqn:Hc; [|destruct (h =? "") eqn:E]; cbn [snd].
  - exists (String c pre). cbn. now rewrite <- IH.
  - exists "". cbn. f_equal. apply String.eqb_eq in E. subst h.
    pose proof (rsplit_sep_fst_empty p) as F. rewrite R in F.
    pose proof (rsplit_sep_nosep p (F eq_refl)) as G. rewrite R in G. now injection G.
  - exists (String c pre). cbn. now rewrite <- IH.
Qed.

Lemma basename_rstrip_empty s : (basename (rstrip_sep s) =? "") = all_seps s.
Proof.
  rewrite <- rstrip_sep_empty. destruct (rstrip_sep s =? "") eqn:E.
  - apply String.eqb_eq in E. now rewrite E.
  - apply String.eqb_neq. intros B. apply basename_empty in B as [B|B].
    + rewrite B in E. discriminate.
    + rewrite rstrip_sep_no_trailing in B. discriminate.
Qed.

(** ** [copy_all]: the guards and the names of the folders *)

(** X1. [copy_all] never lets an exception out.  Without a selected volume or
    without a destination it shows one warning and changes nothing else.
    Whenever it returns it has shown exactly one message box, and the tree
    view, the selection and the destination are as before; the box is a
    warning only where the selection or the destination is missing, and
    otherwise it tells, with the status line, whether the copy finished or
    stopped on an error. *)
Theorem copy_all_shows_one_box fuel st :
  (drive_var st = "" \/ is_empty (destination st) = true ->
   exists title message, copy_all fuel st = Done (messagebox (ShowWarning title message) st))
  /\ (forall e st', copy_all fuel st <> Raised e st')
  /\ forall st', copy_all fuel st = Done st' ->
       tree st' = tree st /\ drive_var st' = drive_var st /\ destination st' = destination st
       /\ exists b, boxes st' = boxes st ++ [b]
            /\ match b with
               | ShowWarning _ _ =>
                   (drive_var st = "" \/ is_empty (destination st) = true)
                   /\ st' = messagebox b st
               | ShowInfo _ _ => status_label st' = "Statut: Copie terminée"
               | ShowError _ _ _ => status_label st' = "Statut: Erreur lors de la copie"
               end.
Proof.
  unfold copy_all. destruct (drive_var st =? "") eqn:Hs.
  { apply String.eqb_eq in Hs. split; [intros _; eauto|]. split; [discriminate|].
    intros st' E. injection E as <-. cbn. repeat split. eexists. split; [reflexivity|].
    cbn. split; [now left|reflexivity]. }
  assert (W : forall t m (R : Prop) (o : option string),
            is_empty o = true ->
            (R -> exists title message,
               Done (messagebox (ShowWarning t m) st)
               = Done (messagebox (ShowWarning title message) st))
            /\ (forall e st', Done (messagebox (ShowWarning t m) st) <> Raised e st')
            /\ forall st', Done (messagebox (ShowWarning t m) st) = Done st' ->
                 tree st' = tree st /\ drive_var st' = drive_var st
                 /\ destination st' = destination st
                 /\ exists b, boxes st' = boxes st ++ [b]
                      /\ match b with
                         | ShowWarning _ _ =>
                             (drive_var st = "" \/ is_empty o = true)
                             /\ st' = messagebox b st
                         | ShowInfo _ _ => status_label st' = "Statut: Copie terminée"
                         | ShowError _ _ _ =>
                             status_label st' = "Statut: Erreur lors de la copie"
                         end).
  { intros t m R o He. split; [eauto|]. split; [discriminate|]. intros st' E.
    injection E as <-. cbn. repeat split. eexists. split; [reflexivity|]. cbn.
    split; [now right|reflexivity]. }
  destruct (destination st) as [d|] eqn:Hd; [|rewrite <- Hd at 1; now apply W].
  destruct (d =? "") eqn:Hde; [rewrite <- Hd at 1; now apply W|].
  set (dst := join d _). unfold _copy_paths_thread.
  pose proof (copy_paths_session fuel (Some dst) [drive_var st]
                (set_status "Copie en cours..." st) _ (same_session_refl _)) as S.
  split; [|split].
  - intros [E|E]; [rewrite E in Hs; discriminate|cbn in E; congruence].
  - intros e st'. destruct (copy_paths _ _ _ _); discriminate.
  - intros st' E.
    destruct (copy_paths _ _ _ _) as [s|e s|s]; cbn [andthen holds] in *;
      [| |discriminate]; injection E as <-; destruct S as (St & _ & Sb & Sd & Sde);
      cbn in *; rewrite St, Sb, Sd, Sde, Hd; repeat split; eexists; (split; [reflexivity|]);
      reflexivity.
Qed.

(** X2. The folder names of [copy_all]: the batch is sent to [d/B_copy], where
    [B] is the base name of the selection without its trailing separators,
    and the volume is copied to the folder [B] in it.  Exactly when the
    selection is made of separators only, the base name is empty and the
    placeholders take its place: the files go to [d/usb_copy_copy/root]. *)
Theorem copy_all_placeholder_names fuel st d :
  (drive_var st =? "") = false -> destination st = Some d -> (d =? "") = false ->
  let src := drive_var st in
  let B := str_or (basename (rstrip_sep src)) "usb_copy" in
  copy_all fuel st = _copy_paths_thread fuel [src] (Some (join d (B +++ "_copy"))) st
  /\ (all_seps src = true ->
      B = "usb_copy" /\ dir_name src = "root"
      /\ comps (target_of (join d (B +++ "_copy")) src)
         = comps d ++ ["usb_copy_copy"; "root"])
  /\ (all_seps src = false ->
      B = basename (rstrip_sep src) /\ dir_name src = B
      /\ (B =? "") = false /\ has_sep B = false).
Proof.
  intros Hs Hd Hde src B. split; [|split].
  - unfold copy_all, B, src. now rewrite Hs, Hd, Hde.
  - intros Ha. pose proof (basename_rstrip_empty src) as E. rewrite Ha in E.
    assert (EB : B = "usb_copy") by (unfold B, str_or; now rewrite E).
    assert (ED : dir_name src = "root") by (unfold dir_name, str_or; now rewrite E).
    split; [assumption|]. split; [assumption|]. unfold target_of. rewrite ED, EB.
    rewrite !comps_join by reflexivity. now rewrite <- app_assoc.
  - intros Ha. pose proof (basename_rstrip_empty src) as E. rewrite Ha in E.
    assert (EB : B = basename (rstrip_sep src)) by (unfold B, str_or; now rewrite E).
    split; [assumption|]. split; [unfold dir_name, str_or; now rewrite E, EB|].
    rewrite EB. split; [assumption|apply basename_nosep].
Qed.

Lemma copy_all_shows_one_box_witness :
  exists title message,
    copy_all 5 (Trial.appstate0 Trial.disk0)
    = Done (messagebox (ShowWarning title message) (Trial.appstate0 Trial.disk0)).
Proof.
  exact (proj1 (copy_all_shows_one_box 5 (Trial.appstate0 Trial.disk0)) (or_introl eq_refl)).
Defined.

Lemma copy_all_placeholder_names_witness :
  comps (target_of (join "/out" ("usb_copy" +++ "_copy")) "/") = ["out"; "usb_copy_copy"; "root"].
Proof.
  exact (proj2 (proj2 (proj1 (proj2 (copy_all_placeholder_names 5 Trial2.st_root_selected "/out"
                                        eq_refl eq_refl eq_refl)) eq_refl))).
Defined.

(** ** The copy never removes anything *)

Lemma keeps_refl f : keeps_kinds f f.
Proof. intros q. split; eauto. Qed.

Lemma keeps_trans f g h : keeps_kinds f g -> keeps_kinds g h -> keeps_kinds f h.
Proof.
  intros A B q. destruct (A q) as [A1 A2], (B q) as [B1 B2]. split; [auto|].
  intros d Hd. destruct (A2 d Hd) as [d' Hd']. eauto.
Qed.

Lemma write_keeps f w d f' : write_at f w d = Ok f' -> keeps_kinds f f'.
Proof.
  intros W q. destruct (list_eq_dec string_dec q w) as [->|Hq].
  - pose proof (write_at_pre _ _ _ _ W) as Hn. split; [contradiction|].
    intros _ _. exists d. unfold stat. now rewrite (write_at_same _ _ _ _ W).
  - rewrite (write_at_stat _ _ _ _ _ W Hq). split; eauto.
Qed.

Lemma makedirs_keeps f w f' : makedirs_at f w = Ok f' -> keeps_kinds f f'.
Proof.
  intros M q. destruct (is_prefix q w) eqn:Hp.
  - split; [intros _; exact (makedirs_at_dirs _ _ _ _ M Hp)|].
    intros d Hd. destruct (makedirs_at_pre _ _ _ _ M Hp); congruence.
  - unfold stat. rewrite (makedirs_at_frame _ _ _ _ M Hp). split; eauto.
Qed.

Lemma copy2_keeps f s d f' : copy2 f s d = Ok f' -> keeps_kinds f f'.
Proof. intros C. destruct (copy2_ok _ _ _ _ C) as (x & _ & W). exact (write_keeps _ _ _ _ W). Qed.

Lemma copy_file_keeps root tr st f : keeps_kinds (fs st) (fs (copy_file root tr st f)).
Proof.
  unfold copy_file. destruct (copy2 _ _ _) as [f'|e] eqn:C; cbn [fs with_fs print].
  - exact (copy2_keeps _ _ _ _ C).
  - apply keeps_refl.
Qed.

Lemma copy_files_keeps root tr files : forall st,
  keeps_kinds (fs st) (fs (fold_left (copy_file root tr) files st)).
Proof.
  induction files as [|f files IH]; intros st; cbn [fold_left]; [apply keeps_refl|].
  eapply keeps_trans; [apply copy_file_keeps|apply IH].
Qed.

Lemma copy_dir_keeps src dst f0 root dirs files st :
  keeps_kinds f0 (fs st) ->
  holds (fun s => keeps_kinds f0 (fs s)) (copy_dir src dst root dirs files st).
Proof.
  intros K. unfold copy_dir. destruct (makedirs _ _) as [f1|e] eqn:M; cbn [holds]; [|assumption].
  destruct (makedirs_ok _ _ _ M) as (_ & M' & _).
  eapply keeps_trans; [exact K|]. eapply keeps_trans; [exact (makedirs_keeps _ _ _ M')|].
  apply (copy_files_keeps _ _ files (with_fs f1 st)).
Qed.

Lemma copy_tree_keeps fuel src dst f0 st :
  keeps_kinds f0 (fs st) ->
  holds (fun s => keeps_kinds f0 (fs s)) (_copy_tree fuel src dst st).
Proof.
  intros K. unfold _copy_tree. destruct (negb _); [assumption|].
  apply (os_walk_invariant (fun s => keeps_kinds f0 (fs s)) (fun _ => True)); auto.
  intros top dirs nondirs s Hs _ _. now apply copy_dir_keeps.
Qed.

Lemma copy_path_keeps fuel o p f0 st :
  keeps_kinds f0 (fs st) ->
  holds (fun s => keeps_kinds f0 (fs s)) (copy_path fuel o p st).
Proof.
  intros K. unfold copy_path. destruct (dst_or _ _) as [dst|]; [|assumption].
  destruct (isdir _ _); [now apply copy_tree_keeps|].
  destruct (makedirs _ _) as [f1|e] eqn:M; [|assumption].
  destruct (makedirs_ok _ _ _ M) as (_ & M' & _).
  pose proof (keeps_trans _ _ _ K (makedirs_keeps _ _ _ M')) as K1.
  destruct (copy2 _ _ _) as [f2|e] eqn:C; cbn [holds fs with_fs print]; [|assumption].
  exact (keeps_trans _ _ _ K1 (copy2_keeps _ _ _ _ C)).
Qed.

Lemma copy_paths_keeps fuel o f0 paths : forall st,
  keeps_kinds f0 (fs st) ->
  holds (fun s => keeps_kinds f0 (fs s)) (copy_paths fuel o paths st).
Proof.
  induction paths as [|p paths IH]; intros st K; cbn [copy_paths]; [assumption|].
  pose proof (copy_path_keeps fuel o p f0 st K) as H.
  destruct (copy_path fuel o p st); cbn [andthen holds] in *; auto.
Qed.

(** X3. Whatever the batch, the destination and the state of the file system,
    and however the copy ends (returned, stopped on an error, or still
    running when the fuel is used up): every path that existed before the
    copy exists after it with the same kind, a directory as a directory
    and a regular file as a regular file.  The same holds of [copy_all]. *)
Theorem copy_never_removes fuel st :
  (forall paths o,
     holds (fun st' => keeps_kinds (fs st) (fs st')) (_copy_paths_thread fuel paths o st))
  /\ holds (fun st' => keeps_kinds (fs st) (fs st')) (copy_all fuel st).
Proof.
  assert (T : forall paths o,
            holds (fun st' => keeps_kinds (fs st) (fs st'))
                  (_copy_paths_thread fuel paths o st)).
  { intros paths o. apply (thread_fs fuel paths o st (keeps_kinds (fs st))).
    apply copy_paths_keeps. apply keeps_refl. }
  split; [exact T|]. unfold copy_all.
  destruct (drive_var st =? ""); [apply keeps_refl|].
  destruct (destination st) as [d|]; [|apply keeps_refl].
  destruct (d =? ""); [apply keeps_refl|apply T].
Qed.

(** ** A batch that stops before it copies *)

Lemma relpath_self p : relpath p p = ".".
Proof. now rewrite (relpath_under p p []) by (rewrite ?app_nil_r; auto). Qed.

(** X4. The batch stops at its first source, with one error box that
    shows the exception, the file system and the standard output untouched
    and the other sources not looked at, when there is no destination at
    all, when the source is not a directory and the destination cannot be
    created, or when the source is a directory and its target cannot be
    created; the paths being written without [..] and the path that cannot
    be created ending with a name. *)
Theorem batch_stops_at_first_failure fuel p rest o st e :
  (dst_or o (destination st) = None /\ e = TypeError)
  \/ (exists dst, dst_or o (destination st) = Some dst
        /\ ((isdir (fs st) p = false
             /\ has_dotdot dst = false /\ valid_name (basename dst) = true
             /\ makedirs (fs st) dst = Raise e)
            \/ (isdir (fs st) p = true /\ 0 < fuel /\ has_dotdot p = false
                /\ has_dotdot (target_of dst p) = false /\ valid_name (dir_name p) = true
                /\ makedirs (fs st) (target_of dst p) = Raise e))) ->
  _copy_paths_thread fuel (p :: rest) o st
  = Done (messagebox (ShowError "Erreur" "Une erreur est survenue pendant la copie: " e)
                     (set_status "Erreur lors de la copie" st)).
Proof.
  intros H. unfold _copy_paths_thread. cbn [copy_paths]. unfold copy_path.
  cbn [destination set_status fs].
  destruct H as [[-> ->]|(dst & -> & [(Hd & _ & _ & M)|(Hd & Hf & _ & _ & _ & M)])];
    [reflexivity| |].
  - now rewrite Hd, M.
  - rewrite Hd. fold (dir_name p). fold (target_of dst p). unfold _copy_tree. cbn [fs set_status].
    pose proof Hd as Hd'. apply isdir_stat in Hd' as [Hp Hs].
    assert (Hex : exists_ (fs st) p = true) by (apply exists_stat; split; congruence).
    rewrite Hex. cbn [negb]. destruct fuel as [|fuel]; [lia|]. cbn [os_walk fs set_status].
    unfold scandir. unfold isdir in Hd. destruct (resolve (fs st) p) as [[x|es]|]; try discriminate.
    unfold copy_dir. rewrite relpath_self. cbn [negb String.eqb Ascii.eqb Bool.eqb fs].
    cbn. now rewrite M.
Qed.

Lemma batch_stops_at_first_failure_witness :
  _copy_paths_thread 3 ["/a.txt"; "/a.txt"] (Some "/out/x") Trial.st_blocked
  = Done (messagebox (ShowError "Erreur" "Une erreur est survenue pendant la copie: "
                                NotADirectoryError)
                     (set_status "Erreur lors de la copie" Trial.st_blocked)).
Proof.
  exact (batch_stops_at_first_failure 3 "/a.txt" ["/a.txt"] (Some "/out/x") Trial.st_blocked
           NotADirectoryError
           (or_intror (ex_intro _ "/out/x"
              (conj eq_refl (or_introl (conj eq_refl (conj eq_refl (conj eq_refl eq_refl)))))))).
Defined.

(** X5. [_copy_tree] on a source that is not a directory (a missing path, the
    empty path or a regular file) returns without any change: not even the
    destination is created. *)
Theorem copy_tree_skips_non_directory fuel src dst st :
  isdir (fs st) src = false -> exists_ (fs st) src = false \/ 2 <= fuel ->
  _copy_tree fuel src dst st = Done st.
Proof.
  intros Hd H. unfold _copy_tree. destruct (exists_ (fs st) src) eqn:Hex; [|reflexivity].
  destruct H as [H|H]; [discriminate|]. cbn [negb].
  destruct fuel as [|[|fuel]]; try lia. cbn [os_walk]. unfold scandir.
  unfold isdir in Hd. destruct (resolve (fs st) src) as [[x|es]|]; [reflexivity|discriminate|reflexivity].
Qed.

Lemma copy_tree_skips_non_directory_witness :
  _copy_tree 2 "/media/usb/notes" "/out/notes" Trial.st_usb = Done Trial.st_usb.
Proof.
  exact (copy_tree_skips_non_directory 2 "/media/usb/notes" "/out/notes" Trial.st_usb
           eq_refl (or_intror (le_n 2))).
Defined.

(** ** [_populate_tree] and [open_selected_drive] *)

Lemma same_disk_refl st : same_disk st st.
Proof. now repeat split. Qed.

Lemma try_insert_disk i st0 st name : same_disk st0 st -> same_disk st0 (try_insert i st name).
Proof. unfold try_insert. now destruct (tv_insert _ _ _ _) as [[? ?]|]. Qed.

Lemma try_inserts_disk i st0 names : forall st,
  same_disk st0 st -> same_disk st0 (fold_left (try_insert i) names st).
Proof.
  induction names as [|n names IH]; intros st H; [assumption|]. cbn [fold_left].
  apply IH. now apply try_insert_disk.
Qed.

Lemma os_walk_never_raises body :
  (forall top dirs nondirs st e s, body top dirs nondirs st <> Raised e s) ->
  forall fuel stack st e s, os_walk body fuel stack st <> Raised e s.
Proof.
  intros Hb. induction fuel as [|fuel IH]; intros stack st e s; [discriminate|].
  cbn [os_walk]. destruct stack as [|top rest]; [discriminate|].
  destruct (scandir (fs st) top) as [[dirs nondirs]|x]; [|apply IH].
  destruct (body top dirs nondirs st) as [s1|e1 s1|s1] eqn:B; [apply IH| |discriminate].
  now apply Hb in B.
Qed.

Lemma populate_tree_frame fuel root_path st :
  holds (same_disk st) (_populate_tree fuel root_path st)
  /\ forall e s, _populate_tree fuel root_path st <> Raised e s.
Proof.
  unfold _populate_tree, insert_node, tv_insert.
  cbn [tree with_tree set_status tv_delete_all tv_has items last_iid Nat.eqb orb].
  set (body := populate_dir root_path _). set (st1 := with_tree _ _).
  assert (H1 : same_disk st st1) by now repeat split.
  pose proof (os_walk_invariant (same_disk st) (fun _ => True) body) as W.
  assert (Hb : forall top dirs nondirs s, same_disk st s ->
            holds (same_disk st) (body top dirs nondirs s)).
  { intros top dirs nondirs s Hs. unfold body, populate_dir. cbn [holds].
    now do 2 apply try_inserts_disk. }
  specialize (W (fun top dirs nondirs s Hs _ _ => Hb top dirs nondirs s Hs)
                (fun _ _ _ _ _ _ _ _ _ => I) fuel [root_path] st1 H1
                (Forall_cons _ I (Forall_nil _))).
  pose proof (os_walk_never_raises body (fun _ _ _ _ _ _ H => ltac:(discriminate H))
                fuel [root_path] st1) as N.
  destruct (os_walk body fuel [root_path] st1) as [s|e s|s]; cbn [andthen holds] in *.
  - split; [exact W|discriminate].
  - now destruct (N e s).
  - split; [exact W|discriminate].
Qed.

(** X6. [_populate_tree] reads only: whatever the path and however the call
    ends, the file system, the standard output, the message boxes, the
    selection and the destination are as before; and no exception leaves
    it, whatever the walk meets. *)
Theorem populate_tree_only_reads fuel root_path st :
  holds (same_disk st) (_populate_tree fuel root_path st)
  /\ forall e s, _populate_tree fuel root_path st <> Raised e s.
Proof. apply populate_tree_frame. Qed.

Lemma populate_tree_only_reads_witness :
  holds (same_disk Trial.st_usb) (_populate_tree 5 "/media/usb" Trial.st_usb).
Proof. exact (proj1 (populate_tree_only_reads 5 "/media/usb" Trial.st_usb)). Defined.

(** X7. [open_selected_drive] shows one warning and does nothing else when
    nothing is selected; with a selection it shows no box and prints
    nothing; either way the file system, the selection and the destination
    are left as they were, and no exception leaves it. *)
Theorem open_selected_drive_only_reads fuel st :
  (drive_var st = "" ->
   open_selected_drive fuel st
   = Done (messagebox (ShowWarning "Aucun lecteur" "Aucun lecteur amovible sélectionné.") st))
  /\ (drive_var st <> "" -> holds (same_disk st) (open_selected_drive fuel st))
  /\ holds (fun s => fs s = fs st /\ drive_var s = drive_var st
                     /\ destination s = destination st) (open_selected_drive fuel st)
  /\ forall e s, open_selected_drive fuel st <> Raised e s.
Proof.
  unfold open_selected_drive.
  destruct (populate_tree_frame fuel (drive_var st) st) as [P N].
  destruct (drive_var st =? "") eqn:E.
  - apply String.eqb_eq in E. split; [reflexivity|]. split; [congruence|].
    split; [now repeat split|discriminate].
  - apply String.eqb_neq in E. split; [congruence|]. split; [auto|]. split; [|exact N].
    destruct (_populate_tree _ _ _); cbn [holds] in *; destruct P as (? & _ & _ & ? & ?);
      auto.
Qed.

Lemma open_selected_drive_only_reads_witness :
  open_selected_drive 5 (Trial.appstate0 Trial.disk0)
  = Done (messagebox (ShowWarning "Aucun lecteur" "Aucun lecteur amovible sélectionné.")
                     (Trial.appstate0 Trial.disk0))
  /\ holds (same_disk Trial.st_usb) (open_selected_drive 5 Trial.st_usb).
Proof.
  split.
  - exact (proj1 (open_selected_drive_only_reads 5 (Trial.appstate0 Trial.disk0)) eq_refl).
  - exact (proj1 (proj2 (open_selected_drive_only_reads 5 Trial.st_usb))
             ltac:(discriminate)).
Defined.

(** *** The labels of the tree view *)

Lemma try_insert_label ri labels st name :
  labelled_tree ri labels (tree st) ->
  labelled_tree ri (labels ++ [name]) (tree (try_insert (iid ri) st name)).
Proof.
  intros (kids & E & Hl & Hall). unfold try_insert, tv_insert.
  assert (Hhas : tv_has (tree st) (iid ri) = true).
  { unfold tv_has. rewrite E. cbn [existsb]. now rewrite Nat.eqb_refl, orb_true_r. }
  rewrite Hhas. cbn [tree with_tree items].
  exists (kids ++ [mkItem (S (last_iid (tree st))) (iid ri) name []]).
  rewrite E. split; [reflexivity|]. split; [rewrite map_app, Hl; reflexivity|].
  apply Forall_app. split; [assumption|now repeat constructor].
Qed.

Lemma try_inserts_label ri names : forall labels st,
  labelled_tree ri labels (tree st) ->
  labelled_tree ri (labels ++ names) (tree (fold_left (try_insert (iid ri)) names st)).
Proof.
  induction names as [|name names IH]; intros labels st H.
  - now rewrite app_nil_r.
  - cbn [fold_left]. replace (labels ++ name :: names) with ((labels ++ [name]) ++ names)
      by now rewrite <- app_assoc.
    apply IH. now apply try_insert_label.
Qed.

Lemma run_populate_labels root_path ri nodes : forall labels st,
  labelled_tree ri labels (tree st) ->
  exists st', run_list (populate_dir root_path (iid ri)) (map yielded nodes) st = Done st'
    /\ labelled_tree ri
         (labels ++ flat_map (fun v => dirnames (snd v) ++ filenames (snd v)) nodes)
         (tree st').
Proof.
  induction nodes as [|[[top r] es] nodes IH]; intros labels st H.
  - exists st. cbn. now rewrite app_nil_r.
  - cbn [map run_list flat_map]. unfold yielded at 1. cbn [fst snd]. unfold populate_dir.
    replace (if relpath top root_path =? "." then iid ri else iid ri) with (iid ri)
      by now destruct (relpath top root_path =? ".").
    pose proof (try_inserts_label ri (filenames es) _ _
                  (try_inserts_label ri (dirnames es) _ _ H)) as H1.
    destruct (IH _ _ H1) as (st' & R & L). exists st'. split; [exact R|].
    rewrite <- !app_assoc in L. rewrite <- !app_assoc. exact L.
Qed.

(** X8. The content of the tree view after [_populate_tree] on a directory
    depends on the directory alone, not on what the view showed before: the
    root item, with the path as its value, and under it the bare names met
    by the walk, in the order of the walk, at each directory its
    subdirectories before its files, none of them with a value. *)
Theorem populate_tree_labels fuel root_path st es0 :
  (root_path =? "") = false ->
  lookup (fs st) (comps root_path) = Some (Dir es0) ->
  wf_node (Dir es0) = true ->
  count_dirs (Dir es0) < fuel ->
  exists st' ri,
    _populate_tree fuel root_path st = Done st'
    /\ labelled_tree ri (walk_labels root_path (Dir es0)) (tree st')
    /\ parent ri = 0 /\ values ri = [root_path]
    /\ text ri = str_or (basename root_path) root_path.
Proof.
  intros Hne HP Hwf Hfuel. unfold _populate_tree, insert_node, tv_insert.
  cbn [tree with_tree set_status tv_delete_all tv_has items last_iid Nat.eqb orb].
  set (ri := mkItem (S (last_iid (tree st))) 0 (str_or (basename root_path) root_path)
                    [root_path]).
  set (st1 := with_tree _ _).
  assert (Hf1 : labelled_tree ri [] (tree st1)) by (exists []; now repeat split).
  assert (HP1 : src_fixed (comps root_path) (Dir es0) st1) by exact HP.
  assert (Hv : pending (comps root_path) (Dir es0) (root_path, @nil string, es0)).
  { repeat split; cbn [fst snd]; [assumption|now rewrite app_nil_r]. }
  pose proof (os_walk_run_list (populate_dir root_path (iid ri)) (comps root_path) (Dir es0)
                (src_fixed (comps root_path) (Dir es0)) Hwf (fun s H => H)) as W.
  assert (K : forall v s s', src_fixed (comps root_path) (Dir es0) s ->
                pending (comps root_path) (Dir es0) v ->
                populate_dir root_path (iid ri) (fst (fst v)) (dirnames (snd v))
                             (filenames (snd v)) s = Done s' ->
                src_fixed (comps root_path) (Dir es0) s').
  { intros v s s' Hs _ B. unfold populate_dir in B. injection B as <-.
    unfold src_fixed in *. now rewrite !try_inserts_fs. }
  specialize (W K fuel [(root_path, [], es0)] st1 HP1 (Forall_cons _ Hv (Forall_nil _))).
  cbn [map fst snd flat_map] in W. rewrite app_nil_r in W. unfold visit in W.
  cbn [fst snd] in W. change (iid ri) with (S (last_iid (tree st))) in W.
  rewrite W by (rewrite list_sum_cons; cbn [list_sum fold_right]; lia).
  destruct (run_populate_labels root_path ri (walk_nodes root_path [] (Dir es0)) [] st1 Hf1)
    as (st2 & R & L).
  change (iid ri) with (S (last_iid (tree st))) in R. rewrite R. cbn [andthen].
  exists (set_status "Arborescence chargée" st2), ri. now repeat split.
Qed.

Lemma populate_tree_labels_witness :
  exists st' ri,
    _populate_tree 5 "/media/usb" Trial.st_usb = Done st'
    /\ labelled_tree ri ["docs"; "photo.jpg"; "notes"; "empty"; "a.txt"] (tree st')
    /\ parent ri = 0 /\ values ri = ["/media/usb"]
    /\ text ri = "usb".
Proof.
  exact (populate_tree_labels 5 "/media/usb" Trial.st_usb _ eq_refl eq_refl eq_refl
           ltac:(vm_compute; lia)).
Defined.

(** X9. A root path that is not a directory (a regular file, a path that does
    not exist): [_populate_tree] reports nothing; it leaves the root item
    alone in the view and the status line says that the tree is loaded. *)
Theorem populate_tree_of_non_directory fuel root_path st :
  isdir (fs st) root_path = false -> 2 <= fuel ->
  exists st',
    _populate_tree fuel root_path st = Done st'
    /\ items (tree st')
       = [mkItem (S (last_iid (tree st))) 0 (str_or (basename root_path) root_path)
                 [root_path]]
    /\ status_label st' = "Statut: Arborescence chargée".
Proof.
  intros Hd Hf. unfold _populate_tree, insert_node, tv_insert.
  cbn [tree with_tree set_status tv_delete_all tv_has items last_iid Nat.eqb orb].
  set (st1 := with_tree _ _).
  assert (Hs : exists e, scandir (fs st1) root_path = Raise e).
  { unfold scandir. change (fs st1) with (fs st). unfold isdir in Hd.
    destruct (resolve (fs st) root_path) as [[x|es]|]; try discriminate; eauto. }
  destruct Hs as [e Hs]. destruct fuel as [|[|fuel]]; try lia. cbn [os_walk].
  rewrite Hs. cbn [andthen]. eexists. split; [reflexivity|]. split; reflexivity.
Qed.

Lemma populate_tree_of_non_directory_witness :
  exists st',
    _populate_tree 2 "/media/usb/notes" Trial.st_usb = Done st'
    /\ items (tree st') = [mkItem 1 0 "notes" ["/media/usb/notes"]]
    /\ status_label st' = "Statut: Arborescence chargée".
Proof.
  exact (populate_tree_of_non_directory 2 "/media/usb/notes" Trial.st_usb eq_refl (le_n 2)).
Defined.

(** X10. The label of the item [insert_node] adds: the whole path when the path
    ends with a separator (or is empty), and otherwise what follows its
    last separator, which is not empty.  The path itself is the value of
    the item. *)
Theorem insert_node_label par p tv :
  tv_has tv par = true ->
  exists it,
    insert_node par p tv = Ok (iid it, mkTreeview (items tv ++ [it]) (iid it))
    /\ parent it = par /\ values it = [p]
    /\ text it = (if (p =? "") || ends_with_sep p then p else basename p)
    /\ ((text it =? "") = false \/ p = "")
    /\ exists pre, p = pre +++ text it.
Proof.
  intros Hh. unfold insert_node, tv_insert. rewrite Hh.
  exists (mkItem (S (last_iid tv)) par (str_or (basename p) p) [p]). cbn [iid parent values text].
  split; [reflexivity|]. split; [reflexivity|]. split; [reflexivity|].
  unfold str_or. destruct (basename p =? "") eqn:E.
  - apply String.eqb_eq in E. pose proof E as E'. apply basename_empty in E' as [->|E'].
    + split; [reflexivity|]. split; [now right|now exists ""].
    + rewrite E', orb_true_r. split; [reflexivity|]. split; [|now exists ""].
      left. destruct p; [discriminate|reflexivity].
  - assert (N : (p =? "") || ends_with_sep p = false).
    { destruct ((p =? "") || ends_with_sep p) eqn:O; [|reflexivity].
      apply orb_true_iff in O. rewrite String.eqb_eq in O. apply basename_empty in O.
      rewrite O in E. discriminate. }
    rewrite N. split; [reflexivity|]. split; [now left|apply basename_suffix].
Qed.

Lemma insert_node_label_witness :
  exists it,
    insert_node 0 "/media/usb/" Trial.empty_tv
    = Ok (iid it, mkTreeview (items Trial.empty_tv ++ [it]) (iid it))
    /\ parent it = 0 /\ values it = ["/media/usb/"]
    /\ text it = "/media/usb/"
    /\ ((text it =? "") = false \/ "/media/usb/" = "")
    /\ exists pre, "/media/usb/" = pre +++ text it.
Proof. exact (insert_node_label 0 "/media/usb/" Trial.empty_tv eq_refl). Defined.

(** ** [list_removable_drives]: nothing that passes the check is left out *)

Lemma scan_letters_filter os bitmask l : forall acc,
  fold_left (scan_letter os bitmask) l acc
  = acc ++ map drive_letter (filter (removable_index os bitmask) l).
Proof.
  induction l as [|i l IH]; intros acc; cbn [fold_left filter map]; [now rewrite app_nil_r|].
  rewrite IH. unfold scan_letter, removable_index.
  destruct (Nat.testbit bitmask i); cbn [andb]; [|reflexivity].
  destruct (GetDriveTypeW os (drive_letter i)) as [t|e]; [|reflexivity].
  destruct (Nat.eqb t DRIVE_REMOVABLE); cbn [map]; [now rewrite <- app_assoc|reflexivity].
Qed.

Lemma drive_letter_inj i j : i < 26 -> j < 26 -> drive_letter i = drive_letter j -> i = j.
Proof.
  intros Hi Hj E. unfold drive_letter in E. injection E as E.
  apply (f_equal nat_of_ascii) in E. rewrite !nat_ascii_embedding in E by lia. lia.
Qed.

Lemma NoDup_map_on {A B : Type} (f : A -> B) (l : list A) :
  NoDup l -> (forall x y, In x l -> In y l -> f x = f y -> x = y) -> NoDup (map f l).
Proof.
  induction 1 as [|x l Hx Hl IH]; intros Hf; cbn [map]; constructor.
  - intros Hin. apply in_map_iff in Hin as (y & E & Hy).
    assert (y = x) by (apply Hf; [now right|now left|assumption]). now subst y.
  - apply IH. intros a b Ha Hb. apply Hf; now right.
Qed.

Lemma removable_index_letter os bitmask i :
  removable_index os bitmask i = true
  <-> Nat.testbit bitmask i = true /\ GetDriveTypeW os (drive_letter i) = Ok DRIVE_REMOVABLE.
Proof.
  unfold removable_index. destruct (Nat.testbit bitmask i); cbn [andb]; [|now split; [|intros []]].
  destruct (GetDriveTypeW os (drive_letter i)) as [t|e].
  - rewrite Nat.eqb_eq. split; [now intros ->|now intros [_ [= ->]]].
  - split; [discriminate|now intros []].
Qed.

(** X11. On the drive-letter platform the enumeration always returns, and its
    result is exactly the letters, among the 26, of the drives that are
    present and whose type is removable, in alphabetical order and each
    once; a query of the drive type that fails drops that letter only, and
    a failure of the query of the present drives gives the empty list. *)
Theorem drive_letters_enumeration os :
  startswith "win" (platform os) = true ->
  (forall e, GetLogicalDrives os = Raise e -> list_removable_drives os = Ok [])
  /\ (forall bitmask, GetLogicalDrives os = Ok bitmask ->
        list_removable_drives os
        = Ok (map drive_letter (filter (removable_index os bitmask) (seq 0 26))))
  /\ exists l, list_removable_drives os = Ok l /\ NoDup l
       /\ forall p, In p l <-> removable_letter os p.
Proof.
  intros Hp. unfold list_removable_drives, scan_letters. rewrite Hp.
  destruct (GetLogicalDrives os) as [bitmask|e] eqn:Hb.
  - rewrite scan_letters_filter. cbn [app]. split; [discriminate|].
    split; [now intros b [= <-]|]. eexists. split; [reflexivity|]. split.
    + apply NoDup_map_on; [apply NoDup_filter, seq_NoDup|].
      intros x y Hx Hy. apply filter_In in Hx as [Hx _], Hy as [Hy _].
      apply in_seq in Hx, Hy. apply drive_letter_inj; lia.
    + intros p. rewrite in_map_iff. split.
      * intros (i & <- & Hi). apply filter_In in Hi as [Hi Hr]. apply in_seq in Hi.
        apply removable_index_letter in Hr as [H1 H2]. exists i, bitmask.
        repeat split; [lia|assumption..].
      * intros (i & b & Hi & -> & Hb' & Ht & Hd). rewrite Hb in Hb'. injection Hb' as <-.
        exists i.
        split; [reflexivity|]. apply filter_In. split; [apply in_seq; lia|].
        now apply removable_index_letter.
  - split; [reflexivity|]. split; [discriminate|]. exists []. split; [reflexivity|].
    split; [constructor|]. intros p. split; [intros []|]. intros (i & b & _ & _ & Hb' & _).
    congruence.
Qed.

Lemma drive_letters_enumeration_witness :
  exists l, list_removable_drives Trial.os_windows = Ok l /\ NoDup l
    /\ forall p, In p l <-> removable_letter Trial.os_windows p.
Proof. exact (proj2 (proj2 (drive_letters_enumeration Trial.os_windows eq_refl))). Defined.

Lemma scan_entry_complete os base acc entry :
  (forall p, mem p (snd acc) = true -> In p (fst acc)) ->
  (forall p, mem p (snd (scan_entry os base acc entry)) = true
             -> In p (fst (scan_entry os base acc entry)))
  /\ (forall p, In p (fst acc) -> In p (fst (scan_entry os base acc entry)))
  /\ (ismount os (join base entry) = true
      -> In (join base entry) (fst (scan_entry os base acc entry))).
Proof.
  intros Hs. unfold scan_entry. destruct (ismount os (join base entry)) eqn:Hm; cbn [andb].
  - destruct (mem (join base entry) (snd acc)) eqn:Hseen; cbn [negb fst snd].
    + split; [assumption|]. split; [auto|]. intros _. now apply Hs.
    + split; [|split].
      * intros p. unfold mem. cbn [existsb]. intros H. apply orb_true_iff in H as [H|H].
        -- apply String.eqb_eq in H. subst p. apply in_or_app. right. now left.
        -- apply in_or_app. left. now apply Hs.
      * intros p Hp. apply in_or_app. now left.
      * intros _. apply in_or_app. right. now left.
  - split; [assumption|]. split; [auto|discriminate].
Qed.

Lemma scan_entries_complete os base : forall entries acc,
  (forall p, mem p (snd acc) = true -> In p (fst acc)) ->
  (forall p, mem p (snd (fold_left (scan_entry os base) entries acc)) = true
             -> In p (fst (fold_left (scan_entry os base) entries acc)))
  /\ (forall p, In p (fst acc) -> In p (fst (fold_left (scan_entry os base) entries acc)))
  /\ (forall entry, In entry entries -> ismount os (join base entry) = true
      -> In (join base entry) (fst (fold_left (scan_entry os base) entries acc))).
Proof.
  induction entries as [|entry entries IH]; intros acc Hs; cbn [fold_left].
  - split; [assumption|]. split; [auto|intros ? []].
  - destruct (scan_entry_complete os base acc entry Hs) as (H1 & H2 & H3).
    destruct (IH _ H1) as (I1 & I2 & I3). split; [assumption|]. split; [auto|].
    intros e [<-|He] Hm; [apply I2; now apply H3|now apply I3].
Qed.

Lemma scan_bases_complete os : forall cands acc l,
  (forall p, mem p (snd acc) = true -> In p (fst acc)) ->
  scan_bases os cands acc = Ok l ->
  (forall p, In p (fst acc) -> In p l)
  /\ forall base entries entry,
       In base cands -> path_exists os base = true -> listdir os base = Ok entries ->
       In entry entries -> ismount os (join base entry) = true -> In (join base entry) l.
Proof.
  induction cands as [|base cands IH]; intros acc l Hs R; cbn [scan_bases] in R.
  - injection R as <-. split; [auto|intros ? ? ? []].
  - destruct (path_exists os base) eqn:Hex.
    + destruct (listdir os base) as [entries|e] eqn:Hl.
      * destruct (scan_entries_complete os base entries acc Hs) as (H1 & H2 & H3).
        destruct (IH _ _ H1 R) as [I1 I2]. split; [auto|].
        intros b es entry [<-|Hb] Hbe Hbl He Hm; [|now apply (I2 b es)].
        rewrite Hl in Hbl. injection Hbl as <-. apply I1. now apply H3.
      * destruct e; try discriminate. destruct (IH _ _ Hs R) as [I1 I2]. split; [auto|].
        intros b es entry [<-|Hb] Hbe Hbl He Hm; [congruence|now apply (I2 b es)].
    + destruct (IH _ _ Hs R) as [I1 I2]. split; [auto|].
      intros b es entry [<-|Hb] Hbe Hbl He Hm; [congruence|now apply (I2 b es)].
Qed.

(** X12. On the mount-point platform a result that is returned holds exactly
    the mount points listed in the existing base directories: every child
    of a base directory that is a mount point is in the result, also when
    the listing of another base directory failed with [PermissionError],
    and nothing else is. *)
Theorem mount_points_enumeration os l :
  startswith "win" (platform os) = false ->
  list_removable_drives os = Ok l ->
  forall p, In p l <-> mounted_child os (candidates os) p.
Proof.
  intros Hp R p. unfold list_removable_drives in R. rewrite Hp in R.
  destruct (Path_home os) as [h|e]; [|discriminate]. split.
  - assert (I0 : scan_inv os (candidates os) ([], [])).
    { repeat split; cbn; try constructor; try discriminate; tauto. }
    destruct (scan_bases_inv os (candidates os) (candidates os) ([], []) l
                (incl_refl _) I0 R) as [_ H].
    rewrite Forall_forall in H. apply H.
  - intros (Hm & base & entries & entry & Hb & Hex & Hl & He & ->).
    assert (Hs : forall q, mem q (snd (@nil string, @nil string)) = true
                           -> In q (fst (@nil string, @nil string))) by discriminate.
    destruct (scan_bases_complete os (candidates os) _ l Hs R) as [_ H].
    now apply (H base entries entry).
Qed.

Lemma mount_points_enumeration_witness :
  In "/run/media/key2" ["/media/usb"; "/run/media/key2"]
  <-> mounted_child Trial2.os_two_keys (candidates Trial2.os_two_keys) "/run/media/key2".
Proof.
  exact (mount_points_enumeration Trial2.os_two_keys ["/media/usb"; "/run/media/key2"]
           eq_refl eq_refl "/run/media/key2").
Defined.

(** ** [refresh_drives] and the window at work *)

Lemma enumeration_checked os l : list_removable_drives os = Ok l -> Forall (checked os) l.
Proof.
  unfold list_removable_drives, checked. destruct (startswith "win" (platform os)).
  - intros [= <-]. unfold scan_letters.
    destruct (GetLogicalDrives os) as [bitmask|e] eqn:Hb; [|constructor].
    apply scan_letters_checked; try assumption; [|constructor].
    apply Forall_forall. intros i Hi. apply in_seq in Hi. lia.
  - intros R. destruct (Path_home os) as [h|e]; [|discriminate].
    apply (scan_bases_inv os (candidates os) (candidates os) ([], []) l);
      [apply incl_refl| |assumption].
    repeat split; cbn; try constructor; try discriminate; tauto.
Qed.

Lemma join_nonempty_l a b : (a =? "") = false -> join a b <> "".
Proof.
  intros Ha. unfold join. destruct b as [|c b]; cbn [starts_with_sep].
  - rewrite Ha. cbn [orb]. destruct a; [discriminate|].
    destruct (ends_with_sep (String a a0)); discriminate.
  - destruct (is_sep c); [discriminate|]. destruct a; [discriminate|].
    destruct ((String a a0 =? "") || ends_with_sep (String a a0)); discriminate.
Qed.

Lemma checked_nonempty os p : checked os p -> p <> "".
Proof.
  unfold checked. destruct (startswith "win" (platform os)).
  - intros (i & b & _ & -> & _). discriminate.
  - intros (_ & base & entries & entry & Hb & _ & _ & _ & ->).
    apply join_nonempty_l. unfold candidates in Hb.
    destruct Hb as [<-|[<-|[<-|[<-|[<-|[]]]]]]; try reflexivity.
    now apply join_nonempty.
Qed.

(** X13. [refresh_drives] when the enumeration returns: the combo box holds its
    result, every path of which passed the check of the platform; the first
    of them is selected, and the selection is empty exactly when there is
    none; the tree view is emptied; the file system, the destination and
    the message boxes are as before.  When the enumeration raises, the
    exception leaves the method: the window keeps the list, the selection
    and the tree view it had, and the status line is left at the detection
    message. *)
Theorem refresh_drives_selects_first os g :
  (forall g', refresh_drives os g = Done g' ->
     list_removable_drives os = Ok (combo_values g')
     /\ Forall (checked os) (combo_values g')
     /\ drive_var (core g') = hd "" (combo_values g')
     /\ (drive_var (core g') = "" <-> combo_values g' = [])
     /\ items (tree (core g')) = []
     /\ status_label (core g') = "Statut: Prêt"
     /\ fs (core g') = fs (core g) /\ destination (core g') = destination (core g)
     /\ boxes (core g') = boxes (core g))
  /\ (forall e g', refresh_drives os g = Raised e g' ->
        list_removable_drives os = Raise e
        /\ g' = mkGui (set_status "Détection des lecteurs..." (core g)) (combo_values g))
  /\ forall g', refresh_drives os g <> OutOfFuel g'.
Proof.
  unfold refresh_drives. destruct (list_removable_drives os) as [drives|e] eqn:R.
  - split; [|split; [discriminate|discriminate]]. intros g' [= <-]. cbn [combo_values core].
    pose proof (enumeration_checked os drives R) as Hc.
    split; [reflexivity|]. split; [assumption|].
    destruct drives as [|d0 drives]; cbn; repeat split; try discriminate.
    intros E. inversion Hc as [|? ? Hd _]; subst. now apply checked_nonempty in Hd.
  - split; [discriminate|]. split; [|discriminate]. now intros e' g' [= <- <-].
Qed.

Lemma refresh_drives_selects_first_witness :
  Forall (checked Trial2.os_two_keys) ["/media/usb"; "/run/media/key2"]
  /\ drive_var (core (state_of (refresh_drives Trial2.os_two_keys Trial2.gui0)))
     = "/media/usb".
Proof.
  pose proof (proj1 (refresh_drives_selects_first Trial2.os_two_keys Trial2.gui0)
                _ eq_refl) as (_ & H1 & H2 & _).
  split; [exact H1|exact H2].
Defined.

Lemma copy_all_frame fuel st :
  holds (fun s => keeps_kinds (fs st) (fs s) /\ drive_var s = drive_var st
                  /\ destination s = destination st) (copy_all fuel st).
Proof.
  assert (W : forall b, holds (fun s => keeps_kinds (fs st) (fs s) /\ drive_var s = drive_var st
                                        /\ destination s = destination st)
                              (Done (messagebox b st))).
  { intros b. cbn. split; [apply keeps_refl|now split]. }
  unfold copy_all. destruct (drive_var st =? ""); [apply W|].
  destruct (destination st) as [d|] eqn:Hd; [|apply W]. destruct (d =? ""); [apply W|].
  unfold _copy_paths_thread. set (o := Some (join _ _)). set (sta := set_status _ st).
  pose proof (copy_paths_session fuel o [drive_var st] sta sta (same_session_refl _)) as S.
  pose proof (copy_paths_keeps fuel o (fs st) [drive_var st] sta (keeps_refl _)) as K.
  destruct (copy_paths fuel o [drive_var st] sta) as [s|e s|s]; cbn [andthen holds] in *;
    destruct S as (_ & _ & _ & S1 & S2); subst sta;
    cbn [fs drive_var destination messagebox set_status] in *;
    (split; [exact K|split; congruence]).
Qed.

Lemma open_selected_drive_frame fuel st :
  holds (fun s => fs s = fs st /\ drive_var s = drive_var st
                  /\ destination s = destination st) (open_selected_drive fuel st).
Proof.
  unfold open_selected_drive. destruct (drive_var st =? ""); [now repeat split|].
  destruct (populate_tree_frame fuel (drive_var st) st) as [P _].
  destruct (_populate_tree _ _ _); cbn [holds] in *; destruct P as (? & _ & _ & ? & ?); auto.
Qed.

Lemma holds_state_of (I : appstate -> Prop) o : holds I o -> I (state_of o).
Proof. now destruct o. Qed.

Lemma refresh_drives_frame os g :
  fs (core (state_of (refresh_drives os g))) = fs (core g)
  /\ destination (core (state_of (refresh_drives os g))) = destination (core g).
Proof.
  unfold refresh_drives. destruct (list_removable_drives os) as [[|d0 drives]|e]; now cbn.
Qed.

Lemma refresh_drives_inv os0 os g :
  session_inv os0 g ->
  session_inv (match list_removable_drives os with Ok _ => os | Raise _ => os0 end)
              (state_of (refresh_drives os g)).
Proof.
  intros (Hd & Hc & Hs). unfold refresh_drives.
  destruct (list_removable_drives os) as [drives|e] eqn:R; cbn [state_of].
  - split; [now destruct drives|]. split; [exact R|].
    destruct drives; cbn; [now left|right; now left].
  - now split.
Qed.

Lemma handle_inv fuel os0 g ev :
  session_inv os0 g -> session_inv (last_listed os0 [ev]) (handle fuel g ev).
Proof.
  intros H. destruct ev as [os| |i|answer|]; cbn [handle last_listed fold_left].
  - now apply refresh_drives_inv.
  - destruct H as (Hd & Hc & Hs).
    destruct (holds_state_of _ _ (open_selected_drive_frame fuel (core g))) as (_ & E1 & E2).
    split; cbn [core combo_values]; [now rewrite E2|]. split; [assumption|now rewrite E1].
  - destruct (nth_error (combo_values g) i) as [v|] eqn:E; [|assumption].
    destruct H as (Hd & Hc & Hs). split; [assumption|]. split; [assumption|].
    right. exact (nth_error_In _ _ E).
  - destruct H as (Hd & Hc & Hs). unfold choose_destination.
    destruct (answer =? "") eqn:E; [now split|]. split; [|now split].
    cbn. intros [= ->]. discriminate.
  - destruct H as (Hd & Hc & Hs).
    destruct (holds_state_of _ _ (copy_all_frame fuel (core g))) as (_ & E1 & E2).
    split; cbn [core combo_values]; [now rewrite E2|]. split; [assumption|now rewrite E1].
Qed.

Lemma handle_keeps fuel g ev : keeps_kinds (fs (core g)) (fs (core (handle fuel g ev))).
Proof.
  destruct ev as [os| |i|answer|]; cbn [handle].
  - destruct (refresh_drives_frame os g) as [-> _]. apply keeps_refl.
  - destruct (holds_state_of _ _ (open_selected_drive_frame fuel (core g))) as (E & _).
    cbn [core]. rewrite E. apply keeps_refl.
  - destruct (nth_error (combo_values g) i); apply keeps_refl.
  - unfold choose_destination. destruct (answer =? ""); apply keeps_refl.
  - now destruct (holds_state_of _ _ (copy_all_frame fuel (core g))) as (K & _).
Qed.

(** X14. Whatever the user does with the window, in whatever order, and whatever
    the state of the disk: every path that exists keeps existing, with its
    kind.  The application never deletes and never puts a directory in the
    place of a file or a file in the place of a directory. *)
Theorem session_never_removes fuel evs : forall g,
  keeps_kinds (fs (core g)) (fs (core (mainloop fuel evs g))).
Proof.
  unfold mainloop. induction evs as [|ev evs IH]; intros g; cbn [fold_left].
  - apply keeps_refl.
  - eapply keeps_trans; [apply handle_keeps|apply IH].
Qed.

(** X15. From the start of the window on, between any two callbacks, [os]
    being the state of the operating system at the last enumeration that
    returned (the one of the start, or of a later [Rafraîchir]): the
    destination is unset or not empty; the combo box holds exactly the
    result of the enumeration on [os], every path of which passed the check
    of [os]; and the selection, which is what [Ouvrir] reads and
    [Copier tout] copies, is empty or one of these paths. *)
Theorem session_selection_is_checked os0 f g fuel evs :
  init os0 f = Done g ->
  session_inv (last_listed os0 evs) (mainloop fuel evs g)
  /\ Forall (checked (last_listed os0 evs)) (combo_values (mainloop fuel evs g)).
Proof.
  intros Hi.
  assert (H0 : session_inv os0 g).
  { unfold init, refresh_drives in Hi.
    destruct (list_removable_drives os0) as [drives|e] eqn:R; [|discriminate].
    injection Hi as <-. split; [now destruct drives|]. split; [exact R|].
    destruct drives; cbn; [now left|right; now left]. }
  clear Hi.
  assert (K : session_inv (last_listed os0 evs) (mainloop fuel evs g)).
  { revert os0 g H0. unfold mainloop.
    induction evs as [|ev evs IH]; intros os0 g H0; [assumption|].
    change (fold_left (handle fuel) (ev :: evs) g)
      with (fold_left (handle fuel) evs (handle fuel g ev)).
    change (last_listed os0 (ev :: evs)) with (last_listed (last_listed os0 [ev]) evs).
    apply IH. now apply handle_inv. }
  split; [exact K|]. destruct K as (_ & K & _). now apply enumeration_checked.
Qed.

Lemma session_selection_is_checked_witness :
  session_inv Trial2.os_two_keys
              (mainloop 5 [Rafraichir Trial2.os_two_keys; SelectDrive 1; ChoisirDestination "/out";
                           CopierTout; Rafraichir Trial2.os_no_home]
                        (state_of (init Trial.os_linked Trial.disk0)))
  /\ Forall (checked Trial2.os_two_keys) ["/media/usb"; "/run/media/key2"].
Proof.
  exact (session_selection_is_checked Trial.os_linked Trial.disk0 _ 5
           [Rafraichir Trial2.os_two_keys; SelectDrive 1; ChoisirDestination "/out";
            CopierTout; Rafraichir Trial2.os_no_home] eq_refl).
Defined.

(** X16. As long as no folder was chosen in the directory dialog, nothing is
    written: whatever else the user does, the file system is the one the
    window started with and the destination is unset. *)
Theorem session_without_destination os f g fuel evs :
  init os f = Done g ->
  Forall (fun ev => match ev with ChoisirDestination a => a = "" | _ => True end) evs ->
  fs (core (mainloop fuel evs g)) = f /\ destination (core (mainloop fuel evs g)) = None.
Proof.
  intros Hi.
  assert (H0 : fs (core g) = f /\ destination (core g) = None).
  { unfold init in Hi. set (g0 := mkGui _ _) in Hi.
    pose proof (refresh_drives_frame os g0) as F. now rewrite Hi in F. }
  clear Hi. revert g H0. unfold mainloop.
  induction evs as [|ev evs IH]; intros g [H1 H2] Hall; cbn [fold_left]; [now split|].
  inversion Hall as [|? ? Hev Hall']; subst. apply IH; [|assumption].
  destruct ev as [os'| |i|answer|]; cbn [handle].
  - destruct (refresh_drives_frame os' g) as [-> ->]. now split.
  - destruct (holds_state_of _ _ (open_selected_drive_frame fuel (core g))) as (E1 & _ & E2).
    cbn [core]. rewrite E1, E2. now split.
  - destruct (nth_error (combo_values g) i); now split.
  - rewrite Hev. now split.
  - unfold copy_all. rewrite H2. destruct (drive_var (core g) =? ""); now split.
Qed.

Lemma session_without_destination_witness :
  fs (core (mainloop 5 [Ouvrir; CopierTout; ChoisirDestination ""; CopierTout]
                     (state_of (init Trial2.os_two_keys Trial.disk0)))) = Trial.disk0
  /\ destination (core (mainloop 5 [Ouvrir; CopierTout; ChoisirDestination ""; CopierTout]
                                 (state_of (init Trial2.os_two_keys Trial.disk0)))) = None.
Proof.
  exact (session_without_destination Trial2.os_two_keys Trial.disk0 _ 5
           [Ouvrir; CopierTout; ChoisirDestination ""; CopierTout] eq_refl
           ltac:(repeat constructor)).
Defined.

(** X17. The only exceptions that leave the enumeration are the one of
    [Path.home()], raised when the list of the candidates is built, and
    those of the listing of an existing base directory, other than
    [PermissionError]; the drive-letter platform lets none out. *)
Theorem enumeration_raises_listing_errors os e :
  list_removable_drives os = Raise e ->
  startswith "win" (platform os) = false
  /\ (Path_home os = Raise e
      \/ (e <> PermissionError
          /\ exists base, In base (candidates os) /\ path_exists os base = true
                          /\ listdir os base = Raise e)).
Proof.
  unfold list_removable_drives. destruct (startswith "win" (platform os)); [discriminate|].
  intros R. split; [reflexivity|].
  destruct (Path_home os) as [h|e']; [right|left; now injection R as ->].
  revert R. generalize (@nil string, @nil string).
  induction (candidates os) as [|base cands IH]; intros acc R; cbn [scan_bases] in R;
    [discriminate|].
  assert (K : forall acc', scan_bases os cands acc' = Raise e ->
            e <> PermissionError
            /\ exists b, In b (base :: cands) /\ path_exists os b = true
                         /\ listdir os b = Raise e).
  { intros acc' R'. destruct (IH _ R') as (H1 & b & Hb & H2 & H3). split; [assumption|].
    exists b. repeat split; [now right|assumption..]. }
  destruct (path_exists os base) eqn:Hex; [|now apply (K acc)].
  destruct (listdir os base) as [entries|e'] eqn:Hl; [now apply (K _ R)|].
  destruct e'; try (injection R as <-; split; [discriminate|]; exists base;
                    repeat split; [now left|assumption..]).
  now apply (K acc).
Qed.

Lemma enumeration_raises_listing_errors_witness :
  Path_home Trial.os_mnt_file = Raise NotADirectoryError
  \/ (NotADirectoryError <> PermissionError
      /\ exists base, In base (candidates Trial.os_mnt_file)
                      /\ path_exists Trial.os_mnt_file base = true
                      /\ listdir Trial.os_mnt_file base = Raise NotADirectoryError).
Proof.
  exact (proj2 (enumeration_raises_listing_errors Trial.os_mnt_file NotADirectoryError eq_refl)).
Defined.

(** ** The name given on a collision *)

(** X18. The path [_copy_tree] writes on a collision keeps the directory and
    the extension of the path it replaces: it splits into the same base
    followed by [_copy], and the same extension, so that a later collision
    on it would add a second [_copy] before that extension. *)
Theorem collision_name_keeps_extension target_root f :
  valid_name f = true ->
  let dp := join target_root f in
  let dp' := fst (splitext dp) +++ "_copy" +++ snd (splitext dp) in
  dp' = join target_root (copy_name f)
  /\ splitext dp' = (fst (splitext dp) +++ "_copy", snd (splitext dp))
  /\ dp' <> dp.
Proof.
  intros Hf dp dp'. destruct (valid_name_inv _ Hf) as (_ & _ & _ & Hs).
  destruct (valid_name_inv _ (copy_name_valid f Hf)) as (_ & _ & _ & Hs').
  destruct (join_shape target_root) as [pre J].
  destruct (J f Hs) as [J1 J2]. destruct (J (copy_name f) Hs') as [K1 K2].
  assert (S1 : splitext dp = (pre +++ fst (splitext_name f), snd (splitext_name f))).
  { unfold splitext, dp. rewrite J1, J2. now destruct (splitext_name f). }
  assert (E : dp' = join target_root (copy_name f)).
  { unfold dp'. rewrite S1, K1. cbn [fst snd]. unfold copy_name.
    destruct (splitext_name f) as [b e]. cbn [fst snd]. now rewrite append_assoc. }
  split; [exact E|]. split.
  - rewrite E, S1. cbn [fst snd]. unfold splitext. rewrite K1, K2, splitext_copy_name.
    now rewrite append_assoc.
  - rewrite E. unfold dp. rewrite J1, K1. intros H.
    apply (copy_name_neq f). clear - H. induction pre as [|c pre IH]; [assumption|].
    injection H as H. now apply IH.
Qed.

Lemma collision_name_keeps_extension_witness :
  fst (splitext (join "/dst" "a.tar.gz")) +++ "_copy" +++ snd (splitext (join "/dst" "a.tar.gz"))
  = "/dst/a.tar_copy.gz"
  /\ splitext "/dst/a.tar_copy.gz" = ("/dst/a.tar_copy", ".gz").
Proof.
  pose proof (collision_name_keeps_extension "/dst" "a.tar.gz" eq_refl) as (H1 & H2 & _).
  split; [exact H1|exact H2].
Defined.
